(** * Style-conflict fixer of mcp-zero: model and verification

    Source: [internal/fixer/style_conflicts.go].

    The file has four exported operations ([CleanupStyleConflicts],
    [DetectExistingStyle], [SuggestStyleBasedOnExisting],
    [ValidateNoStyleConflicts]) and one helper ([fileExists]).  All of
    them talk to the operating system through [os.Stat], [os.Lstat],
    [os.Remove] and the directory listing done by [filepath.Walk].

    The Go code is embedded once, over an interface [OS] of these system
    calls.  Two implementations of the interface are given:

    - [QuietOS]: a file system that only the program itself changes;
    - [RacyOS]: the same file system, but an external process may change
      it before every system call, and every call is recorded in a trace.

    Without pending external changes the second behaves as the first
    ([CleanupStyleConflicts_calm], [ValidateNoStyleConflicts_calm]).

    Modelling conventions:
    - a path is the list of its components, so [filepath.Join(p, name)]
      is [p ++ [name]]; the empty list is the directory [.] that the
      other paths start from (Go's empty path string, which [os.Lstat]
      does not find, is not a path of the model);
    - an entry has a type (regular file, directory, named pipe, socket,
      device) and the access the process has to it; there are no symbolic
      links, so [os.Stat] and [os.Lstat] resolve a path the same way
      (they differ only in the operation name carried by the error);
      where a property compares what the walk has reached by [Lstat]
      with what [fileExists] sees by [Stat], its statement asks [Lstat]
      to report the entries concerned as directories or regular files,
      which on a real file system rules out symbolic links there;
    - recursion of [filepath.Walk] is bounded by a fuel argument; running
      out of fuel is a separate outcome, [OutOfFuel], never an error value
      of the program; more fuel than the tree is deep is enough
      ([Cleanup_returns], [Validate_returns] and their racy versions).

    Layout: the file system and the system calls; the program; facts
    about the quiet file system and the walks on it; the claims about the
    quiet file system (C1, C3, C5, C7); the claims that hold for every
    implementation of the system calls (C8, C9, C10); traces of the racy
    file system and the claims about interference (C4, C6); cleanup on
    the quiet file system whatever its outcome, with the claim on what a
    run deletes and keeps (C2); further properties of the same code (X1
    to X15): why cleanup fails, how cleanup, detection and validation
    compose, the operations that only read, and the order and the origin
    of the validator's diagnostics. *)

From stdpp Require Import base option list strings gmap sorting.

Open Scope string_scope.
Open Scope list_scope.
Open Scope nat_scope.

(* ===================================================================== *)
(** * Paths *)
(* ===================================================================== *)

Abbreviation path := (list string).

(** [filepath.Join(dir, name)] for a single-component [name]. *)
Definition Join (dir : path) (name : string) : path := dir ++ [name].

(** A path as Go writes it.  The empty list is the directory that the
    other paths start from, which Go writes [.]: [filepath.Join(".", name)]
    is [name], and [filepath.Walk(".", fn)] visits [.] and then its
    entries under their plain names. *)
Definition pathString (p : path) : string :=
  match p with
  | [] => "."
  | _ :: _ => String.concat "/" p
  end.

(** [filepath.Rel(base, target)] restricted to targets that lie under
    [base], the only way the validator calls it; the error result is
    dropped by the caller ([relPath, _ := ...]). *)
Fixpoint stripPrefix (base target : path) : option path :=
  match base, target with
  | [], _ => Some target
  | b :: base', t :: target' =>
      if String.eqb b t then stripPrefix base' target' else None
  | _ :: _, [] => None
  end.

Definition Rel (base target : path) : string :=
  match stripPrefix base target with
  | Some [] => "."
  | Some suffix => pathString suffix
  | None => ""
  end.

(* ===================================================================== *)
(** * Errors *)
(* ===================================================================== *)

Inductive Errno := ENOENT | EACCES | ENOTDIR | ENOTEMPTY | EBUSY.

Definition errnoString (e : Errno) : string :=
  match e with
  | ENOENT => "no such file or directory"
  | EACCES => "permission denied"
  | ENOTDIR => "not a directory"
  | ENOTEMPTY => "directory not empty"
  | EBUSY => "device or resource busy"
  end.

(** Go [error] values that occur in the file: [*fs.PathError] from the
    [os] package, and the two results of [fmt.Errorf] (with and without
    a wrapped cause). *)
Inductive error :=
| PathError (op : string) (p : path) (errno : Errno)
| wrapError (msg : string) (cause : error)
| errorString (msg : string).

Definition Error (e : error) : string :=
  match e with
  | PathError op p errno => op +:+ " " +:+ pathString p +:+ ": " +:+ errnoString errno
  | wrapError msg _ => msg
  | errorString msg => msg
  end.

(** [os.IsNotExist]: looks through [*PathError] only; it does not unwrap
    errors made by [fmt.Errorf]. *)
Definition IsNotExist (err : error) : bool :=
  match err with
  | PathError _ _ ENOENT => true
  | _ => false
  end.

(* ===================================================================== *)
(** * File information and the file system *)
(* ===================================================================== *)

Inductive FileType := Regular | Directory | NamedPipe | Socket | Device.

(** What [os.FileInfo] exposes of an entry: its type, and the access the
    calling process has to it (read = list a directory, write = change
    its entries, search = traverse it). *)
Record FileInfo := mkInfo {
  Mode : FileType;
  Readable : bool;
  Writable : bool;
  Searchable : bool
}.

Definition IsDir (info : FileInfo) : bool :=
  match Mode info with Directory => true | _ => false end.

Definition IsRegular (info : FileInfo) : bool :=
  match Mode info with Regular => true | _ => false end.

Global Instance FileType_eq_dec : EqDecision FileType.
Proof. solve_decision. Defined.
Global Instance FileInfo_eq_dec : EqDecision FileInfo.
Proof. solve_decision. Defined.
Global Instance Errno_eq_dec : EqDecision Errno.
Proof. solve_decision. Defined.

(** The file system: every entry, keyed by its path.  The entry at [[]]
    is the directory that the paths start from. *)
Abbreviation FS := (gmap path FileInfo).

(** Path resolution: every proper ancestor must be a directory that may
    be searched. *)
Fixpoint resolve (fs : FS) (cur : path) (rest : list string) : Errno + FileInfo :=
  match fs !! cur with
  | None => inl ENOENT
  | Some inode =>
      match rest with
      | [] => inr inode
      | name :: rest' =>
          if negb (IsDir inode) then inl ENOTDIR
          else if negb (Searchable inode) then inl EACCES
          else resolve fs (cur ++ [name]) rest'
      end
  end.

Definition namei (fs : FS) (p : path) : Errno + FileInfo := resolve fs [] p.

Definition childName (dir k : path) : option string :=
  match drop (length dir) k with
  | [name] => if decide (take (length dir) k = dir) then Some name else None
  | _ => None
  end.

(** Names of the entries of [dir], in lexical order as [readDirNames]
    of [path/filepath] returns them. *)
Definition entries (fs : FS) (dir : path) : list string :=
  merge_sort String.le (omap (childName dir) (elements (dom fs))).

Definition fs_lstat (p : path) (fs : FS) : error + FileInfo :=
  match namei fs p with
  | inl e => inl (PathError "lstat" p e)
  | inr info => inr info
  end.

Definition fs_stat (p : path) (fs : FS) : error + FileInfo :=
  match namei fs p with
  | inl e => inl (PathError "stat" p e)
  | inr info => inr info
  end.

Definition fs_readDirNames (p : path) (fs : FS) : error + list string :=
  match namei fs p with
  | inl e => inl (PathError "open" p e)
  | inr info =>
      if negb (Readable info) then inl (PathError "open" p EACCES)
      else if negb (IsDir info) then inl (PathError "readdirent" p ENOTDIR)
      else inr (entries fs p)
  end.

Definition fs_remove (p : path) (fs : FS) : option error * FS :=
  match namei fs p with
  | inl e => (Some (PathError "remove" p e), fs)
  | inr info =>
      if bool_decide (p = []) then (Some (PathError "remove" p EBUSY), fs)
      else
        match fs !! removelast p with
        | None => (Some (PathError "remove" p ENOENT), fs)
        | Some parent =>
            if negb (Writable parent) then (Some (PathError "remove" p EACCES), fs)
            else if IsDir info && negb (bool_decide (entries fs p = []))
            then (Some (PathError "remove" p ENOTEMPTY), fs)
            else (None, delete p fs)
        end
  end.

(* ===================================================================== *)
(** * The system-call interface *)
(* ===================================================================== *)

Class OS (W : Type) := {
  Lstat : path → W → (error + FileInfo) * W;
  Stat : path → W → (error + FileInfo) * W;
  readDirNames : path → W → (error + list string) * W;
  Remove : path → W → option error * W
}.

(** ** The quiet file system: nobody else touches it *)

Global Instance QuietOS : OS FS := {
  Lstat p fs := (fs_lstat p fs, fs);
  Stat p fs := (fs_stat p fs, fs);
  readDirNames p fs := (fs_readDirNames p fs, fs);
  Remove p fs := fs_remove p fs
}.

(** ** The racy file system: an external process interferes *)

Inductive ExtOp :=
| ExtPut (p : path) (info : FileInfo)
| ExtDel (p : path).

Definition applyExt (op : ExtOp) (fs : FS) : FS :=
  match op with
  | ExtPut p info => <[p := info]> fs
  | ExtDel p => delete p fs
  end.

Inductive Event :=
| EvLstat (p : path) (r : error + FileInfo)
| EvStat (p : path) (r : error + FileInfo)
| EvReadDir (p : path) (r : error + list string)
| EvRemove (p : path) (r : option error).

(** [pending]: what the external process does just before each of the
    program's next system calls, one batch of changes per call.
    [trace]: the program's calls so far, oldest first. *)
Record World := mkWorld {
  files : FS;
  pending : list (list ExtOp);
  trace : list Event
}.

Definition intrude (w : World) : FS * list (list ExtOp) :=
  match pending w with
  | [] => (files w, [])
  | batch :: later => (foldl (λ fs op, applyExt op fs) (files w) batch, later)
  end.

Definition racy_lstat (p : path) (w : World) : (error + FileInfo) * World :=
  let '(fs, later) := intrude w in
  let r := fs_lstat p fs in
  (r, mkWorld fs later (trace w ++ [EvLstat p r])).

Definition racy_stat (p : path) (w : World) : (error + FileInfo) * World :=
  let '(fs, later) := intrude w in
  let r := fs_stat p fs in
  (r, mkWorld fs later (trace w ++ [EvStat p r])).

Definition racy_readDirNames (p : path) (w : World) : (error + list string) * World :=
  let '(fs, later) := intrude w in
  let r := fs_readDirNames p fs in
  (r, mkWorld fs later (trace w ++ [EvReadDir p r])).

Definition racy_remove (p : path) (w : World) : option error * World :=
  let '(fs, later) := intrude w in
  let '(r, fs') := fs_remove p fs in
  (r, mkWorld fs' later (trace w ++ [EvRemove p r])).

Global Instance RacyOS : OS World := {
  Lstat := racy_lstat;
  Stat := racy_stat;
  readDirNames := racy_readDirNames;
  Remove := racy_remove
}.

(* ===================================================================== *)
(** * The program *)
(* ===================================================================== *)

(** State-passing computations. *)
Definition M (σ A : Type) : Type := σ → A * σ.

Definition ret {σ A} (a : A) : M σ A := λ s, (a, s).

Definition bind {σ A B} (m : M σ A) (k : A → M σ B) : M σ B :=
  λ s, let '(a, s') := m s in k a s'.

Notation "'let!' x ':=' m 'in' k" := (bind m (λ x, k))
  (at level 10, x name, m at level 100, k at level 200).

(** A system call made from inside a callback that captured variables
    of type [C]. *)
Definition sys {C W A} (op : W → A * W) : M (C * W) A :=
  λ '(c, w), let '(a, w') := op w in (a, (c, w')).

(** Outcome of a walk: the Go [error] it returns ([None] is [nil]), or
    the model's fuel ran out. *)
Inductive walkres :=
| OutOfFuel
| Returned (err : option error).

(** [StyleConflictPair] and [knownStyleConflicts]. *)
Record StyleConflictPair := {
  GoZeroStyle : string;
  GoZeroFlat : string
}.

Definition knownStyleConflicts : list StyleConflictPair :=
  [ {| GoZeroStyle := "service_context.go"; GoZeroFlat := "servicecontext.go" |} ].

Definition newline : string :=
  String (Ascii.Ascii false true false true false false false false) "".

Section Program.
Context {W : Type} `{OSW : OS W}.

(** [fileExists]. *)
Definition fileExists (p : path) : M W bool :=
  let! r := Stat p in
  match r with
  | inl _ => ret false
  | inr info => ret (negb (IsDir info))
  end.

(** ** [filepath.Walk]

    As in [path/filepath]: [Walk] calls [Lstat] on the root; [walk]
    lists a directory first, then calls the callback on it, then goes
    through the names it had listed, calling [Lstat] on each.

    [WalkFunc] receives [(path, info, err)]; [info] is [nil] exactly when
    [Lstat] failed.  No callback of this file returns [filepath.SkipDir]
    or [filepath.SkipAll], so the branches of [Walk] for them are left
    out. *)
Section Walk.
Context {C : Type}.

Definition WalkFunc : Type :=
  path → option FileInfo → option error → M (C * W) (option error).

(** The [for _, name := range names] loop of [walk]. *)
Fixpoint walkNames (rec : path → FileInfo → M (C * W) walkres)
    (walkFn : WalkFunc) (dir : path) (names : list string)
    : M (C * W) walkres :=
  match names with
  | [] => ret (Returned None)
  | name :: rest =>
      let filename := Join dir name in
      let! r := sys (Lstat filename) in
      match r with
      | inl err =>
          let! e := walkFn filename None (Some err) in
          match e with
          | Some _ => ret (Returned e)
          | None => walkNames rec walkFn dir rest
          end
      | inr fileInfo =>
          let! res := rec filename fileInfo in
          match res with
          | Returned None => walkNames rec walkFn dir rest
          | _ => ret res
          end
      end
  end.

Fixpoint walk (fuel : nat) (walkFn : WalkFunc) (p : path) (info : FileInfo)
    : M (C * W) walkres :=
  match fuel with
  | 0 => ret OutOfFuel
  | S fuel' =>
      if negb (IsDir info) then
        let! e := walkFn p (Some info) None in ret (Returned e)
      else
        let! r := sys (readDirNames p) in
        let err := match r with inl e => Some e | inr _ => None end in
        let names := match r with inl _ => [] | inr ns => ns end in
        let! err1 := walkFn p (Some info) err in
        match err, err1 with
        | None, None => walkNames (walk fuel' walkFn) walkFn p names
        | _, _ => ret (Returned err1)
        end
  end.

Definition Walk (fuel : nat) (root : path) (fn : WalkFunc) : M (C * W) walkres :=
  let! r := sys (Lstat root) in
  match r with
  | inl err => let! e := fn root None (Some err) in ret (Returned e)
  | inr info => walk fuel fn root info
  end.
End Walk.

(** ** [CleanupStyleConflicts] *)

(** The [for _, conflict := range knownStyleConflicts] loop of the
    callback. *)
Fixpoint cleanupConflicts (keepGoZeroStyle : bool) (dir : path)
    (conflicts : list StyleConflictPair) : M W (option error) :=
  match conflicts with
  | [] => ret None
  | conflict :: rest =>
      let goZeroFile := Join dir (GoZeroStyle conflict) in
      let gozeroFile := Join dir (GoZeroFlat conflict) in
      let! goZeroExists := fileExists goZeroFile in
      let! gozeroExists := fileExists gozeroFile in
      if goZeroExists && gozeroExists then
        let fileToRemove := if keepGoZeroStyle then gozeroFile else goZeroFile in
        let! still := fileExists fileToRemove in
        if still then
          let! err := Remove fileToRemove in
          match err with
          | Some e =>
              ret (Some (wrapError
                ("failed to remove conflicting file " +:+ pathString fileToRemove
                   +:+ ": " +:+ Error e) e))
          | None => cleanupConflicts keepGoZeroStyle dir rest
          end
        else cleanupConflicts keepGoZeroStyle dir rest
      else cleanupConflicts keepGoZeroStyle dir rest
  end.

(** The callback.  The case of a [nil] info without error is never
    reached: [Walk] passes a [nil] info only together with an error. *)
Definition cleanupFn (keepGoZeroStyle : bool) : WalkFunc (C := unit) :=
  λ p info err,
    match err with
    | Some e => if IsNotExist e then ret None else ret (Some e)
    | None =>
        match info with
        | None => ret None
        | Some i =>
            if negb (IsDir i) then ret None
            else sys (cleanupConflicts keepGoZeroStyle p knownStyleConflicts)
        end
    end.

Definition CleanupStyleConflicts (fuel : nat) (projectPath : path) (style : string)
    : M W walkres :=
  λ w,
    let keepGoZeroStyle := String.eqb style "go_zero" in
    let '(res, (_, w')) := Walk fuel projectPath (cleanupFn keepGoZeroStyle) (tt, w) in
    (res, w').

(** ** [DetectExistingStyle] *)

(** The [for _, dir := range commonDirs] loop; [None] when it ends
    without returning. *)
Fixpoint detectInDirs (conflict : StyleConflictPair) (dirs : list path)
    : M W (option string) :=
  match dirs with
  | [] => ret None
  | dir :: rest =>
      let goZeroFile := Join dir (GoZeroStyle conflict) in
      let gozeroFile := Join dir (GoZeroFlat conflict) in
      let! a := fileExists goZeroFile in
      if a then ret (Some "go_zero")
      else
        let! b := fileExists gozeroFile in
        if b then ret (Some "gozero")
        else detectInDirs conflict rest
  end.

Definition commonDirs (projectPath : path) : list path :=
  [ projectPath ++ ["internal"; "svc"];
    projectPath ++ ["internal"; "handler"];
    projectPath ++ ["internal"; "logic"] ].

(** The [for _, conflict := range knownStyleConflicts] loop. *)
Fixpoint detectInTable (projectPath : path) (conflicts : list StyleConflictPair)
    : M W string :=
  match conflicts with
  | [] => ret ""
  | conflict :: rest =>
      let! found := detectInDirs conflict (commonDirs projectPath) in
      match found with
      | Some style => ret style
      | None => detectInTable projectPath rest
      end
  end.

Definition DetectExistingStyle (projectPath : path) : M W string :=
  detectInTable projectPath knownStyleConflicts.

(** ** [SuggestStyleBasedOnExisting] *)

Definition SuggestStyleBasedOnExisting (projectPath : path) (defaultStyle : string)
    : M W string :=
  let! existingStyle := DetectExistingStyle projectPath in
  if negb (String.eqb existingStyle "") then ret existingStyle
  else ret defaultStyle.

(** ** [ValidateNoStyleConflicts] *)

(** [fmt.Sprintf("%s: both %s and %s exist", relPath, ...)]. *)
Definition conflictLine (projectPath dir : path) (conflict : StyleConflictPair) : string :=
  Rel projectPath dir +:+ ": both " +:+ GoZeroStyle conflict +:+ " and "
    +:+ GoZeroFlat conflict +:+ " exist".

(** The callback captures the slice [conflicts] and appends to it. *)
Definition appendConflict (line : string) : M (list string * W) unit :=
  λ '(conflicts, w), (tt, (conflicts ++ [line], w)).

(** The loop over the table; [&&] evaluates its second operand only when
    the first is true. *)
Fixpoint validateConflicts (projectPath dir : path)
    (table : list StyleConflictPair) : M (list string * W) unit :=
  match table with
  | [] => ret tt
  | conflict :: rest =>
      let goZeroFile := Join dir (GoZeroStyle conflict) in
      let gozeroFile := Join dir (GoZeroFlat conflict) in
      let! a := sys (fileExists goZeroFile) in
      let! b := (if a then sys (fileExists gozeroFile) else ret false) in
      let! _ := (if b then appendConflict (conflictLine projectPath dir conflict)
                 else ret tt) in
      validateConflicts projectPath dir rest
  end.

Definition validateFn (projectPath : path) : WalkFunc (C := list string) :=
  λ p info err,
    match err with
    | Some e => ret (Some e)
    | None =>
        match info with
        | None => ret None
        | Some i =>
            if negb (IsDir i) then ret None
            else let! _ := validateConflicts projectPath p knownStyleConflicts in
                 ret None
        end
    end.

(** [fmt.Errorf("style conflicts detected:\n%s", strings.Join(conflicts, "\n"))]. *)
Definition conflictsError (conflicts : list string) : error :=
  errorString ("style conflicts detected:" +:+ newline +:+ String.concat newline conflicts).

Definition ValidateNoStyleConflicts (fuel : nat) (projectPath : path) : M W walkres :=
  λ w,
    let '(res, (conflicts, w')) :=
      Walk fuel projectPath (validateFn projectPath) ([], w) in
    match res with
    | OutOfFuel => (OutOfFuel, w')
    | Returned (Some err) => (Returned (Some err), w')
    | Returned None =>
        if decide (0 < length conflicts)
        then (Returned (Some (conflictsError conflicts)), w')
        else (Returned None, w')
    end.
End Program.

Global Arguments cleanupFn : simpl never.
Global Arguments validateFn : simpl never.


(* ===================================================================== *)
(** * Facts about the quiet file system *)
(* ===================================================================== *)

Lemma resolve_snoc (fs : FS) (rest : list string) : ∀ (cur : path) (name : string),
  resolve fs cur (rest ++ [name]) =
    match resolve fs cur rest with
    | inl e => inl e
    | inr i =>
        if negb (IsDir i) then inl ENOTDIR
        else if negb (Searchable i) then inl EACCES
        else match fs !! (cur ++ rest ++ [name]) with
             | None => inl ENOENT
             | Some j => inr j
             end
    end.
Proof.
  induction rest as [|r rest IH]; intros cur name; simpl.
  - destruct (fs !! cur) as [i|] eqn:Hi; [|done].
    destruct (negb (IsDir i)); [done|].
    destruct (negb (Searchable i)); [done|].
    by destruct (fs !! (cur ++ [name])).
  - destruct (fs !! cur) as [i|] eqn:Hi; [|done].
    destruct (negb (IsDir i)); [done|].
    destruct (negb (Searchable i)); [done|].
    rewrite IH. by rewrite <- !(assoc_L (++)).
Qed.

Lemma namei_snoc (fs : FS) (d : path) (name : string) :
  namei fs (d ++ [name]) =
    match namei fs d with
    | inl e => inl e
    | inr i =>
        if negb (IsDir i) then inl ENOTDIR
        else if negb (Searchable i) then inl EACCES
        else match fs !! (d ++ [name]) with
             | None => inl ENOENT
             | Some j => inr j
             end
    end.
Proof. unfold namei. by rewrite resolve_snoc. Qed.

Lemma namei_lookup (fs : FS) (p : path) (i : FileInfo) :
  namei fs p = inr i → fs !! p = Some i.
Proof.
  destruct p as [|x p _] using rev_ind.
  - unfold namei; simpl. by destruct (fs !! []) eqn:E; intros [= ->].
  - rewrite namei_snoc. destruct (namei fs p) as [|j]; [done|].
    destruct (negb (IsDir j)); [done|]. destruct (negb (Searchable j)); [done|].
    by destruct (fs !! (p ++ [x])); intros [= ->].
Qed.

(** An entry that resolves sits below directories only. *)
Lemma namei_ancestor (fs : FS) (d suffix : path) (i : FileInfo) :
  namei fs (d ++ suffix) = inr i → suffix ≠ [] →
  ∃ j, namei fs d = inr j ∧ IsDir j = true ∧ Searchable j = true.
Proof.
  revert i. induction suffix as [|x suffix IH] using rev_ind; [done|].
  intros i Hn _. rewrite (assoc_L (++)) in Hn. rewrite namei_snoc in Hn.
  destruct (namei fs (d ++ suffix)) as [|j] eqn:Hj; [done|].
  destruct (IsDir j) eqn:Hd; [|done]. destruct (Searchable j) eqn:Hs; [|done].
  destruct suffix as [|y suffix'].
  - rewrite (right_id_L [] (++)) in Hj. eauto.
  - eapply IH; [done|done].
Qed.

Definition isDirAt (fs : FS) (d : path) : Prop :=
  ∃ i, namei fs d = inr i ∧ IsDir i = true.

(** [existsFile fs p]: what [fileExists p] answers on a quiet file system. *)
Definition existsFile (fs : FS) (p : path) : bool :=
  match namei fs p with
  | inl _ => false
  | inr info => negb (IsDir info)
  end.

Lemma fileExists_quiet (p : path) (fs : FS) :
  fileExists p fs = (existsFile fs p, fs).
Proof.
  unfold fileExists, bind, existsFile; simpl. unfold fs_stat.
  by destruct (namei fs p).
Qed.

Lemma existsFile_lookup (fs : FS) (p : path) :
  existsFile fs p = true → ∃ i, fs !! p = Some i ∧ IsDir i = false.
Proof.
  unfold existsFile. destruct (namei fs p) as [|i] eqn:Hn; [done|].
  intros Hd. exists i. split; [by apply namei_lookup|]. by destruct (IsDir i).
Qed.

Lemma existsFile_parent (fs : FS) (d : path) (name : string) :
  existsFile fs (d ++ [name]) = true → isDirAt fs d.
Proof.
  unfold existsFile. destruct (namei fs (d ++ [name])) as [|i] eqn:Hn; [done|].
  intros _. destruct (namei_ancestor fs d [name] i Hn) as (j & ? & ? & ?); [done|].
  by exists j.
Qed.

(** ** Directory listings *)

Lemma childName_Some (dir k : path) (name : string) :
  childName dir k = Some name ↔ k = dir ++ [name].
Proof.
  unfold childName. split.
  - destruct (drop (length dir) k) as [|x [|??]] eqn:Hd; try done.
    case_decide as Ht; [|done]. intros [= ->].
    by rewrite <- (take_drop (length dir) k), Hd, Ht.
  - intros ->. rewrite drop_app_length, take_app_length.
    by rewrite decide_True.
Qed.

Lemma elem_of_entries (fs : FS) (dir : path) (name : string) :
  name ∈ entries fs dir ↔ is_Some (fs !! (dir ++ [name])).
Proof.
  unfold entries. rewrite merge_sort_Permutation, list_elem_of_omap.
  split.
  - intros (k & Hk & Hc). apply childName_Some in Hc as ->.
    by apply elem_of_dom, elem_of_elements.
  - intros Hs. exists (dir ++ [name]). split.
    + by apply elem_of_elements, elem_of_dom.
    + by apply childName_Some.
Qed.

Lemma NoDup_entries (fs : FS) (dir : path) : NoDup (entries fs dir).
Proof.
  unfold entries. rewrite merge_sort_Permutation.
  generalize (NoDup_elements (dom fs)). generalize (elements (dom fs)).
  induction 1 as [|k l Hk Hl IH]; simpl; [constructor|].
  destruct (childName dir k) as [name|] eqn:Hc; [|done].
  constructor; [|done].
  rewrite list_elem_of_omap. intros (k' & Hk' & Hc').
  apply childName_Some in Hc, Hc'. by subst.
Qed.

(** ** Shrinking: entries that are not directories disappear *)

Definition shrink (fs fs' : FS) : Prop :=
  ∀ k, fs' !! k = fs !! k
     ∨ (fs' !! k = None ∧ ∃ j, fs !! k = Some j ∧ IsDir j = false).

Lemma shrink_refl (fs : FS) : shrink fs fs.
Proof. intros k. by left. Qed.

Lemma shrink_trans (fs1 fs2 fs3 : FS) :
  shrink fs1 fs2 → shrink fs2 fs3 → shrink fs1 fs3.
Proof.
  intros H12 H23 k. destruct (H23 k) as [E|[E (j & Hj & Hd)]].
  - rewrite E. apply H12.
  - right. split; [done|]. destruct (H12 k) as [E'|[E' _]]; [|congruence].
    exists j. by rewrite <- E'.
Qed.

Lemma shrink_delete (fs : FS) (k : path) (j : FileInfo) :
  fs !! k = Some j → IsDir j = false → shrink fs (delete k fs).
Proof.
  intros Hk Hd k'. destruct (decide (k = k')) as [<-|Hne].
  - right. rewrite lookup_delete_eq. eauto.
  - left. by rewrite lookup_delete_ne.
Qed.

Lemma shrink_lookup_Some (fs fs' : FS) (k : path) (j : FileInfo) :
  shrink fs fs' → fs' !! k = Some j → fs !! k = Some j.
Proof. intros H Hk. destruct (H k) as [E|[E _]]; congruence. Qed.

Lemma shrink_lookup_dir (fs fs' : FS) (k : path) (j : FileInfo) :
  shrink fs fs' → fs !! k = Some j → IsDir j = true → fs' !! k = Some j.
Proof.
  intros H Hk Hd. destruct (H k) as [E|[_ (j' & Hj' & Hd')]]; [congruence|].
  congruence.
Qed.

Lemma shrink_namei_back (fs fs' : FS) (p : path) (i : FileInfo) :
  shrink fs fs' → namei fs' p = inr i → namei fs p = inr i.
Proof.
  intros Hs. revert i. induction p as [|x p IH] using rev_ind; intros i.
  - unfold namei; simpl. destruct (fs' !! []) as [j|] eqn:E; [|done].
    intros [= ->]. by rewrite (shrink_lookup_Some _ _ _ _ Hs E).
  - rewrite !namei_snoc. destruct (namei fs' p) as [|j] eqn:Hj; [done|].
    rewrite (IH j eq_refl).
    destruct (negb (IsDir j)); [done|]. destruct (negb (Searchable j)); [done|].
    destruct (fs' !! (p ++ [x])) as [i'|] eqn:E; [|done].
    intros [= ->]. by rewrite (shrink_lookup_Some _ _ _ _ Hs E).
Qed.

Lemma shrink_namei_dir (fs fs' : FS) (p : path) (i : FileInfo) :
  shrink fs fs' → namei fs p = inr i → IsDir i = true → namei fs' p = inr i.
Proof.
  intros Hs. revert i. induction p as [|x p IH] using rev_ind; intros i.
  - unfold namei; simpl. destruct (fs !! []) as [j|] eqn:E; [|done].
    intros [= ->] Hd. by rewrite (shrink_lookup_dir _ _ _ _ Hs E Hd).
  - rewrite !namei_snoc. destruct (namei fs p) as [|j] eqn:Hj; [done|].
    destruct (IsDir j) eqn:Hdj; [|done]. simpl.
    rewrite (IH j eq_refl Hdj), Hdj. simpl.
    destruct (negb (Searchable j)); [done|].
    destruct (fs !! (p ++ [x])) as [i'|] eqn:E; [|done].
    intros [= ->] Hd. by rewrite (shrink_lookup_dir _ _ _ _ Hs E Hd).
Qed.

Lemma shrink_isDirAt (fs fs' : FS) (d : path) :
  shrink fs fs' → isDirAt fs d ↔ isDirAt fs' d.
Proof.
  intros Hs. split; intros (i & Hi & Hd); exists i; split; try done.
  - by eapply shrink_namei_dir.
  - by eapply shrink_namei_back.
Qed.

Lemma shrink_existsFile (fs fs' : FS) (p : path) :
  shrink fs fs' → existsFile fs' p = true → existsFile fs p = true.
Proof.
  intros Hs. unfold existsFile.
  destruct (namei fs' p) as [|i] eqn:Hn; [done|].
  by rewrite (shrink_namei_back _ _ _ _ Hs Hn).
Qed.

(** An entry that [shrink] left in place still answers as before. *)
Lemma shrink_existsFile_kept (fs fs' : FS) (d : path) (name : string) :
  shrink fs fs' → fs' !! (d ++ [name]) = fs !! (d ++ [name]) →
  existsFile fs' (d ++ [name]) = existsFile fs (d ++ [name]).
Proof.
  intros Hs Hk. unfold existsFile. rewrite !namei_snoc.
  destruct (namei fs d) as [e|i] eqn:Hi.
  - destruct (namei fs' d) as [e'|i'] eqn:Hi'; [done|].
    by rewrite (shrink_namei_back _ _ _ _ Hs Hi') in Hi.
  - destruct (IsDir i) eqn:Hd; simpl.
    + by rewrite (shrink_namei_dir _ _ _ _ Hs Hi Hd), Hd, Hk.
    + destruct (namei fs' d) as [e'|i'] eqn:Hi'; [done|].
      rewrite (shrink_namei_back _ _ _ _ Hs Hi') in Hi.
      injection Hi as ->. by rewrite Hd.
Qed.

(* ===================================================================== *)
(** * What cleanup does on a quiet file system *)
(* ===================================================================== *)

(** The file of a pair that the chosen style loses, and the one it keeps. *)
Definition loser (keepGoZeroStyle : bool) (c : StyleConflictPair) : string :=
  if keepGoZeroStyle then GoZeroFlat c else GoZeroStyle c.

Definition kept (keepGoZeroStyle : bool) (c : StyleConflictPair) : string :=
  if keepGoZeroStyle then GoZeroStyle c else GoZeroFlat c.

(** Directory [d] holds both halves of the pair [c]. *)
Definition conflictAt (fs : FS) (d : path) (c : StyleConflictPair) : bool :=
  existsFile fs (Join d (GoZeroStyle c)) && existsFile fs (Join d (GoZeroFlat c)).

Lemma conflictAt_loser (fs : FS) (d : path) (c : StyleConflictPair) (keep : bool) :
  conflictAt fs d c = true → existsFile fs (d ++ [loser keep c]) = true.
Proof.
  unfold conflictAt, Join. intros [??]%andb_true_iff. by destruct keep.
Qed.

Lemma conflictAt_kept (fs : FS) (d : path) (c : StyleConflictPair) (keep : bool) :
  conflictAt fs d c = true → existsFile fs (d ++ [kept keep c]) = true.
Proof.
  unfold conflictAt, Join. intros [??]%andb_true_iff. by destruct keep.
Qed.

Lemma conflictAt_split (fs : FS) (d : path) (c : StyleConflictPair) (keep : bool) :
  conflictAt fs d c =
    existsFile fs (d ++ [kept keep c]) && existsFile fs (d ++ [loser keep c]).
Proof. unfold conflictAt, Join. destruct keep; simpl; [done|]. apply andb_comm. Qed.

Lemma shrink_conflictAt (fs fs' : FS) (d : path) (c : StyleConflictPair) :
  shrink fs fs' → conflictAt fs' d c = true → conflictAt fs d c = true.
Proof.
  intros Hs. unfold conflictAt. rewrite !andb_true_iff.
  intros [??]. split; by eapply shrink_existsFile.
Qed.

Lemma shrink_no_conflict (fs fs' : FS) (d : path) (c : StyleConflictPair) :
  shrink fs fs' → conflictAt fs d c = false → conflictAt fs' d c = false.
Proof.
  intros Hs Hc. destruct (conflictAt fs' d c) eqn:E; [|done].
  by rewrite (shrink_conflictAt _ _ _ _ Hs E) in Hc.
Qed.

Section Cleaned.
Variable T : list StyleConflictPair.
Variable keep : bool.

(** [k] is a file cleanup has to remove when it walks the tree at [p]. *)
Definition Victim (fs : FS) (p k : path) : Prop :=
  ∃ d c, c ∈ T ∧ k = d ++ [loser keep c] ∧ p `prefix_of` d
         ∧ conflictAt fs d c = true.

(** [fs'] is [fs] without some of the victims below [p]. *)
Definition Cleaned (p : path) (fs fs' : FS) : Prop :=
  ∀ k, fs' !! k = fs !! k ∨ (fs' !! k = None ∧ Victim fs p k).

Lemma Victim_lookup fs p k :
  Victim fs p k → ∃ j, fs !! k = Some j ∧ IsDir j = false.
Proof.
  intros (d & c & _ & -> & _ & Hc).
  by apply existsFile_lookup, conflictAt_loser.
Qed.

Lemma Cleaned_shrink p fs fs' : Cleaned p fs fs' → shrink fs fs'.
Proof.
  intros H k. destruct (H k) as [E|[E Hv]]; [by left|right].
  split; [done|]. by eapply Victim_lookup.
Qed.

Lemma Victim_shrink fs fs' p k : shrink fs fs' → Victim fs' p k → Victim fs p k.
Proof.
  intros Hs (d & c & ? & ? & ? & Hc). exists d, c.
  repeat split; try done. by eapply shrink_conflictAt.
Qed.

Lemma Victim_prefix fs p p' k : p `prefix_of` p' → Victim fs p' k → Victim fs p k.
Proof.
  intros Hp (d & c & ? & ? & ? & Hc). exists d, c.
  repeat split; try done. by etrans.
Qed.

Lemma Cleaned_refl p fs : Cleaned p fs fs.
Proof. intros k. by left. Qed.

Lemma Cleaned_trans p fs1 fs2 fs3 :
  Cleaned p fs1 fs2 → Cleaned p fs2 fs3 → Cleaned p fs1 fs3.
Proof.
  intros H12 H23 k. destruct (H23 k) as [E|[E Hv]].
  - rewrite E. apply H12.
  - right. split; [done|]. eapply Victim_shrink; [|done].
    by eapply Cleaned_shrink.
Qed.

Lemma Cleaned_prefix p p' fs fs' :
  p `prefix_of` p' → Cleaned p' fs fs' → Cleaned p fs fs'.
Proof.
  intros Hp H k. destruct (H k) as [E|[E Hv]]; [by left|right].
  split; [done|]. by eapply Victim_prefix.
Qed.

Lemma existsFile_delete fs p : existsFile (delete p fs) p = false.
Proof.
  destruct (existsFile (delete p fs) p) eqn:E; [|done].
  apply existsFile_lookup in E as (i & Hi & _).
  by rewrite lookup_delete_eq in Hi.
Qed.

(** [os.Remove] of an existing non-directory: fails exactly when the
    directory holding it may not be written. *)
Lemma fs_remove_file fs d name :
  existsFile fs (d ++ [name]) = true →
  ∃ j, fs !! d = Some j ∧
    fs_remove (d ++ [name]) fs =
      if Writable j then (None, delete (d ++ [name]) fs)
      else (Some (PathError "remove" (d ++ [name]) EACCES), fs).
Proof.
  intros He. pose proof He as (j & Hj & Hd)%existsFile_parent.
  apply namei_lookup in Hj. exists j. split; [done|].
  unfold fs_remove. unfold existsFile in He.
  destruct (namei fs (d ++ [name])) as [|i]; [done|].
  rewrite bool_decide_false by (by destruct d).
  rewrite removelast_last, Hj.
  destruct (Writable j); simpl; [|done].
  apply negb_true_iff in He. by rewrite He.
Qed.

(** The loop over the conflict table, in one directory. *)
Lemma cleanupConflicts_quiet (d : path) (conflicts : list StyleConflictPair) :
  (∀ c, c ∈ conflicts → c ∈ T) →
  ∀ (fs fs' : FS) (r : option error),
    cleanupConflicts keep d conflicts fs = (r, fs') →
    Cleaned d fs fs' ∧
    (r = None → ∀ c, c ∈ conflicts → conflictAt fs' d c = false).
Proof.
  induction conflicts as [|c rest IH]; intros HT fs fs' r.
  - simpl. unfold ret. intros [= <- <-]. split; [apply Cleaned_refl|].
    intros _ c Hc. by apply elem_of_nil in Hc.
  - simpl. unfold bind. rewrite !fileExists_quiet.
    fold (conflictAt fs d c).
    assert (HT' : ∀ c', c' ∈ rest → c' ∈ T).
    { intros c' Hc'. apply HT. by right. }
    destruct (conflictAt fs d c) eqn:Hc.
    + replace (if keep then Join d (GoZeroFlat c) else Join d (GoZeroStyle c))
        with (d ++ [loser keep c]) by (by destruct keep).
      rewrite fileExists_quiet.
      pose proof (conflictAt_loser _ _ _ keep Hc) as Hl. rewrite Hl.
      destruct (fs_remove_file _ _ _ Hl) as (j & Hj & ->).
      destruct (Writable j).
      * intros Hrest.
        destruct (IH HT' _ _ _ Hrest) as [Hcl Hno].
        assert (Hstep : Cleaned d fs (delete (d ++ [loser keep c]) fs)).
        { intros k. destruct (decide (k = d ++ [loser keep c])) as [->|Hne].
          - right. rewrite lookup_delete_eq. split; [done|].
            exists d, c. repeat split; try done. apply HT. by left.
          - left. by rewrite lookup_delete_ne. }
        split; [by eapply Cleaned_trans|].
        intros Hr c' [->|Hc']%elem_of_cons; [|by apply Hno].
        eapply shrink_no_conflict; [by eapply Cleaned_shrink|].
        rewrite (conflictAt_split _ _ _ keep), existsFile_delete.
        apply andb_false_r.
      * unfold ret. intros [= <- <-]. split; [apply Cleaned_refl|done].
    + intros Hrest. destruct (IH HT' _ _ _ Hrest) as [Hcl Hno].
      split; [done|].
      intros Hr c' [->|Hc']%elem_of_cons; [|by apply Hno].
      eapply shrink_no_conflict; [by eapply Cleaned_shrink|done].
Qed.
End Cleaned.

(** ** The walk of [CleanupStyleConflicts] *)

(** No directory at or below [p] holds both halves of a known pair. *)
Definition noConflictUnder (fs : FS) (p : path) : Prop :=
  ∀ d c, p `prefix_of` d → c ∈ knownStyleConflicts → conflictAt fs d c = false.

Lemma conflictAt_isDirAt (fs : FS) (d : path) (c : StyleConflictPair) :
  conflictAt fs d c = true → isDirAt fs d.
Proof.
  unfold conflictAt, Join. intros [H _]%andb_true_iff.
  by eapply existsFile_parent.
Qed.

Lemma isDirAt_prefix (fs : FS) (p d : path) :
  p `prefix_of` d → isDirAt fs d → isDirAt fs p.
Proof.
  intros [suffix ->] (i & Hi & Hd). destruct suffix as [|x suffix].
  - rewrite (right_id_L [] (++)) in Hi. by exists i.
  - destruct (namei_ancestor fs p (x :: suffix) i Hi) as (j & ? & ? & ?); [done|].
    by exists j.
Qed.

Lemma prefix_cases (p d : path) :
  p `prefix_of` d → d = p ∨ ∃ name, p ++ [name] `prefix_of` d.
Proof.
  intros [[|x suffix] ->].
  - left. by rewrite (right_id_L [] (++)).
  - right. exists x, suffix. by rewrite <- (assoc_L (++)).
Qed.

Lemma noConflictUnder_unresolved (fs : FS) (p : path) :
  ¬ isDirAt fs p → noConflictUnder fs p.
Proof.
  intros Hn d c Hp _. destruct (conflictAt fs d c) eqn:E; [|done].
  destruct Hn. eapply isDirAt_prefix; [done|]. by eapply conflictAt_isDirAt.
Qed.

Lemma noConflictUnder_shrink (fs fs' : FS) (p : path) :
  shrink fs fs' → noConflictUnder fs p → noConflictUnder fs' p.
Proof. intros Hs H d c Hp Hc. eapply shrink_no_conflict; [done|]. by apply H. Qed.

Section CleanupWalk.
Variable keep : bool.

Local Abbreviation T := knownStyleConflicts.
Local Abbreviation fn := (cleanupFn (W := FS) keep).

Definition cleanup_walk_spec (f : nat) : Prop :=
  ∀ (p : path) (i : FileInfo) (fs fs' : FS),
    walk f fn p i (tt, fs) = (Returned None, (tt, fs')) →
    namei fs p = inr i →
    Cleaned T keep p fs fs' ∧ noConflictUnder fs' p.

Lemma cleanupFn_error (p : path) (info : option FileInfo) (e : error) (s : unit * FS) :
  fn p info (Some e) s = (if IsNotExist e then None else Some e, s).
Proof. unfold cleanupFn. by destruct (IsNotExist e). Qed.

Lemma walkNames_cleanup (f : nat) (p : path) (i : FileInfo) :
  cleanup_walk_spec f → IsDir i = true →
  ∀ (names : list string) (fs fs' : FS),
    walkNames (walk f fn) fn p names (tt, fs) = (Returned None, (tt, fs')) →
    namei fs p = inr i →
    Cleaned T keep p fs fs' ∧ ∀ n, n ∈ names → noConflictUnder fs' (p ++ [n]).
Proof.
  intros IHf Hd. induction names as [|n rest IH]; intros fs fs'.
  - simpl. unfold ret. intros [= <-] _. split; [apply Cleaned_refl|].
    intros n Hn. by apply elem_of_nil in Hn.
  - simpl. unfold bind at 1. simpl. unfold fs_lstat.
    destruct (namei fs (Join p n)) as [e|j] eqn:Hn.
    + unfold bind. rewrite cleanupFn_error.
      destruct (IsNotExist _) eqn:Hne; [|done].
      intros Hrest Hp. destruct (IH _ _ Hrest Hp) as [Hcl Hno].
      split; [done|]. intros n' [->|Hn']%elem_of_cons; [|by apply Hno].
      apply noConflictUnder_unresolved. intros (j & Hj & _).
      apply (shrink_namei_back fs) in Hj; [|by eapply Cleaned_shrink].
      unfold Join in Hn. congruence.
    + unfold bind.
      destruct (walk f fn (Join p n) j (tt, fs)) as [res [[] fs2]] eqn:Hw.
      destruct res as [|[err|]]; [done|done|].
      intros Hrest Hp. destruct (IHf _ _ _ _ Hw Hn) as [Hcl1 Hno1].
      assert (Hs1 : shrink fs fs2) by (by eapply Cleaned_shrink).
      destruct (IH _ _ Hrest (shrink_namei_dir _ _ _ _ Hs1 Hp Hd)) as [Hcl2 Hno2].
      split.
      * eapply Cleaned_trans; [|done].
        eapply Cleaned_prefix; [|done]. by exists [n].
      * intros n' [->|Hn']%elem_of_cons; [|by apply Hno2].
        eapply noConflictUnder_shrink; [|done]. by eapply Cleaned_shrink.
Qed.

Lemma walk_cleanup : ∀ f, cleanup_walk_spec f.
Proof.
  induction f as [|f IHf]; intros p i fs fs'; [done|].
  simpl. destruct (IsDir i) eqn:Hd; simpl.
  - unfold bind at 1. simpl. unfold fs_readDirNames. intros Hw Hp.
    rewrite Hp, Hd in Hw. simpl in Hw.
    destruct (Readable i) eqn:Hr; simpl in Hw.
    2: { unfold bind in Hw. by rewrite cleanupFn_error in Hw. }
    unfold bind in Hw. unfold cleanupFn at 1 in Hw. rewrite Hd in Hw.
    cbn [negb] in Hw. unfold sys in Hw.
    destruct (cleanupConflicts keep p T fs) as [r fs1] eqn:Hv.
    destruct r as [e|]; [done|].
    destruct (cleanupConflicts_quiet T keep p T (λ c H, H) _ _ _ Hv) as [Hcl1 Hno1].
    assert (Hs1 : shrink fs fs1) by (by eapply Cleaned_shrink).
    destruct (walkNames_cleanup f p i IHf Hd _ _ _ Hw
                (shrink_namei_dir _ _ _ _ Hs1 Hp Hd)) as [Hcl2 Hno2].
    assert (Hs2 : shrink fs1 fs') by (by eapply Cleaned_shrink).
    split; [by eapply Cleaned_trans|].
    intros d c [->|[n Hn]]%prefix_cases Hc.
    + eapply shrink_no_conflict; [done|]. by apply Hno1.
    + destruct (conflictAt fs' d c) eqn:E; [|done].
      assert (isDirAt fs' (p ++ [n])) as (j & Hj & _).
      { eapply isDirAt_prefix; [done|]. by eapply conflictAt_isDirAt. }
      apply (shrink_namei_back fs), namei_lookup in Hj;
        [|by eapply shrink_trans].
      rewrite <- E. apply (Hno2 n); [|done..].
      apply elem_of_entries. by rewrite Hj.
  - unfold bind, cleanupFn. rewrite Hd. simpl. unfold ret.
    intros [= <-] Hp. split; [apply Cleaned_refl|].
    apply noConflictUnder_unresolved. intros (j & Hj & Hdj). congruence.
Qed.

Lemma Walk_cleanup (fuel : nat) (root : path) (fs fs' : FS) :
  Walk fuel root fn (tt, fs) = (Returned None, (tt, fs')) →
  Cleaned T keep root fs fs' ∧ noConflictUnder fs' root.
Proof.
  unfold Walk. unfold bind at 1. simpl. unfold fs_lstat.
  destruct (namei fs root) as [e|i] eqn:Hn.
  - unfold bind. rewrite cleanupFn_error. unfold ret.
    intros [= _ <-]. split; [apply Cleaned_refl|].
    apply noConflictUnder_unresolved. intros (j & Hj & _). congruence.
  - intros Hw. by eapply walk_cleanup.
Qed.
End CleanupWalk.

(** Summary for [CleanupStyleConflicts] on a quiet file system. *)
Lemma Cleanup_quiet (fuel : nat) (root : path) (style : string) (fs fs' : FS) :
  CleanupStyleConflicts fuel root style fs = (Returned None, fs') →
  Cleaned knownStyleConflicts (String.eqb style "go_zero") root fs fs'
  ∧ noConflictUnder fs' root.
Proof.
  unfold CleanupStyleConflicts.
  destruct (Walk fuel root _ (tt, fs)) as [res [[] fs1]] eqn:Hw.
  intros [= -> ->]. by eapply Walk_cleanup.
Qed.

(** ** Walking a cleaned tree again

    After a successful cleanup walk, any callback that does nothing in a
    directory without conflicts walks the same tree without error and
    without effect.  Both callbacks of this file are of that kind. *)

Section WalkAgain.
Variable keep : bool.
Context {C : Type} (fn2 : WalkFunc (W := FS) (C := C)).

Local Abbreviation T := knownStyleConflicts.
Local Abbreviation fn := (cleanupFn (W := FS) keep).

Hypothesis fn2_file : ∀ p i c (fs : FS),
  IsDir i = false → fn2 p (Some i) None (c, fs) = (None, (c, fs)).
Hypothesis fn2_clean_dir : ∀ p i c (fs : FS),
  IsDir i = true → (∀ t, t ∈ T → conflictAt fs p t = false) →
  fn2 p (Some i) None (c, fs) = (None, (c, fs)).

Definition again_spec (f : nat) : Prop :=
  ∀ (p : path) (i : FileInfo) (fs fs1 : FS),
    walk f fn p i (tt, fs) = (Returned None, (tt, fs1)) →
    namei fs p = inr i →
    ∀ (fs2 : FS) (c : C), shrink fs1 fs2 → noConflictUnder fs2 p →
      walk f fn2 p i (c, fs2) = (Returned None, (c, fs2)).

Lemma noConflictUnder_prefix (fs : FS) (p p' : path) :
  p `prefix_of` p' → noConflictUnder fs p → noConflictUnder fs p'.
Proof. intros Hp H d c Hd. apply H. by etrans. Qed.

Lemma walkNames_again (f : nat) (p : path) (i : FileInfo) :
  again_spec f → IsDir i = true →
  ∀ (names : list string) (fsa fsb : FS),
    walkNames (walk f fn) fn p names (tt, fsa) = (Returned None, (tt, fsb)) →
    namei fsa p = inr i →
    ∀ (fs2 : FS) (c : C), shrink fsb fs2 → noConflictUnder fs2 p →
      ∀ n, n ∈ names → is_Some (fs2 !! (p ++ [n])) →
        ∃ j, fs_lstat (p ++ [n]) fs2 = inr j
             ∧ walk f fn2 (p ++ [n]) j (c, fs2) = (Returned None, (c, fs2)).
Proof.
  intros IHf Hd. induction names as [|n0 rest IH]; intros fsa fsb Hw Hp fs2 c Hs2 Hno n Hn.
  { by apply elem_of_nil in Hn. }
  destruct (walkNames_cleanup keep f p i (walk_cleanup keep f) Hd _ _ _ Hw Hp)
    as [Hab%Cleaned_shrink _].
  pose proof (shrink_trans _ _ _ Hab Hs2) as Ha2.
  revert Hw. simpl. unfold bind at 1. simpl. unfold fs_lstat, Join.
  pose proof (namei_snoc fsa p n0) as Hsn. rewrite Hp, Hd in Hsn. simpl in Hsn.
  destruct (namei fsa (p ++ [n0])) as [e|j] eqn:Hn0.
  - unfold bind. rewrite cleanupFn_error.
    destruct (IsNotExist _) eqn:Hne; [|done].
    intros Hrest. apply elem_of_cons in Hn as [->|Hn]; [|by eapply IH].
    intros [j Hj]. apply (shrink_lookup_Some _ _ _ _ Ha2) in Hj.
    rewrite Hj in Hsn. destruct (Searchable i); simpl in Hsn; [done|].
    by injection Hsn as ->.
  - unfold bind.
    destruct (walk f fn (p ++ [n0]) j (tt, fsa)) as [res [[] fsm]] eqn:Hwn.
    destruct res as [|[err|]]; [done|done|].
    intros Hrest.
    destruct (walk_cleanup keep f _ _ _ _ Hwn Hn0) as [Ham%Cleaned_shrink _].
    pose proof (shrink_namei_dir _ _ _ _ Ham Hp Hd) as Hpm.
    apply elem_of_cons in Hn as [->|Hn]; [|by eapply IH].
    intros [j' Hj']. exists j.
    destruct (walkNames_cleanup keep f p i (walk_cleanup keep f) Hd _ _ _ Hrest Hpm)
      as [Hmb%Cleaned_shrink _].
    split.
    + rewrite namei_snoc, (shrink_namei_dir _ _ _ _ Ha2 Hp Hd), Hd. simpl.
      destruct (Searchable i); simpl in *; [|done].
      rewrite Hj'. apply (shrink_lookup_Some _ _ _ _ Ha2) in Hj'.
      rewrite Hj' in Hsn. by injection Hsn as ->.
    + eapply IHf; [done|done| |].
      * by eapply shrink_trans.
      * eapply noConflictUnder_prefix; [|done]. by exists [n0].
Qed.

Lemma walkNames_all_ok (rec : path → FileInfo → M (C * FS) walkres)
    (p : path) (c : C) (fs2 : FS) (names : list string) :
  (∀ n, n ∈ names →
     ∃ j, fs_lstat (p ++ [n]) fs2 = inr j
          ∧ rec (p ++ [n]) j (c, fs2) = (Returned None, (c, fs2))) →
  walkNames rec fn2 p names (c, fs2) = (Returned None, (c, fs2)).
Proof.
  induction names as [|n rest IH]; intros H; [done|].
  simpl. unfold bind at 1. simpl. unfold Join.
  destruct (H n) as (j & -> & Hr); [by left|].
  unfold bind. rewrite Hr. apply IH. intros n' Hn'. apply H. by right.
Qed.

Lemma walk_again : ∀ f, again_spec f.
Proof.
  induction f as [|f IHf]; intros p i fs fs1; [done|].
  simpl. destruct (IsDir i) eqn:Hd; simpl.
  - unfold bind at 1. simpl. unfold fs_readDirNames. intros Hw Hp.
    rewrite Hp, Hd in Hw. simpl in Hw.
    destruct (Readable i) eqn:Hr; simpl in Hw.
    2: { unfold bind in Hw. by rewrite cleanupFn_error in Hw. }
    unfold bind in Hw. unfold cleanupFn at 1 in Hw. rewrite Hd in Hw.
    cbn [negb] in Hw. unfold sys in Hw.
    destruct (cleanupConflicts keep p T fs) as [r fsv] eqn:Hv.
    destruct r as [e|]; [done|].
    destruct (cleanupConflicts_quiet T keep p T (λ c H, H) _ _ _ Hv)
      as [Hsv%Cleaned_shrink _].
    pose proof (shrink_namei_dir _ _ _ _ Hsv Hp Hd) as Hpv.
    destruct (walkNames_cleanup keep f p i (walk_cleanup keep f) Hd _ _ _ Hw Hpv)
      as [Hv1%Cleaned_shrink _].
    intros fs2 c Hs2 Hno.
    assert (Hall : shrink fs fs2).
    { eapply shrink_trans; [done|]. by eapply shrink_trans. }
    unfold bind at 1. simpl. unfold fs_readDirNames.
    rewrite (shrink_namei_dir _ _ _ _ Hall Hp Hd), Hr, Hd. simpl.
    unfold bind. rewrite fn2_clean_dir; [|done|].
    2: { intros t Ht. by apply Hno. }
    apply walkNames_all_ok. intros n Hn%elem_of_entries.
    eapply (walkNames_again f p i IHf Hd); [done|done|done|done| |done].
    apply elem_of_entries. destruct Hn as [j Hj].
    by rewrite (shrink_lookup_Some _ _ _ _ Hall Hj).
  - unfold bind, cleanupFn. rewrite Hd. simpl. unfold ret.
    intros [= <-] Hp fs2 c _ _. by rewrite fn2_file.
Qed.

Lemma Walk_again (fuel : nat) (root : path) (i : FileInfo) (fs fs1 : FS) (c : C) :
  Walk fuel root fn (tt, fs) = (Returned None, (tt, fs1)) →
  namei fs root = inr i →
  Walk fuel root fn2 (c, fs1) = (Returned None, (c, fs1)).
Proof.
  intros Hw Hp.
  destruct (Walk_cleanup keep _ _ _ _ Hw) as [Hcl Hno].
  revert Hw. unfold Walk. unfold bind at 1 3. simpl. unfold fs_lstat.
  rewrite Hp. intros Hw.
  assert (namei fs1 root = inr i) as ->.
  { destruct (IsDir i) eqn:Hd.
    - eapply shrink_namei_dir; [by eapply Cleaned_shrink|done..].
    - destruct fuel as [|f]; [done|]. revert Hw. simpl. rewrite Hd. simpl.
      unfold bind, cleanupFn. rewrite Hd. simpl. unfold ret. by intros [= <-]. }
  eapply walk_again; [done|done|apply shrink_refl|done].
Qed.
End WalkAgain.

(* ===================================================================== *)
(** * What validation does on a quiet file system *)
(* ===================================================================== *)

(** Every directory at or below [p] can be listed and searched. *)
Definition walkable (fs : FS) (p : path) : Prop :=
  ∀ d j, p `prefix_of` d → namei fs d = inr j → IsDir j = true →
         Readable j = true ∧ Searchable j = true.

Definition lineOf (root : path) (dc : path * StyleConflictPair) : string :=
  conflictLine root dc.1 dc.2.

(** [L] lists, without repetition, the conflicts of [fs] at or below the
    directories [ds]. *)
Definition conflictsIn (fs : FS) (inScope : path → Prop)
    (L : list (path * StyleConflictPair)) : Prop :=
  NoDup L ∧
  ∀ d c, (d, c) ∈ L → inScope d ∧ c ∈ knownStyleConflicts ∧ conflictAt fs d c = true.

Definition allConflictsIn (fs : FS) (inScope : path → Prop)
    (L : list (path * StyleConflictPair)) : Prop :=
  ∀ d c, inScope d → c ∈ knownStyleConflicts → conflictAt fs d c = true → (d, c) ∈ L.

Lemma validateConflicts_quiet (root d : path) :
  ∀ (table : list StyleConflictPair) (acc : list string) (fs : FS),
    validateConflicts root d table (acc, fs) =
      (tt, (acc ++ (conflictLine root d <$> filter (λ c, conflictAt fs d c = true) table),
            fs)).
Proof.
  induction table as [|c table IH]; intros acc fs.
  - simpl. by rewrite (right_id_L [] (++)).
  - simpl. unfold bind at 1. unfold sys at 1. rewrite fileExists_quiet.
    unfold bind at 1. rewrite filter_cons.
    destruct (existsFile fs (Join d (GoZeroStyle c))) eqn:Ha.
    + unfold sys. rewrite fileExists_quiet.
      destruct (existsFile fs (Join d (GoZeroFlat c))) eqn:Hb.
      * rewrite decide_True by (unfold conflictAt; by rewrite Ha, Hb).
        unfold bind. simpl. rewrite IH. by rewrite <- (assoc_L (++)).
      * rewrite decide_False by (unfold conflictAt; by rewrite Ha, Hb).
        unfold bind. simpl. by rewrite IH.
    + rewrite decide_False by (unfold conflictAt; by rewrite Ha).
      unfold bind. simpl. by rewrite IH.
Qed.

Lemma NoDup_knownStyleConflicts : NoDup knownStyleConflicts.
Proof. apply NoDup_singleton. Qed.

Lemma prefix_snoc_inj (p d : path) (n n' : string) :
  p ++ [n] `prefix_of` d → p ++ [n'] `prefix_of` d → n = n'.
Proof.
  intros [k1 ->] [k2 H]. rewrite <- !(assoc_L (++)) in H.
  apply (inj (app p)) in H. by injection H.
Qed.

Lemma prefix_snoc_ne (p : path) (n : string) : ¬ p ++ [n] `prefix_of` p.
Proof. apply prefix_snoc_not. Qed.

Section ValidateWalk.
Variable root : path.

Local Abbreviation T := knownStyleConflicts.
Local Abbreviation vfn := (validateFn (W := FS) root).

Definition traversalError (e : error) : Prop :=
  ∃ op q errno, e = PathError op q errno.

Definition validate_outcome (fs : FS) (inScope : path → Prop) (p : path)
    (res : walkres) (L : list (path * StyleConflictPair)) : Prop :=
  match res with
  | OutOfFuel => True
  | Returned None => allConflictsIn fs inScope L
  | Returned (Some e) => traversalError e ∧ ¬ walkable fs p
  end.

Definition validate_walk_spec (f : nat) : Prop :=
  ∀ (p : path) (i : FileInfo) (acc : list string) (fs : FS)
    (res : walkres) (acc' : list string) (fs' : FS),
    walk f vfn p i (acc, fs) = (res, (acc', fs')) →
    namei fs p = inr i →
    fs' = fs ∧
    ∃ L, acc' = acc ++ (lineOf root <$> L)
         ∧ conflictsIn fs (λ d, p `prefix_of` d) L
         ∧ validate_outcome fs (λ d, p `prefix_of` d) p res L.

Lemma validateFn_error (p : path) (info : option FileInfo) (e : error)
    (s : list string * FS) :
  vfn p info (Some e) s = (Some e, s).
Proof. done. Qed.

Lemma validateFn_file (p : path) (i : FileInfo) (s : list string * FS) :
  IsDir i = false → vfn p (Some i) None s = (None, s).
Proof. intros Hd. unfold validateFn. by rewrite Hd. Qed.

Lemma validateFn_dir (p : path) (i : FileInfo) (acc : list string) (fs : FS) :
  IsDir i = true →
  vfn p (Some i) None (acc, fs) =
    (None, (acc ++ (lineOf root <$>
                      ((λ c, (p, c)) <$> filter (λ c, conflictAt fs p c = true) T)),
            fs)).
Proof.
  intros Hd. unfold validateFn. rewrite Hd. cbn [negb]. unfold bind.
  rewrite validateConflicts_quiet. unfold ret. by rewrite <- list_fmap_compose.
Qed.

Definition belowNames (p : path) (names : list string) (d : path) : Prop :=
  ∃ n, n ∈ names ∧ p ++ [n] `prefix_of` d.

Lemma walkNames_validate (f : nat) (p : path) (i : FileInfo) :
  validate_walk_spec f → IsDir i = true →
  ∀ (names : list string) (acc : list string) (fs : FS)
    (res : walkres) (acc' : list string) (fs' : FS),
    walkNames (walk f vfn) vfn p names (acc, fs) = (res, (acc', fs')) →
    namei fs p = inr i → NoDup names →
    (∀ n, n ∈ names → is_Some (fs !! (p ++ [n]))) →
    fs' = fs ∧
    ∃ L, acc' = acc ++ (lineOf root <$> L)
         ∧ conflictsIn fs (belowNames p names) L
         ∧ validate_outcome fs (belowNames p names) p res L.
Proof.
  intros IHf Hd.
  induction names as [|n rest IH]; intros acc fs res acc' fs' Hw Hp Hnd Hin.
  - revert Hw. simpl. unfold ret. intros [= <- <- <-]. split; [done|].
    exists []. simpl. rewrite (right_id_L [] (++)). split; [done|]. split.
    + split; [constructor|]. intros d c Hx. by apply elem_of_nil in Hx.
    + intros d c (n & Hn & _). by apply elem_of_nil in Hn.
  - apply NoDup_cons in Hnd as [Hn_rest Hnd].
    revert Hw. simpl. unfold bind at 1. simpl. unfold fs_lstat, Join.
    pose proof (namei_snoc fs p n) as Hsn. rewrite Hp, Hd in Hsn. simpl in Hsn.
    destruct (Hin n) as [j0 Hj0]; [by left|]. rewrite Hj0 in Hsn.
    destruct (namei fs (p ++ [n])) as [e|j] eqn:Hn.
    + unfold bind. rewrite validateFn_error. unfold ret. intros [= <- <- <-].
      split; [done|]. exists []. simpl. rewrite (right_id_L [] (++)).
      split; [done|]. split.
      * split; [constructor|]. intros d c Hx. by apply elem_of_nil in Hx.
      * split; [by eexists _, _, _|]. intros Hwk.
        destruct (Hwk p i) as [_ Hs]; [done..|].
        by rewrite Hs in Hsn.
    + unfold bind.
      destruct (walk f vfn (p ++ [n]) j (acc, fs)) as [r1 [acc1 fs1]] eqn:Hw1.
      destruct (IHf _ _ _ _ _ _ _ Hw1 Hn) as (-> & L1 & -> & [Hnd1 Hsd1] & Hout1).
      assert (Hscope1 : ∀ d c, (d, c) ∈ L1 → belowNames p (n :: rest) d).
      { intros d c Hx. exists n. split; [by left|]. by apply (Hsd1 d c). }
      destruct r1 as [|[e|]].
      * unfold ret. intros [= <- <- <-]. split; [done|]. exists L1.
        split; [done|]. split; [|done].
        split; [done|]. intros d c Hx. split; [by eapply Hscope1|].
        by apply (Hsd1 d c).
      * unfold ret. intros [= <- <- <-]. split; [done|]. exists L1.
        split; [done|]. split.
        { split; [done|]. intros d c Hx. split; [by eapply Hscope1|].
          by apply (Hsd1 d c). }
        destruct Hout1 as [Hte Hnw]. split; [done|]. intros Hwk. apply Hnw.
        intros d j' Hpre. apply Hwk. etrans; [|done]. by exists [n].
      * intros Hrest.
        destruct (IH _ _ _ _ _ Hrest Hp Hnd) as (-> & L2 & -> & [Hnd2 Hsd2] & Hout2).
        { intros n' Hn'. apply Hin. by right. }
        split; [done|]. exists (L1 ++ L2).
        split; [by rewrite fmap_app, (assoc_L (++))|]. split.
        { split.
          - apply NoDup_app. split; [done|]. split; [|done].
            intros [d c] Hx1 Hx2.
            destruct (Hsd2 d c Hx2) as [(n' & Hn' & Hpre') _].
            destruct (Hsd1 d c Hx1) as [Hpre _].
            by rewrite (prefix_snoc_inj _ _ _ _ Hpre Hpre') in Hn_rest.
          - intros d c [Hx|Hx]%elem_of_app.
            + split; [by eapply Hscope1|]. by apply (Hsd1 d c).
            + destruct (Hsd2 d c Hx) as [(n' & Hn' & Hpre') ?].
              split; [|done]. exists n'. split; [by right|done]. }
        destruct res as [|[e|]]; simpl in *.
        { done. }
        { done. }
        { intros d c (n' & [->|Hn']%elem_of_cons & Hpre) Hc Hcf.
          - apply elem_of_app. left. by apply Hout1.
          - apply elem_of_app. right. apply Hout2; [|done..]. by exists n'. }
Qed.

Lemma walk_validate : ∀ f, validate_walk_spec f.
Proof.
  induction f as [|f IHf]; intros p i acc fs res acc' fs'.
  { simpl. unfold ret. intros [= <- <- <-] _. split; [done|]. exists [].
    simpl. rewrite (right_id_L [] (++)). split; [done|]. split; [|done].
    split; [constructor|]. intros d c Hx. by apply elem_of_nil in Hx. }
  simpl. destruct (IsDir i) eqn:Hd; simpl.
  - unfold bind at 1. simpl. unfold fs_readDirNames. intros Hw Hp.
    rewrite Hp, Hd in Hw. simpl in Hw.
    destruct (Readable i) eqn:Hr; simpl in Hw.
    2: { revert Hw. unfold bind. rewrite validateFn_error. unfold ret.
         intros [= <- <- <-]. split; [done|]. exists []. simpl.
         rewrite (right_id_L [] (++)). split; [done|]. split.
         - split; [constructor|]. intros d c Hx. by apply elem_of_nil in Hx.
         - split; [by eexists _, _, _|]. intros Hwk.
           destruct (Hwk p i) as [Hr' _]; [done..|]. congruence. }
    revert Hw. unfold bind. rewrite validateFn_dir by done.
    set (Lp := (λ c, (p, c)) <$> filter (λ c, conflictAt fs p c = true) T).
    intros Hw.
    destruct (walkNames_validate f p i IHf Hd _ _ _ _ _ _ Hw Hp (NoDup_entries fs p))
      as (-> & L2 & -> & [Hnd2 Hsd2] & Hout2).
    { intros n Hn. by apply elem_of_entries. }
    split; [done|]. exists (Lp ++ L2).
    split; [by rewrite fmap_app, (assoc_L (++))|].
    assert (HLp : ∀ d c, (d, c) ∈ Lp ↔ d = p ∧ c ∈ T ∧ conflictAt fs p c = true).
    { intros d c. unfold Lp. rewrite list_elem_of_fmap. split.
      - intros (c' & [= -> ->] & [??]%list_elem_of_filter). done.
      - intros (-> & ? & ?). exists c. split; [done|]. by apply list_elem_of_filter. }
    split.
    + split.
      * apply NoDup_app. split.
        { apply NoDup_fmap_2; [by intros ?? [=]|].
          apply NoDup_filter, NoDup_knownStyleConflicts. }
        split; [|done]. intros [d c] [-> _]%HLp Hx2.
        destruct (Hsd2 _ _ Hx2) as [(n & _ & Hpre) _].
        by apply prefix_snoc_ne in Hpre.
      * intros d c [Hx|Hx]%elem_of_app.
        { apply HLp in Hx as (-> & ? & ?). done. }
        destruct (Hsd2 _ _ Hx) as [(n & _ & Hpre) ?]. split; [|done].
        etrans; [|done]. by exists [n].
    + destruct res as [|[e|]]; simpl in *; [done|done|].
      intros d c [->|[n Hn]]%prefix_cases Hc Hcf.
      * apply elem_of_app. left. by apply HLp.
      * apply elem_of_app. right. apply Hout2; [|done..].
        exists n. split; [|done]. apply elem_of_entries.
        assert (isDirAt fs (p ++ [n])) as (j & Hj & _).
        { eapply isDirAt_prefix; [done|]. by eapply conflictAt_isDirAt. }
        apply namei_lookup in Hj. by rewrite Hj.
  - unfold bind. rewrite validateFn_file by done. unfold ret.
    intros [= <- <- <-] Hp. split; [done|]. exists []. simpl.
    rewrite (right_id_L [] (++)). split; [done|]. split.
    + split; [constructor|]. intros d c Hx. by apply elem_of_nil in Hx.
    + intros d c Hpre Hc Hcf.
      rewrite (noConflictUnder_unresolved fs p) in Hcf; [done| |done..].
      intros (j & Hj & Hdj). congruence.
Qed.
End ValidateWalk.

(** Summary for [ValidateNoStyleConflicts] on a quiet file system. *)
Lemma Validate_quiet (fuel : nat) (root : path) (fs fs' : FS) (res : walkres) :
  ValidateNoStyleConflicts fuel root fs = (res, fs') →
  fs' = fs ∧
  match namei fs root with
  | inl errno => res = Returned (Some (PathError "lstat" root errno))
  | inr _ =>
      ∃ L, conflictsIn fs (λ d, root `prefix_of` d) L ∧
        match res with
        | OutOfFuel => True
        | Returned None => L = [] ∧ allConflictsIn fs (λ d, root `prefix_of` d) L
        | Returned (Some e) =>
            (traversalError e ∧ ¬ walkable fs root)
            ∨ (e = conflictsError (lineOf root <$> L) ∧ L ≠ []
               ∧ allConflictsIn fs (λ d, root `prefix_of` d) L)
        end
  end.
Proof.
  unfold ValidateNoStyleConflicts, Walk. unfold bind at 1. simpl. unfold fs_lstat.
  destruct (namei fs root) as [e|i] eqn:Hn.
  - unfold bind. rewrite validateFn_error. unfold ret. by intros [= <- <-].
  - destruct (walk fuel _ root i ([], fs)) as [r [acc' fs1]] eqn:Hw.
    destruct (walk_validate root fuel _ _ _ _ _ _ _ Hw Hn)
      as (-> & L & -> & Hin & Hout).
    simpl. destruct r as [|[e|]].
    + intros [= <- <-]. split; [done|]. by exists L.
    + intros [= <- <-]. split; [done|]. exists L. split; [done|]. by left.
    + case_decide as Hlen.
      * intros [= <- <-]. split; [done|]. exists L. split; [done|]. right.
        split; [done|]. split; [|done]. intros ->. simpl in Hlen. lia.
      * intros [= <- <-]. split; [done|]. exists L. split; [done|].
        split; [|done]. rewrite length_fmap in Hlen. destruct L; [done|].
        simpl in Hlen. lia.
Qed.

(* ===================================================================== *)
(** * Fuel: with enough of it a walk returns *)
(* ===================================================================== *)

(** Stated for any implementation of the system calls that keeps an
    invariant [Inv] under which [Lstat] only finds paths of at most [D]
    components. *)
Section Termination.
Context {W : Type} `{OSW : OS W}.
Variable D : nat.
Variable Inv : W → Prop.

Hypothesis Lstat_inv : ∀ p w r w',
  Lstat p w = (r, w') → Inv w → Inv w' ∧ (∀ i, r = inr i → length p ≤ D).
Hypothesis Stat_inv : ∀ p w r w', Stat p w = (r, w') → Inv w → Inv w'.
Hypothesis readDirNames_inv : ∀ p w r w',
  readDirNames p w = (r, w') → Inv w → Inv w'.
Hypothesis Remove_inv : ∀ p w r w', Remove p w = (r, w') → Inv w → Inv w'.

Lemma fileExists_inv (p : path) (w : W) (b : bool) (w' : W) :
  fileExists p w = (b, w') → Inv w → Inv w'.
Proof.
  unfold fileExists, bind. destruct (Stat p w) as [r w1] eqn:Hs.
  destruct r; unfold ret; intros [= _ <-]; by eapply Stat_inv.
Qed.

Lemma cleanupConflicts_inv (keep : bool) (d : path) :
  ∀ conflicts (w : W) r w',
    cleanupConflicts keep d conflicts w = (r, w') → Inv w → Inv w'.
Proof.
  induction conflicts as [|c rest IH]; intros w r w'.
  { simpl. unfold ret. by intros [= _ <-]. }
  cbn [cleanupConflicts]. unfold bind at 1.
  destruct (fileExists (Join d (GoZeroStyle c)) w) as [b1 w1] eqn:H1.
  unfold bind at 1.
  destruct (fileExists (Join d (GoZeroFlat c)) w1) as [b2 w2] eqn:H2.
  intros Hrest Hw.
  apply (fileExists_inv _ _ _ _ H1) in Hw. apply (fileExists_inv _ _ _ _ H2) in Hw.
  revert Hrest. destruct (b1 && b2); [|intros Hrest; by eapply IH].
  unfold bind at 1.
  destruct (fileExists _ w2) as [b3 w3] eqn:H3.
  apply (fileExists_inv _ _ _ _ H3) in Hw.
  destruct b3; [|intros Hrest; by eapply IH].
  unfold bind at 1.
  destruct (Remove _ w3) as [err w4] eqn:H4.
  apply (Remove_inv _ _ _ _ H4) in Hw.
  destruct err; [unfold ret; by intros [= _ <-]|intros Hrest; by eapply IH].
Qed.

Lemma cleanupFn_inv (keep : bool) (p : path) (info : option FileInfo)
    (err : option error) (c : unit) (w : W) (r : option error) (c' : unit) (w' : W) :
  cleanupFn keep p info err (c, w) = (r, (c', w')) → Inv w → Inv w'.
Proof.
  unfold cleanupFn. destruct err as [e|].
  { destruct (IsNotExist e); unfold ret; by intros [= _ _ <-]. }
  destruct info as [i|]; [|unfold ret; by intros [= _ _ <-]].
  destruct (negb (IsDir i)); [unfold ret; by intros [= _ _ <-]|].
  unfold sys. destruct (cleanupConflicts keep p knownStyleConflicts w) as [r1 w1] eqn:Hv.
  intros [= _ _ <-]. by eapply cleanupConflicts_inv.
Qed.

Lemma validateConflicts_inv (root d : path) :
  ∀ table (acc : list string) (w : W) acc' w',
    validateConflicts root d table (acc, w) = (tt, (acc', w')) → Inv w → Inv w'.
Proof.
  induction table as [|c rest IH]; intros acc w acc' w'.
  { simpl. unfold ret. by intros [= _ <-]. }
  cbn [validateConflicts]. unfold bind at 1. unfold sys at 1.
  destruct (fileExists (Join d (GoZeroStyle c)) w) as [a w1] eqn:H1.
  intros Hrest Hw. apply (fileExists_inv _ _ _ _ H1) in Hw. revert Hrest.
  unfold bind at 1. destruct a.
  - unfold sys at 1.
    destruct (fileExists (Join d (GoZeroFlat c)) w1) as [b w2] eqn:H2.
    apply (fileExists_inv _ _ _ _ H2) in Hw.
    unfold bind at 1. destruct b; simpl; intros Hrest; by eapply IH.
  - unfold ret at 1. unfold bind at 1. simpl. intros Hrest. by eapply IH.
Qed.

Lemma validateFn_inv (root p : path) (info : option FileInfo)
    (err : option error) (c : list string) (w : W) (r : option error)
    (c' : list string) (w' : W) :
  validateFn root p info err (c, w) = (r, (c', w')) → Inv w → Inv w'.
Proof.
  unfold validateFn. destruct err as [e|]; [unfold ret; by intros [= _ _ <-]|].
  destruct info as [i|]; [|unfold ret; by intros [= _ _ <-]].
  destruct (negb (IsDir i)); [unfold ret; by intros [= _ _ <-]|].
  unfold bind.
  destruct (validateConflicts root p knownStyleConflicts (c, w)) as [[] [acc1 w1]] eqn:Hv.
  unfold ret. intros [= _ _ <-]. by eapply validateConflicts_inv.
Qed.

Context {C : Type} (fn : WalkFunc (W := W) (C := C)).

Hypothesis fn_inv : ∀ p info err c w r c' w',
  fn p info err (c, w) = (r, (c', w')) → Inv w → Inv w'.

Definition fuel_spec (f : nat) : Prop :=
  ∀ (p : path) (i : FileInfo) (c : C) (w : W) (res : walkres) (c' : C) (w' : W),
    walk f fn p i (c, w) = (res, (c', w')) →
    Inv w → length p ≤ D → D < f + length p →
    Inv w' ∧ res ≠ OutOfFuel.

Lemma walkNames_fuel (f : nat) (p : path) :
  fuel_spec f → D < S f + length p →
  ∀ (names : list string) (c : C) (w : W) (res : walkres) (c' : C) (w' : W),
    walkNames (walk f fn) fn p names (c, w) = (res, (c', w')) →
    Inv w →
    Inv w' ∧ res ≠ OutOfFuel.
Proof.
  intros IHf HD. induction names as [|n rest IH]; intros c w res c' w'.
  - simpl. unfold ret. by intros [= <- <- <-].
  - cbn [walkNames]. unfold bind at 1. unfold sys at 1.
    destruct (Lstat (Join p n) w) as [r w1] eqn:Hl.
    intros Hrest Hw. destruct (Lstat_inv _ _ _ _ Hl Hw) as [Hw1 Hlen].
    revert Hrest. destruct r as [e|j].
    + unfold bind.
      destruct (fn (Join p n) None (Some e) (c, w1)) as [r [c2 w2]] eqn:Hfn.
      apply fn_inv in Hfn; [|done]. destruct r as [e1|].
      * unfold ret. by intros [= <- <- <-].
      * intros Hrest. by eapply IH.
    + unfold bind.
      destruct (walk f fn (Join p n) j (c, w1)) as [r [c2 w2]] eqn:Hw'.
      pose proof (Hlen j eq_refl) as Hlen'.
      destruct (IHf _ _ _ _ _ _ _ Hw' Hw1 Hlen') as [Hw2 Hr].
      { unfold Join in *. rewrite length_app in *. simpl in *. lia. }
      destruct r as [|[e1|]]; [done| |].
      * unfold ret. by intros [= <- <- <-].
      * intros Hrest. by eapply IH.
Qed.

Lemma walk_fuel : ∀ f, fuel_spec f.
Proof.
  induction f as [|f IHf]; intros p i c w res c' w' Hw Hinv Hp HD; [lia|].
  revert Hw. cbn [walk]. destruct (negb (IsDir i)).
  - unfold bind.
    destruct (fn p (Some i) None (c, w)) as [r [c1 w1]] eqn:Hfn.
    apply fn_inv in Hfn; [|done]. unfold ret. by intros [= <- <- <-].
  - unfold bind at 1. unfold sys at 1.
    destruct (readDirNames p w) as [r w1] eqn:Hr.
    apply readDirNames_inv in Hr; [|done]. destruct r as [e|names].
    + unfold bind.
      destruct (fn p (Some i) (Some e) (c, w1)) as [r [c2 w2]] eqn:Hfn.
      apply fn_inv in Hfn; [|done]. unfold ret. by intros [= <- <- <-].
    + unfold bind.
      destruct (fn p (Some i) None (c, w1)) as [r [c2 w2]] eqn:Hfn.
      apply fn_inv in Hfn; [|done]. destruct r as [e1|].
      * unfold ret. by intros [= <- <- <-].
      * intros Hw. by eapply (walkNames_fuel f p IHf HD).
Qed.

Lemma Walk_fuel (fuel : nat) (root : path) (c : C) (w : W)
    (res : walkres) (c' : C) (w' : W) :
  Walk fuel root fn (c, w) = (res, (c', w')) →
  Inv w → D < fuel →
  Inv w' ∧ res ≠ OutOfFuel.
Proof.
  unfold Walk. unfold bind at 1. unfold sys at 1.
  destruct (Lstat root w) as [r w1] eqn:Hl.
  intros Hw Hinv HD. destruct (Lstat_inv _ _ _ _ Hl Hinv) as [Hw1 Hlen].
  revert Hw. destruct r as [e|i].
  - unfold bind.
    destruct (fn root None (Some e) (c, w1)) as [r [c2 w2]] eqn:Hfn.
    apply fn_inv in Hfn; [|done]. unfold ret. by intros [= <- <- <-].
  - intros Hw. eapply walk_fuel; [done|done|by eapply Hlen|lia].
Qed.
End Termination.

Section Returns.
Context {W : Type} `{OSW : OS W}.
Variable D : nat.
Variable Inv : W → Prop.

Hypothesis Lstat_inv : ∀ p w r w',
  Lstat p w = (r, w') → Inv w → Inv w' ∧ (∀ i, r = inr i → length p ≤ D).
Hypothesis Stat_inv : ∀ p w r w', Stat p w = (r, w') → Inv w → Inv w'.
Hypothesis readDirNames_inv : ∀ p w r w',
  readDirNames p w = (r, w') → Inv w → Inv w'.
Hypothesis Remove_inv : ∀ p w r w', Remove p w = (r, w') → Inv w → Inv w'.

Lemma Cleanup_returns_if (fuel : nat) (root : path) (style : string) (w : W) :
  Inv w → D < fuel →
  ∃ err w', CleanupStyleConflicts fuel root style w = (Returned err, w').
Proof.
  intros Hinv HD. unfold CleanupStyleConflicts.
  destruct (Walk fuel root _ (tt, w)) as [res [[] w']] eqn:Hw.
  eapply (Walk_fuel D Inv) in Hw as [_ Hr]; try done.
  - destruct res as [|err]; [done|]. by exists err, w'.
  - intros *. by apply cleanupFn_inv.
Qed.

Lemma Validate_returns_if (fuel : nat) (root : path) (w : W) :
  Inv w → D < fuel →
  ∃ err w', ValidateNoStyleConflicts fuel root w = (Returned err, w').
Proof.
  intros Hinv HD. unfold ValidateNoStyleConflicts.
  destruct (Walk fuel root _ ([], w)) as [res [acc w']] eqn:Hw.
  eapply (Walk_fuel D Inv) in Hw as [_ Hr]; try done.
  - destruct res as [|[e|]]; [done|by eexists _, _|].
    case_decide; by eexists _, _.
  - intros *. by apply validateFn_inv.
Qed.
End Returns.

(** ** The quiet file system *)

(** Length of the longest path of the file system. *)
Definition depth (fs : FS) : nat := max_list (length <$> elements (dom fs)).

Lemma depth_bound (fs : FS) (k : path) : is_Some (fs !! k) → length k ≤ depth fs.
Proof.
  intros Hk. apply max_list_elem_of_le, list_elem_of_fmap.
  exists k. split; [done|]. by apply elem_of_elements, elem_of_dom.
Qed.

Definition bounded (D : nat) (fs : FS) : Prop :=
  ∀ k, is_Some (fs !! k) → length k ≤ D.

Lemma bounded_delete (D : nat) (fs : FS) (p : path) :
  bounded D fs → bounded D (delete p fs).
Proof.
  intros Hb k [j Hj]. apply Hb. apply lookup_delete_Some in Hj as [_ Hj].
  by rewrite Hj.
Qed.

Lemma fs_lstat_bounded (D : nat) (p : path) (fs : FS) (i : FileInfo) :
  bounded D fs → fs_lstat p fs = inr i → length p ≤ D.
Proof.
  intros Hb. unfold fs_lstat. destruct (namei fs p) as [|j] eqn:Hn; [done|].
  intros _. apply Hb. apply namei_lookup in Hn. by rewrite Hn.
Qed.

Lemma fs_remove_bounded (D : nat) (p : path) (fs : FS) r fs' :
  fs_remove p fs = (r, fs') → bounded D fs → bounded D fs'.
Proof.
  unfold fs_remove. destruct (namei fs p); [by intros [= _ <-]|].
  destruct (bool_decide (p = [])); [by intros [= _ <-]|].
  destruct (fs !! removelast p) as [parent|]; [|by intros [= _ <-]].
  destruct (negb (Writable parent)); [by intros [= _ <-]|].
  destruct (_ && _); intros [= _ <-]; [done|]. apply bounded_delete.
Qed.

Lemma quiet_Lstat_inv (D : nat) (p : path) (fs : FS) r fs' :
  Lstat p fs = (r, fs') → bounded D fs →
  bounded D fs' ∧ (∀ i, r = inr i → length p ≤ D).
Proof.
  intros [= <- <-] Hb. split; [done|]. intros i Hi. by eapply fs_lstat_bounded.
Qed.

Lemma quiet_Stat_inv (D : nat) (p : path) (fs : FS) r fs' :
  Stat p fs = (r, fs') → bounded D fs → bounded D fs'.
Proof. by intros [= _ <-]. Qed.

Lemma quiet_readDirNames_inv (D : nat) (p : path) (fs : FS) r fs' :
  readDirNames p fs = (r, fs') → bounded D fs → bounded D fs'.
Proof. by intros [= _ <-]. Qed.

Lemma quiet_Remove_inv (D : nat) (p : path) (fs : FS) r fs' :
  Remove p fs = (r, fs') → bounded D fs → bounded D fs'.
Proof. simpl. apply fs_remove_bounded. Qed.

(** With more fuel than the file system is deep, both walks return. *)
Lemma Cleanup_returns (fuel : nat) (root : path) (style : string) (fs : FS) :
  depth fs < fuel →
  ∃ err fs', CleanupStyleConflicts fuel root style fs = (Returned err, fs').
Proof.
  intros HD.
  apply (Cleanup_returns_if (depth fs) (bounded (depth fs))
           (quiet_Lstat_inv _) (quiet_Stat_inv _) (quiet_readDirNames_inv _)
           (quiet_Remove_inv _)); [|done].
  intros k. apply depth_bound.
Qed.

Lemma Validate_returns (fuel : nat) (root : path) (fs : FS) :
  depth fs < fuel →
  ∃ err, ValidateNoStyleConflicts fuel root fs = (Returned err, fs).
Proof.
  intros HD.
  destruct (Validate_returns_if (depth fs) (bounded (depth fs))
              (quiet_Lstat_inv _) (quiet_Stat_inv _) (quiet_readDirNames_inv _)
              fuel root fs) as (err & fs' & Hv); [|done|].
  - intros k. apply depth_bound.
  - destruct (Validate_quiet _ _ _ _ _ Hv) as [-> _]. by exists err.
Qed.

(** ** The racy file system *)

Definition putLength (op : ExtOp) : nat :=
  match op with
  | ExtPut p _ => length p
  | ExtDel _ => 0
  end.

(** Longest path that exists or that the external process will create. *)
Definition worldDepth (w : World) : nat :=
  max (depth (files w)) (max_list (putLength <$> mjoin (pending w))).

Definition worldBounded (D : nat) (w : World) : Prop :=
  bounded D (files w)
  ∧ ∀ batch op, batch ∈ pending w → op ∈ batch → putLength op ≤ D.

Lemma worldBounded_worldDepth (w : World) : worldBounded (worldDepth w) w.
Proof.
  split.
  - intros k Hk. apply depth_bound in Hk. unfold worldDepth. lia.
  - intros batch op Hb Hop. unfold worldDepth.
    assert (putLength op ≤ max_list (putLength <$> mjoin (pending w))); [|lia].
    apply max_list_elem_of_le, list_elem_of_fmap. exists op. split; [done|].
    apply list_elem_of_join. by exists batch.
Qed.

Lemma applyExt_bounded (D : nat) (op : ExtOp) (fs : FS) :
  putLength op ≤ D → bounded D fs → bounded D (applyExt op fs).
Proof.
  intros Hop Hb. destruct op as [p info|p]; simpl in *.
  - intros k [j Hj]. apply lookup_insert_Some in Hj as [[<- _]|[_ Hj]]; [done|].
    apply Hb. by rewrite Hj.
  - by apply bounded_delete.
Qed.

Lemma intrude_bounded (D : nat) (w : World) (fs : FS) (later : list (list ExtOp)) :
  intrude w = (fs, later) → worldBounded D w →
  bounded D fs ∧ ∀ batch op, batch ∈ later → op ∈ batch → putLength op ≤ D.
Proof.
  unfold intrude. intros Hi [Hb Hp]. destruct (pending w) as [|batch rest] eqn:Hpe.
  - injection Hi as <- <-. split; [done|]. intros b op Hb'. by apply elem_of_nil in Hb'.
  - injection Hi as <- <-. split.
    + assert (Hops : ∀ op, op ∈ batch → putLength op ≤ D).
      { intros op. apply Hp. by left. }
      clear Hp Hpe. revert Hb. generalize (files w).
      induction batch as [|op batch IH]; intros fs0 Hb; [done|].
      simpl. apply IH.
      * intros op' Hop'. apply Hops. by right.
      * apply applyExt_bounded; [|done]. apply Hops. by left.
    + intros b op Hb'. apply Hp. by right.
Qed.

Lemma racy_Lstat_inv (D : nat) (p : path) (w : World) r w' :
  Lstat p w = (r, w') → worldBounded D w →
  worldBounded D w' ∧ (∀ i, r = inr i → length p ≤ D).
Proof.
  simpl. unfold racy_lstat.
  destruct (intrude w) as [fs later] eqn:Hi. intros [= <- <-] Hb.
  destruct (intrude_bounded _ _ _ _ Hi Hb) as [Hfs Hl].
  split; [by split|]. intros i Hi'. by eapply fs_lstat_bounded.
Qed.

Lemma racy_Stat_inv (D : nat) (p : path) (w : World) r w' :
  Stat p w = (r, w') → worldBounded D w → worldBounded D w'.
Proof.
  simpl. unfold racy_stat.
  destruct (intrude w) as [fs later] eqn:Hi. intros [= _ <-] Hb.
  destruct (intrude_bounded _ _ _ _ Hi Hb) as [Hfs Hl]. by split.
Qed.

Lemma racy_readDirNames_inv (D : nat) (p : path) (w : World) r w' :
  readDirNames p w = (r, w') → worldBounded D w → worldBounded D w'.
Proof.
  simpl. unfold racy_readDirNames.
  destruct (intrude w) as [fs later] eqn:Hi. intros [= _ <-] Hb.
  destruct (intrude_bounded _ _ _ _ Hi Hb) as [Hfs Hl]. by split.
Qed.

Lemma racy_Remove_inv (D : nat) (p : path) (w : World) r w' :
  Remove p w = (r, w') → worldBounded D w → worldBounded D w'.
Proof.
  simpl. unfold racy_remove.
  destruct (intrude w) as [fs later] eqn:Hi.
  destruct (fs_remove p fs) as [r0 fs'] eqn:Hr. intros [= _ <-] Hb.
  destruct (intrude_bounded _ _ _ _ Hi Hb) as [Hfs Hl].
  split; [|done]. simpl. by eapply fs_remove_bounded.
Qed.

(** With more fuel than any path that exists or will be created is long,
    both walks return, whatever the external process does. *)
Lemma Cleanup_returns_racy (fuel : nat) (root : path) (style : string) (w : World) :
  worldDepth w < fuel →
  ∃ err w', CleanupStyleConflicts fuel root style w = (Returned err, w').
Proof.
  intros HD.
  apply (Cleanup_returns_if (worldDepth w) (worldBounded (worldDepth w))
           (racy_Lstat_inv _) (racy_Stat_inv _) (racy_readDirNames_inv _)
           (racy_Remove_inv _)); [|done].
  apply worldBounded_worldDepth.
Qed.

Lemma Validate_returns_racy (fuel : nat) (root : path) (w : World) :
  worldDepth w < fuel →
  ∃ err w', ValidateNoStyleConflicts fuel root w = (Returned err, w').
Proof.
  intros HD.
  apply (Validate_returns_if (worldDepth w) (worldBounded (worldDepth w))
           (racy_Lstat_inv _) (racy_Stat_inv _) (racy_readDirNames_inv _));
    [|done].
  apply worldBounded_worldDepth.
Qed.

(* ===================================================================== *)
(** * Consequences for a directory holding a conflict *)
(* ===================================================================== *)

Lemma kept_not_loser (keep : bool) (c c' : StyleConflictPair) :
  c ∈ knownStyleConflicts → c' ∈ knownStyleConflicts →
  kept keep c ≠ loser keep c'.
Proof.
  unfold knownStyleConflicts.
  intros ->%list_elem_of_singleton ->%list_elem_of_singleton.
  by destruct keep.
Qed.

Section CleanedFacts.
Variable keep : bool.
Variables (root : path) (fs fs' : FS).

Local Abbreviation T := knownStyleConflicts.

Hypothesis Hcl : Cleaned T keep root fs fs'.

Lemma Cleaned_kept (d : path) (c : StyleConflictPair) :
  c ∈ T → fs' !! (d ++ [kept keep c]) = fs !! (d ++ [kept keep c]).
Proof.
  intros Hc. destruct (Hcl (d ++ [kept keep c])) as [E|[_ Hv]]; [done|].
  destruct Hv as (d' & c' & Hc' & Heq & _).
  apply app_inj_tail in Heq as [_ Heq]. by apply kept_not_loser in Heq.
Qed.


Hypothesis Hno : noConflictUnder fs' root.

(** In a directory that held both halves, the unselected file is gone
    and the selected one is still there. *)
Lemma Cleaned_pair (d : path) (c : StyleConflictPair) :
  root `prefix_of` d → c ∈ T → conflictAt fs d c = true →
  fs' !! (d ++ [loser keep c]) = None
  ∧ existsFile fs' (d ++ [loser keep c]) = false
  ∧ fs' !! (d ++ [kept keep c]) = fs !! (d ++ [kept keep c])
  ∧ existsFile fs' (d ++ [kept keep c]) = true.
Proof.
  intros Hpre Hc Hcf.
  pose proof (Cleaned_shrink _ _ _ _ _ Hcl) as Hs.
  pose proof (Cleaned_kept d c Hc) as Hk.
  assert (Hke : existsFile fs' (d ++ [kept keep c]) = true).
  { rewrite (shrink_existsFile_kept _ _ _ _ Hs Hk). by apply conflictAt_kept. }
  assert (Hle : existsFile fs' (d ++ [loser keep c]) = false).
  { pose proof (Hno d c Hpre Hc) as Hf.
    rewrite (conflictAt_split _ _ _ keep), Hke in Hf. done. }
  split; [|done].
  destruct (Hcl (d ++ [loser keep c])) as [E|[E _]]; [|done].
  rewrite (shrink_existsFile_kept _ _ _ _ Hs E) in Hle.
  by rewrite (conflictAt_loser _ _ _ keep Hcf) in Hle.
Qed.
End CleanedFacts.

(** Both callbacks leave a directory without conflict alone. *)
Lemma cleanupConflicts_noop (keep : bool) (d : path) (fs : FS) :
  ∀ conflicts, (∀ c, c ∈ conflicts → conflictAt fs d c = false) →
    cleanupConflicts keep d conflicts fs = (None, fs).
Proof.
  induction conflicts as [|c rest IH]; intros Hno; [done|].
  simpl. unfold bind. rewrite !fileExists_quiet.
  fold (conflictAt fs d c). rewrite Hno by (by left).
  apply IH. intros c' Hc'. apply Hno. by right.
Qed.

Lemma cleanupFn_file (keep : bool) (p : path) (i : FileInfo) (c : unit) (fs : FS) :
  IsDir i = false → cleanupFn keep p (Some i) None (c, fs) = (None, (c, fs)).
Proof. intros Hd. unfold cleanupFn. by rewrite Hd. Qed.

Lemma cleanupFn_clean_dir (keep : bool) (p : path) (i : FileInfo) (c : unit) (fs : FS) :
  IsDir i = true → (∀ t, t ∈ knownStyleConflicts → conflictAt fs p t = false) →
  cleanupFn keep p (Some i) None (c, fs) = (None, (c, fs)).
Proof.
  intros Hd Hno. unfold cleanupFn. rewrite Hd. cbn [negb]. unfold sys.
  by rewrite cleanupConflicts_noop.
Qed.

Lemma filter_none {A} (P : A → Prop) `{∀ x, Decision (P x)} (l : list A) :
  (∀ x, x ∈ l → ¬ P x) → filter P l = [].
Proof.
  induction l as [|x l IH]; intros Hno; [done|].
  rewrite filter_cons, decide_False by (apply Hno; by left).
  apply IH. intros y Hy. apply Hno. by right.
Qed.

Lemma validateFn_clean_dir (root p : path) (i : FileInfo) (c : list string) (fs : FS) :
  IsDir i = true → (∀ t, t ∈ knownStyleConflicts → conflictAt fs p t = false) →
  validateFn root p (Some i) None (c, fs) = (None, (c, fs)).
Proof.
  intros Hd Hno. rewrite validateFn_dir by done.
  rewrite filter_none by (intros t Ht; by rewrite Hno).
  simpl. by rewrite (right_id_L [] (++)).
Qed.

(* ===================================================================== *)
(** * Sample trees *)
(* ===================================================================== *)

Definition dirEntry : FileInfo := mkInfo Directory true true true.
Definition fileEntry : FileInfo := mkInfo Regular true true false.
Definition pipeEntry : FileInfo := mkInfo NamedPipe true true false.
Definition lockedDir : FileInfo := mkInfo Directory false false false.

(** A project [proj] with a conflict in [internal/svc] and in [api], and
    a lone flat-named file in [cmd]. *)
Definition sampleTree : FS :=
  list_to_map [
    ([], dirEntry);
    (["proj"], dirEntry);
    (["proj"; "api"], dirEntry);
    (["proj"; "api"; "service_context.go"], fileEntry);
    (["proj"; "api"; "servicecontext.go"], fileEntry);
    (["proj"; "cmd"], dirEntry);
    (["proj"; "cmd"; "servicecontext.go"], fileEntry);
    (["proj"; "internal"], dirEntry);
    (["proj"; "internal"; "svc"], dirEntry);
    (["proj"; "internal"; "svc"; "service_context.go"], fileEntry);
    (["proj"; "internal"; "svc"; "servicecontext.go"], fileEntry) ].

(** [sampleTree] after cleanup for style [go_zero]. *)
Definition sampleTreeSnake : FS :=
  list_to_map [
    ([], dirEntry);
    (["proj"], dirEntry);
    (["proj"; "api"], dirEntry);
    (["proj"; "api"; "service_context.go"], fileEntry);
    (["proj"; "cmd"], dirEntry);
    (["proj"; "cmd"; "servicecontext.go"], fileEntry);
    (["proj"; "internal"], dirEntry);
    (["proj"; "internal"; "svc"], dirEntry);
    (["proj"; "internal"; "svc"; "service_context.go"], fileEntry) ].

(** [sampleTree] after cleanup for style [gozero]. *)
Definition sampleTreeFlat : FS :=
  list_to_map [
    ([], dirEntry);
    (["proj"], dirEntry);
    (["proj"; "api"], dirEntry);
    (["proj"; "api"; "servicecontext.go"], fileEntry);
    (["proj"; "cmd"], dirEntry);
    (["proj"; "cmd"; "servicecontext.go"], fileEntry);
    (["proj"; "internal"], dirEntry);
    (["proj"; "internal"; "svc"], dirEntry);
    (["proj"; "internal"; "svc"; "servicecontext.go"], fileEntry) ].

(** A file system in which [proj] does not exist. *)
Definition emptyTree : FS := {[ [] := dirEntry ]}.

(** A closed equation, decided by evaluating both sides. *)
Ltac evaluate :=
  lazymatch goal with
  | |- ?x = ?y => vm_cast_no_check (@eq_refl _ y)
  end.

Definition thePair : StyleConflictPair :=
  {| GoZeroStyle := "service_context.go"; GoZeroFlat := "servicecontext.go" |}.

Lemma thePair_known : thePair ∈ knownStyleConflicts.
Proof. by left. Qed.

Example sampleTree_cleanup_go_zero :
  CleanupStyleConflicts 5 ["proj"] "go_zero" sampleTree = (Returned None, sampleTreeSnake).
Proof. evaluate. Qed.

Example sampleTree_cleanup_gozero :
  CleanupStyleConflicts 5 ["proj"] "gozero" sampleTree = (Returned None, sampleTreeFlat).
Proof. evaluate. Qed.

Example sampleTree_validate :
  ValidateNoStyleConflicts 5 ["proj"] sampleTree =
    (Returned (Some (errorString
       ("style conflicts detected:" +:+ newline
        +:+ "api: both service_context.go and servicecontext.go exist" +:+ newline
        +:+ "internal/svc: both service_context.go and servicecontext.go exist"))),
     sampleTree).
Proof. evaluate. Qed.

(* ===================================================================== *)
(** * The claims about a quiet file system *)
(* ===================================================================== *)

(** C1 (as amended).  After [CleanupStyleConflicts projectPath style]
    returns without error, no directory at or below [projectPath] holds
    both halves of a known conflict pair; and if [projectPath] exists,
    [ValidateNoStyleConflicts projectPath] run next returns success and
    leaves the tree as it is. *)
Theorem cleanup_then_validate (fuel : nat) (projectPath : path) (style : string)
    (fs fs' : FS) :
  CleanupStyleConflicts fuel projectPath style fs = (Returned None, fs') →
  (∀ d c, projectPath `prefix_of` d → c ∈ knownStyleConflicts →
          conflictAt fs' d c = false)
  ∧ ((∃ info, Lstat projectPath fs = (inr info, fs)) →
     ValidateNoStyleConflicts fuel projectPath fs' = (Returned None, fs')).
Proof.
  intros Hc. destruct (Cleanup_quiet _ _ _ _ _ Hc) as [Hcl Hno].
  split; [done|]. intros [info Hl].
  assert (Hn : namei fs projectPath = inr info).
  { revert Hl. simpl. unfold fs_lstat.
    destruct (namei fs projectPath) as [|i]; [done|]. by intros [= ->]. }
  revert Hc. unfold CleanupStyleConflicts, ValidateNoStyleConflicts.
  destruct (Walk fuel projectPath (cleanupFn _) (tt, fs)) as [res [[] fs1]] eqn:Hw.
  intros [= -> ->].
  rewrite (Walk_again _ (validateFn projectPath)
             (λ p i c fs0, validateFn_file projectPath p i (c, fs0))
             (validateFn_clean_dir projectPath) fuel projectPath info fs fs' [] Hw Hn).
  done.
Qed.

Lemma cleanup_then_validate_witness :
  (∀ d c, ["proj"] `prefix_of` d → c ∈ knownStyleConflicts →
          conflictAt sampleTreeSnake d c = false)
  ∧ ValidateNoStyleConflicts 5 ["proj"] sampleTreeSnake = (Returned None, sampleTreeSnake).
Proof.
  pose proof (cleanup_then_validate 5 ["proj"] "go_zero" sampleTree sampleTreeSnake
                ltac:(evaluate)) as [H1 H2].
  split; [exact H1|]. apply H2. exists dirEntry. evaluate.
Defined.

(** C1, the claim as stated fails: when [projectPath] does not exist,
    cleanup returns success, and the validator run next returns the
    not-found error of [Lstat]. *)
Lemma cleanup_then_validate_missing_root :
  CleanupStyleConflicts 5 ["proj"] "go_zero" emptyTree = (Returned None, emptyTree)
  ∧ ValidateNoStyleConflicts 5 ["proj"] emptyTree
    = (Returned (Some (PathError "lstat" ["proj"] ENOENT)), emptyTree)
  ∧ ValidateNoStyleConflicts 5 ["proj"] emptyTree ≠ (Returned None, emptyTree).
Proof.
  assert (Hv : ValidateNoStyleConflicts 5 ["proj"] emptyTree
    = (Returned (Some (PathError "lstat" ["proj"] ENOENT)), emptyTree)) by evaluate.
  split; [evaluate|]. split; [exact Hv|]. rewrite Hv. discriminate.
Qed.

(** C5.  Running cleanup again with the same style, right after a run
    that returned without error, returns without error and leaves the
    tree exactly as the first run left it. *)
Theorem cleanup_idempotent (fuel : nat) (projectPath : path) (style : string)
    (fs fs' : FS) :
  CleanupStyleConflicts fuel projectPath style fs = (Returned None, fs') →
  CleanupStyleConflicts fuel projectPath style fs' = (Returned None, fs').
Proof.
  intros Hc. pose proof Hc as Hc0. revert Hc. unfold CleanupStyleConflicts.
  destruct (Walk fuel projectPath (cleanupFn _) (tt, fs)) as [res [[] fs1]] eqn:Hw.
  intros [= -> ->].
  destruct (namei fs projectPath) as [e|info] eqn:Hn.
  - assert (fs' = fs) as ->; [|by rewrite Hw].
    revert Hw. unfold Walk. unfold bind at 1. simpl. unfold fs_lstat. rewrite Hn.
    unfold bind. rewrite cleanupFn_error. unfold ret. by intros [= _ <-].
  - by rewrite (Walk_again _ (cleanupFn _) (cleanupFn_file _) (cleanupFn_clean_dir _)
                  fuel projectPath info fs fs' tt Hw Hn).
Qed.

Lemma cleanup_idempotent_witness :
  CleanupStyleConflicts 5 ["proj"] "gozero" sampleTreeFlat = (Returned None, sampleTreeFlat).
Proof.
  exact (cleanup_idempotent 5 ["proj"] "gozero" sampleTree sampleTreeFlat
           ltac:(evaluate)).
Defined.

(** ** Validation *)

Definition allDirsOpen (fs : FS) : bool :=
  forallb (λ kv : path * FileInfo,
             implb (IsDir kv.2) (Readable kv.2 && Searchable kv.2))
          (map_to_list fs).

Lemma allDirsOpen_walkable (fs : FS) (p : path) :
  allDirsOpen fs = true → walkable fs p.
Proof.
  unfold allDirsOpen. rewrite forallb_forall. intros Hall d j _ Hn Hd.
  apply namei_lookup, elem_of_map_to_list, list_elem_of_In, Hall in Hn.
  simpl in Hn. rewrite Hd in Hn. simpl in Hn. by apply andb_true_iff in Hn.
Qed.

(** A project with one conflict, and a directory that may not be read. *)
Definition lockedTree : FS :=
  list_to_map [
    ([], dirEntry);
    (["proj"], dirEntry);
    (["proj"; "api"], dirEntry);
    (["proj"; "api"; "service_context.go"], fileEntry);
    (["proj"; "api"; "servicecontext.go"], fileEntry);
    (["proj"; "vault"], lockedDir) ].

(** C3 (as amended).  On a tree whose root exists and whose
    directories can all be listed and searched, so that the walk meets
    no traversal error: the validator finds every directory/pair of the
    whole tree in which both halves exist, each once; if there is none it
    returns success, otherwise it fails with one error whose message
    lists all of them, one per line. *)
Theorem validate_reports_every_conflict (fuel : nat) (projectPath : path) (fs : FS) :
  depth fs < fuel →
  (∃ info, Lstat projectPath fs = (inr info, fs)) →
  walkable fs projectPath →
  ∃ L : list (path * StyleConflictPair),
    NoDup L
    ∧ (∀ d c, (d, c) ∈ L ↔
         projectPath `prefix_of` d ∧ c ∈ knownStyleConflicts ∧ conflictAt fs d c = true)
    ∧ ValidateNoStyleConflicts fuel projectPath fs =
        (Returned
           match L with
           | [] => None
           | _ :: _ =>
               Some (errorString
                 ("style conflicts detected:" +:+ newline
                    +:+ String.concat newline (lineOf projectPath <$> L)))
           end,
         fs).
Proof.
  intros HD [info Hl] Hwk.
  assert (Hn : namei fs projectPath = inr info).
  { revert Hl. simpl. unfold fs_lstat.
    destruct (namei fs projectPath) as [|i]; [done|]. by intros [= ->]. }
  destruct (Validate_returns fuel projectPath fs HD) as [err Hv].
  destruct (Validate_quiet _ _ _ _ _ Hv) as [_ Hq]. rewrite Hn in Hq.
  destruct Hq as (L & [Hnd Hsound] & Hout). exists L. split; [done|].
  assert (Hiff : allConflictsIn fs (λ d, projectPath `prefix_of` d) L →
    ∀ d c, (d, c) ∈ L ↔
      projectPath `prefix_of` d ∧ c ∈ knownStyleConflicts ∧ conflictAt fs d c = true).
  { intros Hall d c. split; [apply Hsound|]. intros (? & ? & ?). by apply Hall. }
  destruct err as [e|].
  - destruct Hout as [[_ Hnw]|(-> & HL & Hall)]; [done|].
    split; [by apply Hiff|]. rewrite Hv. by destruct L.
  - destruct Hout as [-> Hall]. split; [by apply Hiff|]. by rewrite Hv.
Qed.

Lemma validate_reports_every_conflict_witness :
  ∃ L : list (path * StyleConflictPair),
    NoDup L
    ∧ (∀ d c, (d, c) ∈ L ↔
         ["proj"] `prefix_of` d ∧ c ∈ knownStyleConflicts
         ∧ conflictAt sampleTree d c = true)
    ∧ ValidateNoStyleConflicts 5 ["proj"] sampleTree =
        (Returned
           match L with
           | [] => None
           | _ :: _ =>
               Some (errorString
                 ("style conflicts detected:" +:+ newline
                    +:+ String.concat newline (lineOf ["proj"] <$> L)))
           end,
         sampleTree).
Proof.
  apply (validate_reports_every_conflict 5 ["proj"] sampleTree).
  - vm_compute. lia.
  - exists dirEntry. evaluate.
  - apply allDirsOpen_walkable. evaluate.
Defined.

Lemma emptyTree_no_file (p : path) : existsFile emptyTree p = false.
Proof.
  destruct (existsFile emptyTree p) eqn:E; [|done].
  apply existsFile_lookup in E as (i & Hi & Hd). unfold emptyTree in Hi.
  apply lookup_singleton_Some in Hi as [_ <-]. done.
Qed.

(** C3, the claim as stated fails.  A tree without any conflict whose
    root is missing does not validate with success, and a tree with a
    conflict and an unreadable directory does not fail with the list of
    conflicts: in both cases the traversal error is returned. *)
Lemma validate_returns_traversal_error_instead :
  ((∀ d c, conflictAt emptyTree d c = false)
   ∧ ValidateNoStyleConflicts 5 ["proj"] emptyTree
     = (Returned (Some (PathError "lstat" ["proj"] ENOENT)), emptyTree))
  ∧ (conflictAt lockedTree ["proj"; "api"] thePair = true
     ∧ ValidateNoStyleConflicts 5 ["proj"] lockedTree
       = (Returned (Some (PathError "open" ["proj"; "vault"] EACCES)), lockedTree)).
Proof.
  split; split.
  - intros d c. unfold conflictAt. by rewrite emptyTree_no_file.
  - evaluate.
  - evaluate.
  - evaluate.
Qed.

(** ** Detection *)

(** The three convention directories, in the order of the specification. *)
Definition conventionDirs (projectPath : path) : list path :=
  [ projectPath ++ ["internal"; "svc"];
    projectPath ++ ["internal"; "handler"];
    projectPath ++ ["internal"; "logic"] ].

Definition dirCandidates (c : StyleConflictPair) (dir : path) : list (path * string) :=
  [ (dir ++ [GoZeroStyle c], "go_zero"); (dir ++ [GoZeroFlat c], "gozero") ].

(** Every file name the detector may look at, each with the style tag it
    stands for: pairs in table order, then directories, then the
    snake_case name before the flat name. *)
Definition detectCandidates (projectPath : path) : list (path * string) :=
  flat_map (λ c, flat_map (dirCandidates c) (conventionDirs projectPath))
           knownStyleConflicts.

(** The detector as the specification words it: the tag of the first
    candidate that exists, or the empty string. *)
Definition detect_spec (fs : FS) (projectPath : path) : string :=
  match List.find (λ cand : path * string, existsFile fs cand.1)
                  (detectCandidates projectPath) with
  | Some cand => cand.2
  | None => ""
  end.

Lemma find_app_first {A} (P : A → bool) (l1 l2 : list A) :
  List.find P (l1 ++ l2) =
    match List.find P l1 with Some x => Some x | None => List.find P l2 end.
Proof. induction l1 as [|x l1 IH]; simpl; [done|]. by destruct (P x). Qed.

Lemma detectInDirs_quiet (c : StyleConflictPair) (fs : FS) :
  ∀ dirs, detectInDirs c dirs fs =
    (snd <$> List.find (λ cand : path * string, existsFile fs cand.1)
                       (flat_map (dirCandidates c) dirs), fs).
Proof.
  induction dirs as [|dir rest IH]; [done|].
  simpl. unfold bind at 1. rewrite fileExists_quiet. unfold Join.
  destruct (existsFile fs (dir ++ [GoZeroStyle c])); [done|].
  unfold bind. rewrite fileExists_quiet.
  destruct (existsFile fs (dir ++ [GoZeroFlat c])); [done|].
  apply IH.
Qed.

Lemma detectInTable_quiet (projectPath : path) (fs : FS) :
  ∀ table, detectInTable projectPath table fs =
    (match List.find (λ cand : path * string, existsFile fs cand.1)
             (flat_map (λ c, flat_map (dirCandidates c) (conventionDirs projectPath))
                       table) with
     | Some cand => cand.2
     | None => ""
     end, fs).
Proof.
  induction table as [|c rest IH]; [done|].
  cbn [detectInTable flat_map]. unfold bind. rewrite detectInDirs_quiet.
  rewrite find_app_first. fold (conventionDirs projectPath).
  destruct (List.find _ (flat_map (dirCandidates c) _)) as [cand|]; [done|].
  simpl. apply IH.
Qed.

Lemma detectCandidates_tag (projectPath : path) (cand : path * string) :
  In cand (detectCandidates projectPath) → cand.2 = "go_zero" ∨ cand.2 = "gozero".
Proof.
  unfold detectCandidates. simpl. intros H.
  repeat (destruct H as [<-|H]; [simpl; auto|]). done.
Qed.

(** C7.  [DetectExistingStyle] returns the style tag of the first
    candidate file that exists, taking conflict pairs in table order,
    then [internal/svc], [internal/handler], [internal/logic], and in
    each directory the snake_case name before the flat name; it returns
    the empty string exactly when no candidate exists. *)
Theorem detect_first_found (projectPath : path) (fs : FS) :
  DetectExistingStyle projectPath fs = (detect_spec fs projectPath, fs)
  ∧ (detect_spec fs projectPath = "" ↔
     ∀ cand, cand ∈ detectCandidates projectPath → existsFile fs cand.1 = false).
Proof.
  split.
  - unfold DetectExistingStyle. by rewrite detectInTable_quiet.
  - unfold detect_spec.
    destruct (List.find _ (detectCandidates projectPath)) as [cand|] eqn:Hf.
    + apply find_some in Hf as [Hin Hex]. split.
      * intros Htag. by destruct (detectCandidates_tag _ _ Hin) as [E|E];
          rewrite E in Htag.
      * intros Hnone. rewrite Hnone in Hex; [done|]. by apply list_elem_of_In.
    + split; [|done]. intros _ cand Hin%list_elem_of_In.
      by apply (find_none _ _ Hf).
Qed.

Example detect_sampleTree : DetectExistingStyle ["proj"] sampleTree = ("go_zero", sampleTree).
Proof. evaluate. Qed.

Example detect_sampleTreeFlat :
  DetectExistingStyle ["proj"] sampleTreeFlat = ("gozero", sampleTreeFlat).
Proof. evaluate. Qed.

Example detect_emptyTree : DetectExistingStyle ["proj"] emptyTree = ("", emptyTree).
Proof. evaluate. Qed.

(* ===================================================================== *)
(** * Claims that hold for every implementation of the system calls *)
(* ===================================================================== *)

(** C8 (as amended).  [SuggestStyleBasedOnExisting] returns the result
    of [DetectExistingStyle] when that is not empty and the caller's
    default when it is empty; so its output is empty exactly when nothing
    was detected and the default itself is empty. *)
Theorem suggest_detected_or_default {W : Type} `{OSW : OS W}
    (projectPath : path) (defaultStyle : string) (w : W) :
  let detected := (DetectExistingStyle projectPath w).1 in
  let suggested := (SuggestStyleBasedOnExisting projectPath defaultStyle w).1 in
  (SuggestStyleBasedOnExisting projectPath defaultStyle w).2
    = (DetectExistingStyle projectPath w).2
  ∧ (detected ≠ "" → suggested = detected)
  ∧ (detected = "" → suggested = defaultStyle)
  ∧ (suggested = "" ↔ detected = "" ∧ defaultStyle = "").
Proof.
  unfold SuggestStyleBasedOnExisting, bind. simpl.
  destruct (DetectExistingStyle projectPath w) as [detected w1]. simpl.
  destruct (String.eqb_spec detected "") as [->|Hne]; simpl.
  - repeat split; try done. by intros [_ ->].
  - repeat split; try done. by intros [? _].
Qed.

(** C8, the claim as stated fails: with nothing to detect and an empty
    default, the suggestion is empty. *)
Lemma suggest_can_be_empty :
  (SuggestStyleBasedOnExisting ["proj"] "" emptyTree).1 = "".
Proof. evaluate. Qed.

(** C9 (as amended).  [fileExists] makes one [Stat] call and answers
    true exactly when that call succeeds on an entry that is not a
    directory; a failed [Stat], whatever the error, gives false. *)
Theorem fileExists_iff_stat_not_dir {W : Type} `{OSW : OS W} (p : path) (w : W) :
  (fileExists p w).2 = (Stat p w).2
  ∧ ((fileExists p w).1 = true ↔
     ∃ info, (Stat p w).1 = inr info ∧ IsDir info = false)
  ∧ (∀ err, (Stat p w).1 = inl err → (fileExists p w).1 = false).
Proof.
  unfold fileExists, bind. destruct (Stat p w) as [[err|info] w1]; simpl.
  - repeat split; try done. by intros (info & ? & _).
  - repeat split; try done.
    + intros Hd. exists info. split; [done|]. by apply negb_true_iff.
    + intros (info' & [= <-] & Hd). by rewrite Hd.
Qed.

(** A file system with a named pipe. *)
Definition pipeTree : FS := {[ [] := dirEntry; ["fifo"] := pipeEntry ]}.

(** C9, the claim as stated fails: a named pipe is an entry that exists
    and is not a regular file, and [fileExists] answers true for it. *)
Lemma fileExists_true_on_named_pipe :
  fileExists ["fifo"] pipeTree = (true, pipeTree)
  ∧ Stat ["fifo"] pipeTree = (inr pipeEntry, pipeTree)
  ∧ IsRegular pipeEntry = false.
Proof. repeat split; evaluate. Qed.


Example sampleTree_cleanup_legacy :
  CleanupStyleConflicts 5 ["proj"] "legacy" sampleTree = (Returned None, sampleTreeFlat).
Proof. evaluate. Qed.


(* ===================================================================== *)
(** * The racy file system: traces of system calls *)
(* ===================================================================== *)

(** [w'] is [w] after the calls [tr]. *)
Definition extends (w w' : World) (tr : list Event) : Prop :=
  trace w' = trace w ++ tr.

Lemma extends_refl (w : World) : extends w w [].
Proof. unfold extends. by rewrite (right_id_L [] (++)). Qed.

Lemma extends_trans (w1 w2 w3 : World) (t1 t2 : list Event) :
  extends w1 w2 t1 → extends w2 w3 t2 → extends w1 w3 (t1 ++ t2).
Proof. unfold extends. intros H1 H2. by rewrite H2, H1, (assoc_L (++)). Qed.

Lemma extends_inj (w w' : World) (t1 t2 : list Event) :
  extends w w' t1 → extends w w' t2 → t1 = t2.
Proof. unfold extends. intros H1 H2. rewrite H1 in H2. by apply (inj (app _)) in H2. Qed.

Lemma racy_lstat_extends (p : path) (w w' : World) r :
  racy_lstat p w = (r, w') → extends w w' [EvLstat p r].
Proof. unfold racy_lstat. destruct (intrude w). by intros [= <- <-]. Qed.

Lemma racy_stat_extends (p : path) (w w' : World) r :
  racy_stat p w = (r, w') → extends w w' [EvStat p r].
Proof. unfold racy_stat. destruct (intrude w). by intros [= <- <-]. Qed.

Lemma racy_readDirNames_extends (p : path) (w w' : World) r :
  racy_readDirNames p w = (r, w') → extends w w' [EvReadDir p r].
Proof. unfold racy_readDirNames. destruct (intrude w). by intros [= <- <-]. Qed.

Lemma racy_remove_extends (p : path) (w w' : World) r :
  racy_remove p w = (r, w') → extends w w' [EvRemove p r].
Proof.
  unfold racy_remove. destruct (intrude w) as [fs later].
  destruct (fs_remove p fs). by intros [= <- <-].
Qed.

Lemma racy_readDirNames_NoDup (p : path) (w w' : World) (names : list string) :
  racy_readDirNames p w = (inr names, w') → NoDup names.
Proof.
  unfold racy_readDirNames, fs_readDirNames. destruct (intrude w) as [fs later].
  destruct (namei fs p) as [|i]; [by intros [=]|].
  destruct (negb (Readable i)); [by intros [=]|].
  destruct (negb (IsDir i)); [by intros [=]|].
  intros [= <- _]. apply NoDup_entries.
Qed.

(** What a [Stat] result means to [fileExists]. *)
Definition statSaysFile (r : error + FileInfo) : bool :=
  match r with
  | inl _ => false
  | inr info => negb (IsDir info)
  end.

Lemma fileExists_racy (p : path) (w w' : World) (b : bool) :
  fileExists p w = (b, w') →
  ∃ r, extends w w' [EvStat p r] ∧ b = statSaysFile r.
Proof.
  unfold fileExists, bind. simpl.
  destruct (racy_stat p w) as [r w1] eqn:Hs.
  apply racy_stat_extends in Hs. exists r.
  destruct r; simpl in *; unfold ret in *; simplify_eq; done.
Qed.

(** Traversal failures are failed [Lstat] and directory-listing calls. *)
Definition failure (ev : Event) : option error :=
  match ev with
  | EvLstat _ (inl e) => Some e
  | EvReadDir _ (inl e) => Some e
  | _ => None
  end.

Definition noFailure (tr : list Event) : Prop := ∀ ev, ev ∈ tr → failure ev = None.

(** Paths on which the program called [os.Remove]. *)
Definition removeTargets (tr : list Event) : list path :=
  omap (λ ev, match ev with EvRemove p _ => Some p | _ => None end) tr.

Lemma removeTargets_app (t1 t2 : list Event) :
  removeTargets (t1 ++ t2) = removeTargets t1 ++ removeTargets t2.
Proof. apply omap_app. Qed.

Lemma elem_of_removeTargets (tr : list Event) (k : path) :
  k ∈ removeTargets tr → ∃ pre r post, tr = pre ++ EvRemove k r :: post.
Proof.
  unfold removeTargets. rewrite list_elem_of_omap. intros (ev & Hin & Hev).
  destruct ev as [| | |p r]; try done. injection Hev as ->.
  apply list_elem_of_split in Hin as (pre & post & ->). by exists pre, r, post.
Qed.

Lemma noFailure_nil : noFailure [].
Proof. intros ev Hev. by apply elem_of_nil in Hev. Qed.

Lemma noFailure_cons (ev : Event) (tr : list Event) :
  failure ev = None → noFailure tr → noFailure (ev :: tr).
Proof. intros Hev Htr ev' [->|?]%elem_of_cons; [done|by apply Htr]. Qed.

Lemma noFailure_app (t1 t2 : list Event) :
  noFailure t1 → noFailure t2 → noFailure (t1 ++ t2).
Proof. intros H1 H2 ev [?|?]%elem_of_app; [by apply H1|by apply H2]. Qed.

Section RemoveDiscipline.
Variable keep : bool.

Local Abbreviation T := knownStyleConflicts.

(** The calls [pre] end with the three checks the callback makes before
    it removes [k] from [d] for the pair [c]: both halves were seen to
    exist, and [k] was seen again. *)
Definition checkedBefore (d : path) (c : StyleConflictPair) (k : path)
    (pre : list Event) : Prop :=
  ∃ pre' i1 i2 i3,
    pre = pre' ++ [ EvStat (Join d (GoZeroStyle c)) (inr i1);
                    EvStat (Join d (GoZeroFlat c)) (inr i2);
                    EvStat k (inr i3) ]
    ∧ IsDir i1 = false ∧ IsDir i2 = false ∧ IsDir i3 = false.

(** Every [os.Remove] call of [tr] is on the unselected file of a known
    pair in a directory within [scope], right after its three checks. *)
Definition removesChecked (scope : path → Prop) (tr : list Event) : Prop :=
  ∀ pre k r post, tr = pre ++ EvRemove k r :: post →
    ∃ d c, scope d ∧ c ∈ T ∧ k = Join d (loser keep c) ∧ checkedBefore d c k pre.

Definition disciplined (scope : path → Prop) (tr : list Event) : Prop :=
  removesChecked scope tr ∧ NoDup (removeTargets tr).

Lemma checkedBefore_app (d : path) (c : StyleConflictPair) (k : path)
    (t pre : list Event) :
  checkedBefore d c k pre → checkedBefore d c k (t ++ pre).
Proof.
  intros (pre' & i1 & i2 & i3 & -> & ?). exists (t ++ pre'), i1, i2, i3.
  by rewrite (assoc_L (++)).
Qed.

Lemma removesChecked_none (scope : path → Prop) (tr : list Event) :
  removeTargets tr = [] → removesChecked scope tr.
Proof.
  intros Hn pre k r post ->. rewrite removeTargets_app in Hn. simpl in Hn.
  by apply app_nil in Hn as [_ ?].
Qed.

Lemma disciplined_none (scope : path → Prop) (tr : list Event) :
  removeTargets tr = [] → disciplined scope tr.
Proof.
  intros Hn. split; [by apply removesChecked_none|]. rewrite Hn. constructor.
Qed.

Lemma removesChecked_weaken (scope scope' : path → Prop) (tr : list Event) :
  (∀ d, scope d → scope' d) → removesChecked scope tr → removesChecked scope' tr.
Proof.
  intros Hsub H pre k r post Heq.
  destruct (H _ _ _ _ Heq) as (d & c & ? & ?). exists d, c. auto.
Qed.

Lemma removesChecked_app (scope : path → Prop) (t1 t2 : list Event) :
  removesChecked scope t1 → removesChecked scope t2 →
  removesChecked scope (t1 ++ t2).
Proof.
  intros H1 H2 pre k r post Heq.
  apply app_eq_inv in Heq as [(l & -> & Hl)|(l & -> & ->)].
  - destruct l as [|ev l].
    + simpl in Hl. subst t2.
      destruct (H2 [] k r post eq_refl)
        as (d & c & _ & _ & _ & (pre' & ? & ? & ? & Hnil & _)).
      by destruct pre'.
    + injection Hl as <- ->. by apply (H1 pre k r l).
  - destruct (H2 l k r post eq_refl) as (d & c & ? & ? & ? & Hch).
    exists d, c. repeat split; try done. by apply checkedBefore_app.
Qed.

Lemma removeTargets_scope (scope : path → Prop) (tr : list Event) (k : path) :
  removesChecked scope tr → k ∈ removeTargets tr →
  ∃ d c, scope d ∧ c ∈ T ∧ k = Join d (loser keep c).
Proof.
  intros H (pre & r & post & Heq)%elem_of_removeTargets.
  destruct (H _ _ _ _ Heq) as (d & c & ? & ? & ? & _). by exists d, c.
Qed.

Lemma disciplined_app (scope scope1 scope2 : path → Prop) (t1 t2 : list Event) :
  disciplined scope1 t1 → disciplined scope2 t2 →
  (∀ d, scope1 d → scope d) → (∀ d, scope2 d → scope d) →
  (∀ d, scope1 d → scope2 d → False) →
  disciplined scope (t1 ++ t2).
Proof.
  intros [Hr1 Hn1] [Hr2 Hn2] Hs1 Hs2 Hdis. split.
  - apply removesChecked_app.
    + by apply (removesChecked_weaken scope1).
    + by apply (removesChecked_weaken scope2).
  - rewrite removeTargets_app. apply NoDup_app. split; [done|]. split; [|done].
    intros k Hk1 Hk2.
    destruct (removeTargets_scope _ _ _ Hr1 Hk1) as (d1 & c1 & Hd1 & _ & ->).
    destruct (removeTargets_scope _ _ _ Hr2 Hk2) as (d2 & c2 & Hd2 & _ & Heq).
    apply app_inj_tail in Heq as [-> _]. by eapply Hdis.
Qed.
End RemoveDiscipline.

(** ** The cleanup callback under interference *)

Section RacyCleanup.
Variable keep : bool.

Local Abbreviation T := knownStyleConflicts.
Local Abbreviation fn := (cleanupFn (W := World) keep).

Lemma statSaysFile_true (r : error + FileInfo) :
  statSaysFile r = true → ∃ i, r = inr i ∧ IsDir i = false.
Proof.
  destruct r as [|i]; [done|]. simpl. intros Hd%negb_true_iff. by exists i.
Qed.

Lemma removesChecked_here (d : path) (c : StyleConflictPair) (i1 i2 i3 : FileInfo) r :
  c ∈ T → IsDir i1 = false → IsDir i2 = false → IsDir i3 = false →
  removesChecked keep (λ d', d' = d)
    [ EvStat (Join d (GoZeroStyle c)) (inr i1);
      EvStat (Join d (GoZeroFlat c)) (inr i2);
      EvStat (Join d (loser keep c)) (inr i3);
      EvRemove (Join d (loser keep c)) r ].
Proof.
  intros Hc H1 H2 H3 pre k r' post Heq.
  destruct pre as [|e1 [|e2 [|e3 [|e4 pre]]]]; simplify_eq/=.
  - exists d, c. repeat split; try done. by exists [], i1, i2, i3.
  - by destruct pre.
Qed.

Lemma cleanupConflicts_racy (d : path) :
  ∀ (conflicts : list StyleConflictPair) (w w' : World) (r : option error),
    (∀ c, c ∈ conflicts → c ∈ T) → NoDup (loser keep <$> conflicts) →
    cleanupConflicts keep d conflicts w = (r, w') →
    ∃ tr, extends w w' tr
      ∧ removesChecked keep (λ d', d' = d) tr
      ∧ NoDup (removeTargets tr)
      ∧ (∀ k, k ∈ removeTargets tr → ∃ c, c ∈ conflicts ∧ k = Join d (loser keep c))
      ∧ noFailure tr
      ∧ (∀ e, r = Some e → IsNotExist e = false).
Proof.
  induction conflicts as [|c rest IH]; intros w w' r HT Hnd.
  { simpl. unfold ret. intros [= <- <-]. exists []. split; [apply extends_refl|].
    split; [by apply removesChecked_none|]. split; [constructor|].
    split; [intros k Hk; by apply elem_of_nil in Hk|].
    split; [intros ev Hev; by apply elem_of_nil in Hev|done]. }
  assert (HT' : ∀ c', c' ∈ rest → c' ∈ T) by (intros c' Hc'; apply HT; by right).
  rewrite fmap_cons in Hnd. apply NoDup_cons in Hnd as [Hfresh Hnd].
  simpl. unfold bind at 1.
  destruct (fileExists (Join d (GoZeroStyle c)) w) as [b1 w1] eqn:H1.
  destruct (fileExists_racy _ _ _ _ H1) as (r1 & He1 & ->).
  unfold bind at 1.
  destruct (fileExists (Join d (GoZeroFlat c)) w1) as [b2 w2] eqn:H2.
  destruct (fileExists_racy _ _ _ _ H2) as (r2 & He2 & ->).
  pose proof (extends_trans _ _ _ _ _ He1 He2) as He12. simpl in He12.
  assert (Hstat : ∀ p x, noFailure [EvStat p x]).
  { intros p x ev ->%list_elem_of_singleton. done. }
  assert (Hfin : ∀ (pre : list Event) (wm : World) ,
    extends w wm pre → removeTargets pre = [] → noFailure pre →
    cleanupConflicts keep d rest wm = (r, w') →
    ∃ tr, extends w w' tr
      ∧ removesChecked keep (λ d', d' = d) tr
      ∧ NoDup (removeTargets tr)
      ∧ (∀ k, k ∈ removeTargets tr → ∃ c0, c0 ∈ c :: rest ∧ k = Join d (loser keep c0))
      ∧ noFailure tr
      ∧ (∀ e, r = Some e → IsNotExist e = false)).
  { intros pre wm Hpre Hnone Hnf Hrest.
    destruct (IH _ _ _ HT' Hnd Hrest) as (tr & Het & Hrc & Hndt & Hin & Hnft & Herr).
    exists (pre ++ tr). split; [by eapply extends_trans|].
    split; [apply removesChecked_app; [by apply removesChecked_none|done]|].
    rewrite removeTargets_app, Hnone. simpl. split; [done|].
    split.
    - intros k Hk. destruct (Hin k Hk) as (c0 & ? & ?). exists c0. split; [by right|done].
    - split; [|done]. intros ev [?|?]%elem_of_app; [by apply Hnf|by apply Hnft]. }
  destruct (statSaysFile r1 && statSaysFile r2) eqn:Hboth.
  2: { intros Hrest. eapply Hfin; [done|done| |done].
       intros ev [->| ->%list_elem_of_singleton]%elem_of_cons; done. }
  apply andb_true_iff in Hboth as [(i1 & -> & Hd1)%statSaysFile_true
                                     (i2 & -> & Hd2)%statSaysFile_true].
  replace (if keep then Join d (GoZeroFlat c) else Join d (GoZeroStyle c))
    with (Join d (loser keep c)) by (by destruct keep).
  unfold bind at 1.
  destruct (fileExists (Join d (loser keep c)) w2) as [b3 w3] eqn:H3.
  destruct (fileExists_racy _ _ _ _ H3) as (r3 & He3 & ->).
  pose proof (extends_trans _ _ _ _ _ He12 He3) as He123. simpl in He123.
  destruct (statSaysFile r3) eqn:Hs3.
  2: { intros Hrest. eapply Hfin; [done|done| |done].
       intros ev [->|[->| ->%list_elem_of_singleton]%elem_of_cons]%elem_of_cons; done. }
  apply statSaysFile_true in Hs3 as (i3 & -> & Hd3).
  unfold bind at 1. simpl.
  destruct (racy_remove (Join d (loser keep c)) w3) as [err w4] eqn:H4.
  apply racy_remove_extends in H4.
  pose proof (extends_trans _ _ _ _ _ He123 H4) as He1234. simpl in He1234.
  pose proof (removesChecked_here d c i1 i2 i3 err (HT c ltac:(by left)) Hd1 Hd2 Hd3)
    as Hhere.
  assert (Hnf4 : noFailure
    [ EvStat (Join d (GoZeroStyle c)) (inr i1); EvStat (Join d (GoZeroFlat c)) (inr i2);
      EvStat (Join d (loser keep c)) (inr i3); EvRemove (Join d (loser keep c)) err ]).
  { intros ev Hev. repeat (apply elem_of_cons in Hev as [->|Hev]; [done|]).
    by apply elem_of_nil in Hev. }
  destruct err as [e|].
  - unfold ret. intros [= <- <-]. eexists. split; [done|].
    split; [done|]. simpl. split; [apply NoDup_singleton|]. split.
    + intros k ->%list_elem_of_singleton. exists c. split; [by left|done].
    + split; [done|]. by intros e' [= <-].
  - intros Hrest.
    destruct (IH _ _ _ HT' Hnd Hrest) as (tr & Het & Hrc & Hndt & Hin & Hnft & Herr).
    eexists. split; [by eapply extends_trans|].
    split; [by apply removesChecked_app|].
    rewrite removeTargets_app. simpl. split.
    + apply NoDup_cons. split; [|done]. intros Hk.
      destruct (Hin _ Hk) as (c0 & Hc0 & Heq).
      apply app_inj_tail in Heq as [_ Heq]. apply Hfresh.
      rewrite Heq. by apply list_elem_of_fmap_2.
    + split.
      * intros k [->|Hk]%elem_of_cons; [exists c; split; [by left|done]|].
        destruct (Hin k Hk) as (c0 & ? & ?). exists c0. split; [by right|done].
      * split; [|done]. by repeat (apply noFailure_cons; [done|]).
Qed.

Lemma NoDup_losers : NoDup (loser keep <$> T).
Proof. apply NoDup_singleton. Qed.

(** A visit of the callback without incoming error. *)
Lemma cleanupFn_racy (p : path) (info : option FileInfo) (w w' : World)
    (r : option error) :
  fn p info None (tt, w) = (r, (tt, w')) →
  ∃ tr, extends w w' tr
    ∧ disciplined keep (λ d, d = p) tr
    ∧ noFailure tr
    ∧ (∀ e, r = Some e → IsNotExist e = false).
Proof.
  unfold cleanupFn.
  assert (Hnop : ∀ r0 : option error, r0 = None →
    (r0, (tt, w)) = (r, (tt, w')) →
    ∃ tr, extends w w' tr ∧ disciplined keep (λ d, d = p) tr ∧ noFailure tr
          ∧ (∀ e, r = Some e → IsNotExist e = false)).
  { intros r0 -> [= <- <-]. exists []. split; [apply extends_refl|].
    split; [by apply disciplined_none|].
    split; [intros ev Hev; by apply elem_of_nil in Hev|done]. }
  destruct info as [i|]; [|by apply Hnop].
  destruct (IsDir i); cbn [negb]; [|by apply Hnop].
  unfold sys. destruct (cleanupConflicts keep p T w) as [r1 w1] eqn:Hv.
  intros [= <- <-].
  destruct (cleanupConflicts_racy p T _ _ _ (λ c H, H) NoDup_losers Hv)
    as (tr & ? & ? & ? & _ & ? & ?).
  by exists tr.
Qed.
End RacyCleanup.

(** ** The shape of a walk's trace

    [walkT V p tr res]: a walk that starts at the entry [p] (already
    found by [Lstat]) makes the calls [tr] and returns [res], where
    [V q err tv r] says that the callback, invoked on [q] with the
    incoming error [err], makes the calls [tv] and returns [r]. *)

Section WalkTrace.
Variable V : path → option error → list Event → option error → Prop.

Inductive walkT : path → list Event → walkres → Prop :=
| walkT_fuel p :
    walkT p [] OutOfFuel
| walkT_file p tv r :
    V p None tv r →
    walkT p tv (Returned r)
| walkT_unreadable p e tv r :
    V p (Some e) tv r →
    walkT p (EvReadDir p (inl e) :: tv) (Returned r)
| walkT_visit_error p names tv e :
    V p None tv (Some e) →
    walkT p (EvReadDir p (inr names) :: tv) (Returned (Some e))
| walkT_dir p names tv tl res :
    NoDup names → V p None tv None → namesT p names tl res →
    walkT p (EvReadDir p (inr names) :: tv ++ tl) res
with namesT : path → list string → list Event → walkres → Prop :=
| namesT_done dir :
    namesT dir [] [] (Returned None)
| namesT_lstat_error dir n rest e tv e' :
    V (Join dir n) (Some e) tv (Some e') →
    namesT dir (n :: rest) (EvLstat (Join dir n) (inl e) :: tv) (Returned (Some e'))
| namesT_lstat_skipped dir n rest e tv tl res :
    V (Join dir n) (Some e) tv None → namesT dir rest tl res →
    namesT dir (n :: rest) (EvLstat (Join dir n) (inl e) :: tv ++ tl) res
| namesT_child_stops dir n rest i tc res :
    walkT (Join dir n) tc res → res ≠ Returned None →
    namesT dir (n :: rest) (EvLstat (Join dir n) (inr i) :: tc) res
| namesT_child_done dir n rest i tc tl res :
    walkT (Join dir n) tc (Returned None) → namesT dir rest tl res →
    namesT dir (n :: rest) (EvLstat (Join dir n) (inr i) :: tc ++ tl) res.

Scheme walkT_mut := Minimality for walkT Sort Prop
  with namesT_mut := Minimality for namesT Sort Prop.

(** The whole of [filepath.Walk], [Lstat] of the root included. *)
Inductive WalkT (root : path) : list Event → walkres → Prop :=
| WalkT_root_error e tv r :
    V root (Some e) tv r →
    WalkT root (EvLstat root (inl e) :: tv) (Returned r)
| WalkT_root i tc res :
    walkT root tc res →
    WalkT root (EvLstat root (inr i) :: tc) res.

Context {C : Type} (fn : WalkFunc (W := World) (C := C)).

Hypothesis fn_spec : ∀ p info err c w r c' w',
  fn p info err (c, w) = (r, (c', w')) → ∃ tv, extends w w' tv ∧ V p err tv r.

Lemma walkNames_walkT (rec : path → FileInfo → M (C * World) walkres) (dir : path) :
  (∀ p i c w res c' w', rec p i (c, w) = (res, (c', w')) →
     ∃ tr, extends w w' tr ∧ walkT p tr res) →
  ∀ names c w res c' w',
    walkNames rec fn dir names (c, w) = (res, (c', w')) →
    ∃ tr, extends w w' tr ∧ namesT dir names tr res.
Proof.
  intros Hrec. induction names as [|n rest IH]; intros c w res c' w'.
  { simpl. unfold ret. intros [= <- <- <-]. exists []. split; [apply extends_refl|].
    constructor. }
  simpl. unfold bind at 1. simpl.
  destruct (racy_lstat (Join dir n) w) as [r w1] eqn:Hl.
  apply racy_lstat_extends in Hl. destruct r as [e|i].
  - unfold bind.
    destruct (fn (Join dir n) None (Some e) (c, w1)) as [r [c2 w2]] eqn:Hfn.
    destruct (fn_spec _ _ _ _ _ _ _ _ Hfn) as (tv & Hev & HV).
    destruct r as [e'|].
    + unfold ret. intros [= <- <- <-]. eexists. split; [by eapply extends_trans|].
      by constructor.
    + intros Hrest. destruct (IH _ _ _ _ _ Hrest) as (tl & Hel & Hnt).
      exists ([EvLstat (Join dir n) (inl e)] ++ tv ++ tl).
      split; [eapply extends_trans; [done|]; by eapply extends_trans|].
      simpl. by apply namesT_lstat_skipped.
  - unfold bind.
    destruct (rec (Join dir n) i (c, w1)) as [rc [c2 w2]] eqn:Hw.
    destruct (Hrec _ _ _ _ _ _ _ Hw) as (tc & Hec & Hwt).
    destruct rc as [|[e|]].
    + unfold ret. intros [= <- <- <-]. eexists. split; [by eapply extends_trans|].
      by apply namesT_child_stops.
    + unfold ret. intros [= <- <- <-]. eexists. split; [by eapply extends_trans|].
      by apply namesT_child_stops.
    + intros Hrest. destruct (IH _ _ _ _ _ Hrest) as (tl & Hel & Hnt).
      exists ([EvLstat (Join dir n) (inr i)] ++ tc ++ tl).
      split; [eapply extends_trans; [done|]; by eapply extends_trans|].
      simpl. by apply namesT_child_done.
Qed.

Lemma walk_walkT (f : nat) :
  ∀ p i c w res c' w', walk f fn p i (c, w) = (res, (c', w')) →
    ∃ tr, extends w w' tr ∧ walkT p tr res.
Proof.
  induction f as [|f IHf]; intros p i c w res c' w'.
  { simpl. unfold ret. intros [= <- <- <-]. exists []. split; [apply extends_refl|].
    constructor. }
  simpl. destruct (IsDir i); simpl.
  - unfold bind at 1. simpl.
    destruct (racy_readDirNames p w) as [r w1] eqn:Hr.
    pose proof (racy_readDirNames_extends _ _ _ _ Hr) as Her.
    destruct r as [e|names].
    + unfold bind.
      destruct (fn p (Some i) (Some e) (c, w1)) as [r [c2 w2]] eqn:Hfn.
      destruct (fn_spec _ _ _ _ _ _ _ _ Hfn) as (tv & Hev & HV).
      unfold ret. intros [= <- <- <-]. eexists. split; [by eapply extends_trans|].
      by constructor.
    + apply racy_readDirNames_NoDup in Hr. unfold bind.
      destruct (fn p (Some i) None (c, w1)) as [r [c2 w2]] eqn:Hfn.
      destruct (fn_spec _ _ _ _ _ _ _ _ Hfn) as (tv & Hev & HV).
      destruct r as [e|].
      * unfold ret. intros [= <- <- <-]. eexists. split; [by eapply extends_trans|].
        by constructor.
      * intros Hl.
        destruct (walkNames_walkT _ p (IHf) _ _ _ _ _ _ Hl) as (tl & Hel & Hnt).
        exists ([EvReadDir p (inr names)] ++ tv ++ tl).
        split; [eapply extends_trans; [done|]; by eapply extends_trans|].
        simpl. by apply walkT_dir.
  - unfold bind.
    destruct (fn p (Some i) None (c, w)) as [r [c2 w2]] eqn:Hfn.
    destruct (fn_spec _ _ _ _ _ _ _ _ Hfn) as (tv & Hev & HV).
    unfold ret. intros [= <- <- <-]. exists tv. split; [done|]. by constructor.
Qed.

Lemma Walk_WalkT (fuel : nat) (root : path) c w res c' w' :
  Walk fuel root fn (c, w) = (res, (c', w')) →
  ∃ tr, extends w w' tr ∧ WalkT root tr res.
Proof.
  unfold Walk. unfold bind at 1. simpl.
  destruct (racy_lstat root w) as [r w1] eqn:Hl.
  apply racy_lstat_extends in Hl. destruct r as [e|i].
  - unfold bind.
    destruct (fn root None (Some e) (c, w1)) as [r [c2 w2]] eqn:Hfn.
    destruct (fn_spec _ _ _ _ _ _ _ _ Hfn) as (tv & Hev & HV).
    unfold ret. intros [= <- <- <-]. eexists. split; [by eapply extends_trans|].
    by constructor.
  - intros Hw. destruct (walk_walkT _ _ _ _ _ _ _ _ Hw) as (tc & Hec & Hwt).
    eexists. split; [by eapply extends_trans|]. by constructor.
Qed.
End WalkTrace.

(** ** What the two callbacks do, as trace relations *)

Definition cleanupV (keep : bool) (p : path) (err : option error)
    (tv : list Event) (r : option error) : Prop :=
  match err with
  | Some e => tv = [] ∧ r = (if IsNotExist e then None else Some e)
  | None =>
      disciplined keep (λ d, d = p) tv ∧ noFailure tv
      ∧ (∀ e, r = Some e → IsNotExist e = false)
  end.

Definition validateV (p : path) (err : option error)
    (tv : list Event) (r : option error) : Prop :=
  match err with
  | Some e => tv = [] ∧ r = Some e
  | None => noFailure tv ∧ r = None
  end.

Lemma cleanupFn_cleanupV (keep : bool) (p : path) (info : option FileInfo)
    (err : option error) (c : unit) (w : World) (r : option error)
    (c' : unit) (w' : World) :
  cleanupFn keep p info err (c, w) = (r, (c', w')) →
  ∃ tv, extends w w' tv ∧ cleanupV keep p err tv r.
Proof.
  destruct c, c'. destruct err as [e|].
  - unfold cleanupFn, cleanupV. intros H. exists [].
    destruct (IsNotExist e); unfold ret in H; injection H as <- <-;
      (split; [apply extends_refl|done]).
  - intros H. destruct (cleanupFn_racy _ _ _ _ _ _ H) as (tv & ? & ? & ? & ?).
    by exists tv.
Qed.

Lemma validateConflicts_racy (root d : path) :
  ∀ (table : list StyleConflictPair) (acc : list string) (w : World) acc' w',
    validateConflicts root d table (acc, w) = (tt, (acc', w')) →
    ∃ tv, extends w w' tv ∧ noFailure tv.
Proof.
  assert (Hnil : noFailure []) by (intros ev Hev; by apply elem_of_nil in Hev).
  assert (Happ : ∀ t1 t2, noFailure t1 → noFailure t2 → noFailure (t1 ++ t2)).
  { intros t1 t2 H1 H2 ev [?|?]%elem_of_app; [by apply H1|by apply H2]. }
  assert (Hstat : ∀ p x, noFailure [EvStat p x]).
  { intros p x ev ->%list_elem_of_singleton. done. }
  induction table as [|c table IH]; intros acc w acc' w'.
  { simpl. unfold ret. intros [= <- <-]. exists []. split; [apply extends_refl|done]. }
  simpl. unfold bind at 1. unfold sys at 1.
  destruct (fileExists (Join d (GoZeroStyle c)) w) as [a w1] eqn:H1.
  destruct (fileExists_racy _ _ _ _ H1) as (r1 & He1 & ->).
  unfold bind at 1.
  destruct (statSaysFile r1).
  - unfold sys at 1.
    destruct (fileExists (Join d (GoZeroFlat c)) w1) as [b w2] eqn:H2.
    destruct (fileExists_racy _ _ _ _ H2) as (r2 & He2 & ->).
    unfold bind at 1.
    destruct (statSaysFile r2); simpl; intros Hrest;
      destruct (IH _ _ _ _ Hrest) as (tv & Hev & Hnf);
      (eexists; split;
        [eapply extends_trans; [done|]; by eapply extends_trans|]);
      auto.
  - unfold ret at 1. unfold bind at 1. simpl. intros Hrest.
    destruct (IH _ _ _ _ Hrest) as (tv & Hev & Hnf).
    eexists. split; [by eapply extends_trans|]. auto.
Qed.

Lemma validateFn_validateV (root p : path) (info : option FileInfo)
    (err : option error) (c : list string) (w : World) (r : option error)
    (c' : list string) (w' : World) :
  validateFn root p info err (c, w) = (r, (c', w')) →
  ∃ tv, extends w w' tv ∧ validateV p err tv r.
Proof.
  assert (Hnil : noFailure []) by (intros ev Hev; by apply elem_of_nil in Hev).
  unfold validateFn. destruct err as [e|].
  { unfold ret. intros [= <- <- <-]. exists []. split; [apply extends_refl|done]. }
  destruct info as [i|].
  2: { unfold ret. intros [= <- <- <-]. exists []. split; [apply extends_refl|done]. }
  destruct (IsDir i); cbn [negb].
  2: { unfold ret. intros [= <- <- <-]. exists []. split; [apply extends_refl|done]. }
  unfold bind.
  destruct (validateConflicts root p knownStyleConflicts (c, w)) as [[] [acc1 w1]] eqn:Hv.
  unfold ret. intros [= <- <- <-].
  destruct (validateConflicts_racy _ _ _ _ _ _ _ Hv) as (tv & ? & ?). by exists tv.
Qed.

(** ** Removal discipline of a whole cleanup walk *)

Section DisciplinedWalk.
Variable keep : bool.

Lemma disciplined_weaken (scope scope' : path → Prop) (tr : list Event) :
  (∀ d, scope d → scope' d) → disciplined keep scope tr → disciplined keep scope' tr.
Proof. intros Hsub [H1 H2]. split; [by eapply removesChecked_weaken|done]. Qed.

Lemma disciplined_cons (scope : path → Prop) (ev : Event) (tr : list Event) :
  removeTargets [ev] = [] → disciplined keep scope tr → disciplined keep scope (ev :: tr).
Proof.
  intros Hev Htr. change (ev :: tr) with ([ev] ++ tr).
  eapply (disciplined_app keep scope (λ _, False) scope); try done.
  by apply disciplined_none.
Qed.

Lemma walkT_disciplined (p : path) (tr : list Event) (res : walkres) :
  walkT (cleanupV keep) p tr res → disciplined keep (λ d, p `prefix_of` d) tr.
Proof.
  revert p tr res.
  apply (walkT_mut (cleanupV keep)
           (λ p tr _, disciplined keep (λ d, p `prefix_of` d) tr)
           (λ dir names tr _, NoDup names → disciplined keep (belowNames dir names) tr)).
  - intros p. by apply disciplined_none.
  - intros p tv r (Hd & _ & _). eapply disciplined_weaken; [|done]. by intros d ->.
  - intros p e tv r [-> _]. by apply disciplined_none.
  - intros p names tv e (Hd & _ & _). apply disciplined_cons; [done|].
    eapply disciplined_weaken; [|done]. by intros d ->.
  - intros p names tv tl res Hnd (Hd & _ & _) _ IH. apply disciplined_cons; [done|].
    eapply disciplined_app; [done|by apply IH|..].
    + by intros d ->.
    + intros d (n & _ & Hpre). etrans; [|done]. by exists [n].
    + intros d -> (n & _ & Hpre). by apply prefix_snoc_ne in Hpre.
  - intros dir _. by apply disciplined_none.
  - intros dir n rest e tv e' [-> _] _. by apply disciplined_none.
  - intros dir n rest e tv tl res [-> _] _ IH [_ Hnd]%NoDup_cons.
    apply disciplined_cons; [done|]. simpl.
    eapply disciplined_weaken; [|by apply IH].
    intros d (n' & ? & ?). exists n'. split; [by right|done].
  - intros dir n rest i tc res _ IH _ _. apply disciplined_cons; [done|].
    eapply disciplined_weaken; [|done]. intros d Hpre. exists n. split; [by left|done].
  - intros dir n rest i tc tl res _ IHc _ IHl [Hn Hnd]%NoDup_cons.
    apply disciplined_cons; [done|].
    eapply disciplined_app; [done|by apply IHl|..].
    + intros d Hpre. exists n. split; [by left|done].
    + intros d (n' & ? & ?). exists n'. split; [by right|done].
    + intros d Hpre (n' & Hn' & Hpre'). unfold Join in Hpre.
      by rewrite (prefix_snoc_inj _ _ _ _ Hpre Hpre') in Hn.
Qed.

Lemma WalkT_disciplined (root : path) (tr : list Event) (res : walkres) :
  WalkT (cleanupV keep) root tr res → disciplined keep (λ d, root `prefix_of` d) tr.
Proof.
  intros [e tv r [-> _]|i tc res' Hw].
  - by apply disciplined_none.
  - apply disciplined_cons; [done|]. by eapply walkT_disciplined.
Qed.
End DisciplinedWalk.

(** ** How traversal errors flow through a walk *)

Section ErrorFlow.
(** [absorb e]: the callback swallows the incoming error [e]. *)
Variable absorb : error → bool.

(** - the walk never returns an error the callback absorbs;
    - a traversal failure that is not absorbed is the last call of the
      walk, and its error is what the walk returns;
    - an absorbed traversal failure after which no further call was made
      ends a walk that returns [nil]. *)
Definition errorFlow (tr : list Event) (res : walkres) : Prop :=
  (∀ e, res = Returned (Some e) → absorb e = false)
  ∧ (∀ pre ev post e, tr = pre ++ ev :: post → failure ev = Some e →
       absorb e = false → post = [] ∧ res = Returned (Some e))
  ∧ (∀ pre ev e, tr = pre ++ [ev] → failure ev = Some e →
       absorb e = true → res = Returned None).

Lemma errorFlow_quiet (tr : list Event) (res : walkres) :
  noFailure tr → (∀ e, res = Returned (Some e) → absorb e = false) →
  errorFlow tr res.
Proof.
  intros Hnf Hres. split; [done|]. split.
  - intros pre ev post e -> Hf. rewrite Hnf in Hf; [done|].
    apply elem_of_app. right. by left.
  - intros pre ev e -> Hf. rewrite Hnf in Hf; [done|].
    apply elem_of_app. right. by left.
Qed.

Lemma errorFlow_failed (ev : Event) (e : error) :
  failure ev = Some e →
  errorFlow [ev] (Returned (if absorb e then None else Some e)).
Proof.
  intros Hf. split; [|split].
  - intros e'. destruct (absorb e) eqn:Ha; [done|]. by intros [= <-].
  - intros pre ev' post e' Heq Hf' Ha.
    destruct pre as [|x pre]; [|by destruct pre].
    injection Heq as <- <-. rewrite Hf in Hf'. injection Hf' as <-.
    by rewrite Ha.
  - intros pre ev' e' Heq Hf' Ha.
    destruct pre as [|x pre]; [|by destruct pre].
    injection Heq as <-. rewrite Hf in Hf'. injection Hf' as <-.
    by rewrite Ha.
Qed.

Lemma errorFlow_seq (t1 t2 : list Event) (res : walkres) :
  errorFlow t1 (Returned None) → errorFlow t2 res →
  (t2 = [] → res = Returned None) →
  errorFlow (t1 ++ t2) res.
Proof.
  intros (_ & H1 & _) (Hres & H2 & H3) Hside. split; [done|]. split.
  - intros pre ev post e Heq Hf Ha.
    apply app_eq_inv in Heq as [(l & -> & Hl)|(l & -> & ->)].
    + destruct l as [|x l].
      * simpl in Hl. subst t2. by apply (H2 [] ev post e).
      * injection Hl as <- ->. by destruct (H1 pre ev l e eq_refl Hf Ha).
    + by apply (H2 l ev post e).
  - intros pre ev e Heq Hf Ha.
    apply app_eq_inv in Heq as [(l & -> & Hl)|(l & -> & ->)].
    + destruct l as [|x l].
      * simpl in Hl. subst t2. by apply (H3 [] ev e).
      * injection Hl as <- Hl. symmetry in Hl. apply app_eq_nil in Hl as [_ ->].
        by apply Hside.
    + by apply (H3 l ev e).
Qed.

Lemma errorFlow_after_quiet (t1 t2 : list Event) (res : walkres) :
  noFailure t1 → errorFlow t2 res → errorFlow (t1 ++ t2) res.
Proof.
  intros Hnf (Hres & H2 & H3). split; [done|]. split.
  - intros pre ev post e Heq Hf Ha.
    apply app_eq_inv in Heq as [(l & -> & Hl)|(l & -> & ->)].
    + destruct l as [|x l].
      * simpl in Hl. subst t2. by apply (H2 [] ev post e).
      * injection Hl as <- ->. rewrite Hnf in Hf; [done|].
        apply elem_of_app. right. by left.
    + by apply (H2 l ev post e).
  - intros pre ev e Heq Hf Ha.
    apply app_eq_inv in Heq as [(l & -> & Hl)|(l & -> & ->)].
    + destruct l as [|x l].
      * simpl in Hl. subst t2. by apply (H3 [] ev e).
      * injection Hl as <- Hl. rewrite Hnf in Hf; [done|].
        apply elem_of_app. right. by left.
    + by apply (H3 l ev e).
Qed.

Lemma errorFlow_cons (ev : Event) (tr : list Event) (res : walkres) :
  failure ev = None → errorFlow tr res → errorFlow (ev :: tr) res.
Proof.
  intros Hf Htr. change (ev :: tr) with ([ev] ++ tr).
  apply errorFlow_after_quiet; [|done]. by apply noFailure_cons, noFailure_nil.
Qed.

Variable V : path → option error → list Event → option error → Prop.

Definition callbackFlow : Prop :=
  (∀ p e tv r, V p (Some e) tv r →
     tv = [] ∧ r = (if absorb e then None else Some e))
  ∧ (∀ p tv r, V p None tv r →
     noFailure tv ∧ ∀ e, r = Some e → absorb e = false).

Hypothesis V_flow : callbackFlow.

Lemma walkT_errorFlow (p : path) (tr : list Event) (res : walkres) :
  walkT V p tr res → errorFlow tr res.
Proof.
  destruct V_flow as [Verr Vok].
  revert p tr res.
  apply (walkT_mut V
           (λ _ tr res, errorFlow tr res)
           (λ _ _ tr res, errorFlow tr res ∧ (tr = [] → res = Returned None))).
  - intros p. by apply errorFlow_quiet; [apply noFailure_nil|].
  - intros p tv r [Hnf Hr]%Vok. apply errorFlow_quiet; [done|].
    intros e [= ->]. by apply Hr.
  - intros p e tv r [-> ->]%Verr. by apply errorFlow_failed.
  - intros p names tv e [Hnf Hr]%Vok. apply errorFlow_quiet.
    + by apply noFailure_cons.
    + intros e' [= <-]. by apply Hr.
  - intros p names tv tl res _ [Hnf _]%Vok _ [IH _].
    change (EvReadDir p (inr names) :: tv ++ tl)
      with ((EvReadDir p (inr names) :: tv) ++ tl).
    apply errorFlow_after_quiet; [|done]. by apply noFailure_cons.
  - intros dir. split; [|done]. by apply errorFlow_quiet; [apply noFailure_nil|].
  - intros dir n rest e tv e' [-> Hr]%Verr. split; [|done].
    destruct (absorb e) eqn:Ha; [done|]. injection Hr as ->.
    pose proof (errorFlow_failed (EvLstat (Join dir n) (inl e)) e eq_refl) as H.
    by rewrite Ha in H.
  - intros dir n rest e tv tl res [-> Hr]%Verr _ [IH Hside]. split; [|done].
    destruct (absorb e) eqn:Ha; [|done]. simpl.
    change (EvLstat (Join dir n) (inl e) :: tl)
      with ([EvLstat (Join dir n) (inl e)] ++ tl).
    apply errorFlow_seq; [|done..].
    pose proof (errorFlow_failed (EvLstat (Join dir n) (inl e)) e eq_refl) as H.
    by rewrite Ha in H.
  - intros dir n rest i tc res _ IH _. split; [|done]. by apply errorFlow_cons.
  - intros dir n rest i tc tl res _ IHc _ [IHl Hside]. split; [|done].
    apply errorFlow_cons; [done|]. by apply errorFlow_seq.
Qed.

Lemma WalkT_errorFlow (root : path) (tr : list Event) (res : walkres) :
  WalkT V root tr res → errorFlow tr res.
Proof.
  destruct V_flow as [Verr Vok].
  intros [e tv r [-> ->]%Verr|i tc res' Hw].
  - by apply errorFlow_failed.
  - apply errorFlow_cons; [done|]. by apply (walkT_errorFlow root).
Qed.
End ErrorFlow.

Lemma cleanupV_flow (keep : bool) : callbackFlow IsNotExist (cleanupV keep).
Proof.
  split.
  - by intros p e tv r [-> ->].
  - by intros p tv r (_ & ? & ?).
Qed.

Lemma validateV_flow : callbackFlow (λ _, false) validateV.
Proof.
  split.
  - by intros p e tv r [-> ->].
  - intros p tv r [? ->]. done.
Qed.

(* ===================================================================== *)
(** * The claims about a file system that others change too *)
(* ===================================================================== *)

(** [sampleTree], with an external process that deletes the flat-named
    file of [proj/api] after the callback has seen both halves there and
    before it looks again (the ninth system call of a cleanup). *)
Definition racingWorld : World :=
  mkWorld sampleTree
    (replicate 8 [] ++ [[ExtDel ["proj"; "api"; "servicecontext.go"]]]) [].

(** [sampleTree], with an external process that deletes the directory
    [proj/cmd] after [proj] has been listed and before the walk reaches
    [proj/cmd]: before the twelfth system call of a cleanup, and before
    the tenth of a validation. *)
Definition vanishing (calls : nat) : World :=
  mkWorld sampleTree
    (replicate calls []
       ++ [[ExtDel ["proj"; "cmd"; "servicecontext.go"]; ExtDel ["proj"; "cmd"]]]) [].

Definition cmdNotFound : error := PathError "lstat" ["proj"; "cmd"] ENOENT.

Example cleanup_skips_vanished_file :
  let run := CleanupStyleConflicts 5 ["proj"] "go_zero" racingWorld in
  run.1 = Returned None
  ∧ removeTargets (trace run.2) = [["proj"; "internal"; "svc"; "servicecontext.go"]]
  ∧ trace run.2 !! 8
    = Some (EvStat ["proj"; "api"; "servicecontext.go"]
              (inl (PathError "stat" ["proj"; "api"; "servicecontext.go"] ENOENT))).
Proof. repeat split; evaluate. Qed.

Example cleanup_survives_vanished_directory :
  let run := CleanupStyleConflicts 5 ["proj"] "go_zero" (vanishing 11) in
  run.1 = Returned None
  ∧ trace run.2 !! 12 = Some (EvLstat ["proj"; "cmd"] (inl cmdNotFound))
  ∧ removeTargets (trace run.2)
    = [["proj"; "api"; "servicecontext.go"];
       ["proj"; "internal"; "svc"; "servicecontext.go"]].
Proof. repeat split; evaluate. Qed.

Lemma NoDup_all_equal {A} (l : list A) (y : A) :
  NoDup l → (∀ x, x ∈ l → x = y) → length l ≤ 1.
Proof.
  intros Hnd Hall. destruct l as [|a [|b l]]; simpl; [lia..|].
  apply NoDup_cons in Hnd as [Hn _]. destruct Hn.
  rewrite (Hall a), (Hall b); [by left|by right; left|by left].
Qed.

(** C6.  Whatever an external process does to the tree meanwhile, in one
    run of [CleanupStyleConflicts]:
    - for every directory and every known pair, [os.Remove] is called on
      at most one of the two files of that pair in that directory, and
      never on the file of the selected style;
    - every [os.Remove] call is on the unselected file of a known pair in
      a directory of the tree, and the three calls just before it are
      the checks that found both halves to exist and the re-check that
      found the file to remove still there;
    - when the re-check finds the file gone, the callback makes no
      further call for that pair and returns [nil]. *)
Theorem cleanup_removal_discipline (fuel : nat) (projectPath : path) (style : string)
    (w w' : World) (res : walkres) :
  CleanupStyleConflicts fuel projectPath style w = (res, w') →
  let keep := String.eqb style "go_zero" in
  (∃ tr, trace w' = trace w ++ tr
     ∧ (∀ d c, c ∈ knownStyleConflicts →
          length (filter (λ k, k = Join d (GoZeroStyle c) ∨ k = Join d (GoZeroFlat c))
                         (removeTargets tr)) ≤ 1
          ∧ Join d (kept keep c) ∉ removeTargets tr)
     ∧ (∀ pre k r post, tr = pre ++ EvRemove k r :: post →
          ∃ d c, projectPath `prefix_of` d ∧ c ∈ knownStyleConflicts
                 ∧ k = Join d (loser keep c) ∧ checkedBefore d c k pre))
  ∧ (∀ (W : Type) (OSW : OS W) (dir : path) (info : FileInfo) (c : StyleConflictPair)
       (v v1 v2 v3 : W),
       IsDir info = true → c ∈ knownStyleConflicts →
       fileExists (Join dir (GoZeroStyle c)) v = (true, v1) →
       fileExists (Join dir (GoZeroFlat c)) v1 = (true, v2) →
       fileExists (Join dir (loser keep c)) v2 = (false, v3) →
       cleanupFn keep dir (Some info) None (tt, v) = (None, (tt, v3))).
Proof.
  intros Hc keep. split.
  - revert Hc. unfold CleanupStyleConflicts. fold keep.
    destruct (Walk fuel projectPath (cleanupFn keep) (tt, w)) as [r [[] w1]] eqn:Hw.
    intros [= -> ->].
    destruct (Walk_WalkT (cleanupV keep) (cleanupFn keep) (cleanupFn_cleanupV keep)
                _ _ _ _ _ _ _ Hw) as (tr & Hext & HT).
    destruct (WalkT_disciplined keep _ _ _ HT) as [Hchk Hnd].
    exists tr. split; [done|]. split; [|done].
    intros d c Hk.
    assert (Hkept : Join d (kept keep c) ∉ removeTargets tr).
    { intros Hin.
      destruct (removeTargets_scope keep _ _ _ Hchk Hin) as (d' & c' & _ & Hk' & Heq).
      apply app_inj_tail in Heq as [_ Heq]. by apply kept_not_loser in Heq. }
    split; [|done].
    apply (NoDup_all_equal _ (Join d (loser keep c))); [by apply NoDup_filter|].
    intros x [Hx Hin]%list_elem_of_filter.
    destruct keep; simpl in *; destruct Hx as [->| ->]; done.
  - intros W OSW dir info c v v1 v2 v3 Hd ->%list_elem_of_singleton H1 H2 H3.
    unfold cleanupFn. rewrite Hd. cbn [negb]. unfold sys.
    cbn [cleanupConflicts knownStyleConflicts]. unfold bind.
    cbn [GoZeroStyle GoZeroFlat] in *. rewrite H1, H2. cbn [andb].
    replace (if keep then Join dir "servicecontext.go" else Join dir "service_context.go")
      with (Join dir (loser keep {| GoZeroStyle := "service_context.go";
                                    GoZeroFlat := "servicecontext.go" |}))
      by (by destruct keep).
    by rewrite H3.
Qed.

Lemma cleanup_removal_discipline_witness :
  let run := CleanupStyleConflicts 5 ["proj"] "go_zero" racingWorld in
  (∀ d c, c ∈ knownStyleConflicts →
     length (filter (λ k, k = Join d (GoZeroStyle c) ∨ k = Join d (GoZeroFlat c))
                    (removeTargets (trace run.2))) ≤ 1
     ∧ Join d (kept true c) ∉ removeTargets (trace run.2))
  ∧ (∀ pre k r post, trace run.2 = pre ++ EvRemove k r :: post →
       ∃ d c, ["proj"] `prefix_of` d ∧ c ∈ knownStyleConflicts
              ∧ k = Join d (loser true c) ∧ checkedBefore d c k pre).
Proof.
  intros run.
  destruct (cleanup_removal_discipline 5 ["proj"] "go_zero" racingWorld run.2 run.1
              (surjective_pairing run)) as [(tr & Htr & H1 & H2) _].
  change (trace racingWorld ++ tr) with tr in Htr. rewrite Htr. by split.
Defined.

(** ** A walk that returns [nil] has looked at every entry it listed *)

(** The callback's own calls: [Stat] and [os.Remove], nothing else. *)
Definition isCheck (ev : Event) : bool :=
  match ev with
  | EvStat _ _ | EvRemove _ _ => true
  | _ => false
  end.

(** Every name of every directory listing of [tr] was given to [Lstat]. *)
Definition visitsAll (tr : list Event) : Prop :=
  ∀ dir names n, EvReadDir dir (inr names) ∈ tr → n ∈ names →
    ∃ r, EvLstat (Join dir n) r ∈ tr.

Lemma cleanupConflicts_checks (keep : bool) (d : path) :
  ∀ (conflicts : list StyleConflictPair) (w w' : World) (r : option error),
    cleanupConflicts keep d conflicts w = (r, w') →
    ∃ tr, extends w w' tr ∧ Forall (λ ev, isCheck ev = true) tr.
Proof.
  induction conflicts as [|c rest IH]; intros w w' r.
  { simpl. unfold ret. intros [= <- <-]. exists []. split; [apply extends_refl|done]. }
  simpl. unfold bind at 1.
  destruct (fileExists (Join d (GoZeroStyle c)) w) as [b1 w1] eqn:H1.
  destruct (fileExists_racy _ _ _ _ H1) as (r1 & He1 & ->).
  unfold bind at 1.
  destruct (fileExists (Join d (GoZeroFlat c)) w1) as [b2 w2] eqn:H2.
  destruct (fileExists_racy _ _ _ _ H2) as (r2 & He2 & ->).
  pose proof (extends_trans _ _ _ _ _ He1 He2) as He12. simpl in He12.
  assert (Hfin : ∀ (pre : list Event) (wm : World),
    extends w wm pre → Forall (λ ev, isCheck ev = true) pre →
    cleanupConflicts keep d rest wm = (r, w') →
    ∃ tr, extends w w' tr ∧ Forall (λ ev, isCheck ev = true) tr).
  { intros pre wm Hpre Hok Hrest.
    destruct (IH _ _ _ Hrest) as (tr & Het & Hch).
    exists (pre ++ tr). split; [by eapply extends_trans|]. by apply Forall_app. }
  destruct (statSaysFile r1 && statSaysFile r2).
  2: { intros Hrest. eapply Hfin; [done| |done]. by repeat constructor. }
  unfold bind at 1.
  destruct (fileExists _ w2) as [b3 w3] eqn:H3.
  destruct (fileExists_racy _ _ _ _ H3) as (r3 & He3 & ->).
  pose proof (extends_trans _ _ _ _ _ He12 He3) as He123. simpl in He123.
  destruct (statSaysFile r3).
  2: { intros Hrest. eapply Hfin; [done| |done]. by repeat constructor. }
  unfold bind at 1. simpl.
  destruct (racy_remove _ w3) as [err w4] eqn:H4.
  apply racy_remove_extends in H4.
  pose proof (extends_trans _ _ _ _ _ He123 H4) as He1234. simpl in He1234.
  destruct err as [e|].
  - unfold ret. intros [= <- <-]. eexists. split; [done|]. by repeat constructor.
  - intros Hrest. eapply Hfin; [done| |done]. by repeat constructor.
Qed.

Definition cleanupChecks (keep : bool) (p : path) (err : option error)
    (tv : list Event) (r : option error) : Prop :=
  Forall (λ ev, isCheck ev = true) tv.

Lemma cleanupFn_cleanupChecks (keep : bool) (p : path) (info : option FileInfo)
    (err : option error) (c : unit) (w : World) (r : option error)
    (c' : unit) (w' : World) :
  cleanupFn keep p info err (c, w) = (r, (c', w')) →
  ∃ tv, extends w w' tv ∧ cleanupChecks keep p err tv r.
Proof.
  destruct c, c'. unfold cleanupFn, cleanupChecks.
  assert (Hnop : ∀ r0 : option error, (r0, (tt, w)) = (r, (tt, w')) →
    ∃ tv, extends w w' tv ∧ Forall (λ ev, isCheck ev = true) tv).
  { intros r0 [= _ <-]. exists []. split; [apply extends_refl|done]. }
  destruct err as [e|]; [destruct (IsNotExist e); by apply Hnop|].
  destruct info as [i|]; [|by apply Hnop].
  destruct (IsDir i); cbn [negb]; [|by apply Hnop].
  unfold sys. destruct (cleanupConflicts keep p knownStyleConflicts w) as [r1 w1] eqn:Hv.
  intros [= <- <-]. by eapply cleanupConflicts_checks.
Qed.

Lemma checks_no_listing (tv : list Event) (dir : path) (names : list string) :
  Forall (λ ev, isCheck ev = true) tv → EvReadDir dir (inr names) ∉ tv.
Proof.
  intros Hall Hin. rewrite Forall_forall in Hall. by apply Hall in Hin.
Qed.

Lemma walkT_visitsAll (keep : bool) (p : path) (tr : list Event) (res : walkres) :
  walkT (cleanupChecks keep) p tr res → res = Returned None → visitsAll tr.
Proof.
  revert p tr res.
  apply (walkT_mut (cleanupChecks keep)
           (λ _ tr res, res = Returned None → visitsAll tr)
           (λ dir names tr res, res = Returned None →
              visitsAll tr ∧ ∀ n, n ∈ names → ∃ r, EvLstat (Join dir n) r ∈ tr));
    unfold cleanupChecks.
  - done.
  - intros p tv r Hv _ dir names n Hin. by apply checks_no_listing in Hin.
  - intros p e tv r Hv _ dir names n [[=]|Hin]%elem_of_cons.
    by apply checks_no_listing in Hin.
  - done.
  - intros p names tv tl res _ Hv _ IH Hres. destruct (IH Hres) as [Hvis Hnames].
    intros dir names' n [[= -> ->]|[Hin|Hin]%elem_of_app]%elem_of_cons Hn.
    + destruct (Hnames n Hn) as [r Hr]. exists r. right. apply elem_of_app. by right.
    + by apply checks_no_listing in Hin.
    + destruct (Hvis dir names' n Hin Hn) as [r Hr]. exists r. right.
      apply elem_of_app. by right.
  - intros dir _. split; [|intros n Hn; by apply elem_of_nil in Hn].
    intros d names n Hin. by apply elem_of_nil in Hin.
  - done.
  - intros dir n rest e tv tl res Hv _ IH Hres. destruct (IH Hres) as [Hvis Hnames].
    split.
    + intros d names' n' [[=]|[Hin|Hin]%elem_of_app]%elem_of_cons Hn.
      * by apply checks_no_listing in Hin.
      * destruct (Hvis d names' n' Hin Hn) as [r Hr]. exists r. right.
        apply elem_of_app. by right.
    + intros n' [->|Hn']%elem_of_cons; [eexists; by left|].
      destruct (Hnames n' Hn') as [r Hr]. exists r. right. apply elem_of_app. by right.
  - intros dir n rest i tc res _ _ Hne Hres. by destruct Hne.
  - intros dir n rest i tc tl res _ IHc _ IH Hres. destruct (IH Hres) as [Hvis Hnames].
    split.
    + intros d names' n' [[=]|[Hin|Hin]%elem_of_app]%elem_of_cons Hn.
      * destruct (IHc eq_refl d names' n' Hin Hn) as [r Hr]. exists r. right.
        apply elem_of_app. by left.
      * destruct (Hvis d names' n' Hin Hn) as [r Hr]. exists r. right.
        apply elem_of_app. by right.
    + intros n' [->|Hn']%elem_of_cons; [eexists; by left|].
      destruct (Hnames n' Hn') as [r Hr]. exists r. right. apply elem_of_app. by right.
Qed.

Lemma WalkT_visitsAll (keep : bool) (root : path) (tr : list Event) (res : walkres) :
  WalkT (cleanupChecks keep) root tr res → res = Returned None → visitsAll tr.
Proof.
  intros [e tv r Hv|i tc res' Hw] Hres.
  - intros dir names n [[=]|Hin]%elem_of_cons. by apply checks_no_listing in Hin.
  - intros dir names n [[=]|Hin]%elem_of_cons Hn.
    destruct (walkT_visitsAll _ _ _ _ Hw Hres dir names n Hin Hn) as [r Hr].
    exists r. by right.
Qed.

(** ** After an absorbed failure the walk goes to another entry *)

(** After a failed [Lstat] or directory listing whose error is a
    not-found error, the run makes no further call or its next call is
    the [Lstat] of an entry. *)
Definition goesOn (tr : list Event) : Prop :=
  ∀ pre ev e post, tr = pre ++ ev :: post → failure ev = Some e →
    IsNotExist e = true →
    post = [] ∨ ∃ q r post', post = EvLstat q r :: post'.

Definition lstatFirst (tr : list Event) : Prop :=
  tr = [] ∨ ∃ q r t, tr = EvLstat q r :: t.

Lemma goesOn_quiet (tr : list Event) : noFailure tr → goesOn tr.
Proof.
  intros Hnf pre ev e post -> Hf. rewrite Hnf in Hf; [done|].
  apply elem_of_app. right. by left.
Qed.

Lemma goesOn_one (ev : Event) : goesOn [ev].
Proof.
  intros pre ev' e post Heq _ _. left.
  destruct pre as [|x pre]; [by injection Heq|by destruct pre].
Qed.

Lemma goesOn_app (t1 t2 : list Event) :
  goesOn t1 → goesOn t2 → lstatFirst t2 → goesOn (t1 ++ t2).
Proof.
  intros H1 H2 Hfirst pre ev e post Heq Hf Ha.
  apply app_eq_inv in Heq as [(l & -> & Hl)|(l & -> & ->)].
  - destruct l as [|x l].
    + simpl in Hl. subst t2. by apply (H2 [] ev e post).
    + injection Hl as <- ->.
      destruct (H1 pre ev e l eq_refl Hf Ha) as [->|(q & r & post' & ->)].
      * simpl. destruct Hfirst as [->|(q & r & t & ->)]; [by left|right; eauto].
      * right. by exists q, r, (post' ++ t2).
  - by apply (H2 l ev e post).
Qed.

Lemma goesOn_cons (ev : Event) (tr : list Event) :
  failure ev = None → goesOn tr → goesOn (ev :: tr).
Proof.
  intros Hev Htr pre ev' e post Heq Hf Ha. destruct pre as [|x pre].
  - injection Heq as <- <-. congruence.
  - injection Heq as <- ->. by apply (Htr pre ev' e post).
Qed.

Lemma walkT_goesOn (keep : bool) (p : path) (tr : list Event) (res : walkres) :
  walkT (cleanupV keep) p tr res → goesOn tr.
Proof.
  revert p tr res.
  apply (walkT_mut (cleanupV keep)
           (λ _ tr _, goesOn tr)
           (λ _ _ tr _, goesOn tr ∧ lstatFirst tr)).
  - intros p. by apply goesOn_quiet, noFailure_nil.
  - intros p tv r (_ & Hnf & _). by apply goesOn_quiet.
  - intros p e tv r [-> _]. apply goesOn_one.
  - intros p names tv e (_ & Hnf & _). apply goesOn_cons; [done|].
    by apply goesOn_quiet.
  - intros p names tv tl res _ (_ & Hnf & _) _ [IH Hfirst].
    apply goesOn_cons; [done|]. apply goesOn_app; [by apply goesOn_quiet|done..].
  - intros dir. split; [by apply goesOn_quiet, noFailure_nil|by left].
  - intros dir n rest e tv e' [-> _]. split; [apply goesOn_one|right; eauto].
  - intros dir n rest e tv tl res [-> _] _ [IH Hfirst]. split; [|right; eauto].
    by apply (goesOn_app [_] tl (goesOn_one _)).
  - intros dir n rest i tc res _ IH _. split; [|right; eauto].
    by apply goesOn_cons.
  - intros dir n rest i tc tl res _ IHc _ [IH Hfirst]. split; [|right; eauto].
    apply goesOn_cons; [done|]. by apply goesOn_app.
Qed.

Lemma WalkT_goesOn (keep : bool) (root : path) (tr : list Event) (res : walkres) :
  WalkT (cleanupV keep) root tr res → goesOn tr.
Proof.
  intros [e tv r [-> _]|i tc res' Hw].
  - apply goesOn_one.
  - apply goesOn_cons; [done|]. by eapply walkT_goesOn.
Qed.

(** C4 (as amended).  In [CleanupStyleConflicts] a not-found error of the
    walk neither aborts the walk nor reaches the caller; any other
    traversal error aborts it and is returned.  In
    [ValidateNoStyleConflicts] every traversal error, not-found included,
    aborts the walk and is returned.

    Whatever an external process does to the tree meanwhile, over the
    trace of a run:
    - [CleanupStyleConflicts] never returns a not-found error; a failed
      [Lstat] or directory listing whose error is not a not-found error
      is the last call of the run and its error is returned; a run whose
      last call is a not-found failure returns [nil], and a not-found
      failure that is not the last call is followed at once by the
      [Lstat] of another entry; a run that returns [nil] has given every
      name of every directory it listed to [Lstat], the names that follow
      a vanished entry included;
    - in [ValidateNoStyleConflicts] every failed [Lstat] or directory
      listing is the last call of the run and its error is returned.

    On every implementation of the system calls, in the loop of the walk
    over the names of a directory:
    - when [Lstat] of an entry fails with a not-found error, the cleanup
      walk goes on with the names that remain; with any other error it
      returns that error at once;
    - when the listing of a directory fails with a not-found error, the
      cleanup walk of that directory returns [nil], after which the loop
      of the directory above goes on with the names that remain; with any
      other error it returns that error;
    - when [Lstat] of [projectPath] fails with a not-found error, cleanup
      returns [nil]; with any other error it returns that error;
    - in the validation walk each of these failures, whatever the error,
      is returned at once. *)
Theorem traversal_error_handling (fuel : nat) (projectPath : path) (style : string)
    (w : World) :
  (∀ res w', CleanupStyleConflicts fuel projectPath style w = (res, w') →
     ∃ tr, trace w' = trace w ++ tr
       ∧ (∀ e, res = Returned (Some e) → IsNotExist e = false)
       ∧ (∀ pre ev post e, tr = pre ++ ev :: post → failure ev = Some e →
            IsNotExist e = false → post = [] ∧ res = Returned (Some e))
       ∧ (∀ pre ev e, tr = pre ++ [ev] → failure ev = Some e →
            IsNotExist e = true → res = Returned None)
       ∧ (∀ pre ev e post, tr = pre ++ ev :: post → failure ev = Some e →
            IsNotExist e = true →
            post = [] ∨ ∃ q r post', post = EvLstat q r :: post')
       ∧ (res = Returned None →
          ∀ dir names n, EvReadDir dir (inr names) ∈ tr → n ∈ names →
            ∃ r, EvLstat (Join dir n) r ∈ tr))
  ∧ (∀ res w', ValidateNoStyleConflicts fuel projectPath w = (res, w') →
       ∃ tr, trace w' = trace w ++ tr
         ∧ (∀ pre ev post e, tr = pre ++ ev :: post → failure ev = Some e →
              post = [] ∧ res = Returned (Some e)))
  ∧ (∀ (W : Type) (OSW : OS W),
       let keep := String.eqb style "go_zero" in
       (∀ (rec : path → FileInfo → M (unit * W) walkres) (dir : path)
          (name : string) (rest : list string) (c : unit) (v : W) (e : error) (v1 : W),
          Lstat (Join dir name) v = (inl e, v1) →
          walkNames rec (cleanupFn keep) dir (name :: rest) (c, v)
          = if IsNotExist e
            then walkNames rec (cleanupFn keep) dir rest (c, v1)
            else (Returned (Some e), (c, v1)))
       ∧ (∀ (f : nat) (p : path) (info : FileInfo) (c : unit) (v : W)
            (e : error) (v1 : W),
            IsDir info = true → readDirNames p v = (inl e, v1) →
            walk (S f) (cleanupFn keep) p info (c, v)
            = (Returned (if IsNotExist e then None else Some e), (c, v1)))
       ∧ (∀ (rec : path → FileInfo → M (unit * W) walkres) (dir : path)
            (name : string) (rest : list string) (c : unit) (v : W)
            (info : FileInfo) (v1 : W) (s2 : unit * W),
            Lstat (Join dir name) v = (inr info, v1) →
            rec (Join dir name) info (c, v1) = (Returned None, s2) →
            walkNames rec (cleanupFn keep) dir (name :: rest) (c, v)
            = walkNames rec (cleanupFn keep) dir rest s2)
       ∧ (∀ (n : nat) (root : path) (v : W) (e : error) (v1 : W),
            Lstat root v = (inl e, v1) →
            CleanupStyleConflicts n root style v
            = (Returned (if IsNotExist e then None else Some e), v1))
       ∧ (∀ (rec : path → FileInfo → M (list string * W) walkres) (root dir : path)
            (name : string) (rest : list string) (acc : list string) (v : W)
            (e : error) (v1 : W),
            Lstat (Join dir name) v = (inl e, v1) →
            walkNames rec (validateFn root) dir (name :: rest) (acc, v)
            = (Returned (Some e), (acc, v1)))
       ∧ (∀ (f : nat) (root p : path) (info : FileInfo) (acc : list string) (v : W)
            (e : error) (v1 : W),
            IsDir info = true → readDirNames p v = (inl e, v1) →
            walk (S f) (validateFn root) p info (acc, v)
            = (Returned (Some e), (acc, v1)))
       ∧ (∀ (n : nat) (root : path) (v : W) (e : error) (v1 : W),
            Lstat root v = (inl e, v1) →
            ValidateNoStyleConflicts n root v = (Returned (Some e), v1))).
Proof.
  split; [|split].
  - intros res w'. unfold CleanupStyleConflicts.
    destruct (Walk fuel projectPath _ (tt, w)) as [r [[] w1]] eqn:Hw.
    intros [= -> ->].
    destruct (Walk_WalkT _ _ (cleanupFn_cleanupV _) _ _ _ _ _ _ _ Hw)
      as (tr & Hext & HT).
    destruct (Walk_WalkT _ _ (cleanupFn_cleanupChecks _) _ _ _ _ _ _ _ Hw)
      as (tr' & Hext' & HT').
    pose proof (extends_inj _ _ _ _ Hext' Hext) as ->.
    exists tr. split; [done|].
    pose proof (WalkT_goesOn _ _ _ _ HT) as Hgo.
    apply (WalkT_errorFlow IsNotExist _ (cleanupV_flow _)) in HT
      as (H1 & H2 & H3).
    split; [done|]. split; [done|]. split; [done|]. split; [done|].
    intros Hres. by eapply WalkT_visitsAll.
  - intros res w'. unfold ValidateNoStyleConflicts.
    destruct (Walk fuel projectPath _ ([], w)) as [r [acc w1]] eqn:Hw.
    destruct (Walk_WalkT _ _ (validateFn_validateV projectPath) _ _ _ _ _ _ _ Hw)
      as (tr & Hext & HT).
    apply (WalkT_errorFlow _ _ validateV_flow) in HT as (_ & Hfail & _).
    intros Hres. exists tr.
    assert (w' = w1) as ->.
    { destruct r as [|[e|]]; [by injection Hres..|].
      by case_decide; injection Hres. }
    split; [done|]. intros pre ev post e Heq Hf.
    destruct (Hfail pre ev post e Heq Hf eq_refl) as [-> ->]. split; [done|].
    by injection Hres.
  - intros W OSW keep. repeat split.
    + intros rec dir name rest c v e v1 Hl.
      cbn [walkNames]. unfold bind at 1. unfold sys at 1. rewrite Hl.
      unfold bind at 1. unfold cleanupFn at 1.
      by destruct (IsNotExist e).
    + intros f p info c v e v1 Hd Hr.
      cbn [walk]. rewrite Hd. cbn [negb]. unfold bind at 1. unfold sys at 1.
      rewrite Hr. unfold bind, cleanupFn. by destruct (IsNotExist e).
    + intros rec dir name rest c v info v1 s2 Hl Hrec.
      cbn [walkNames]. unfold bind at 1. unfold sys at 1. rewrite Hl.
      unfold bind at 1. by rewrite Hrec.
    + intros n root v e v1 Hl.
      unfold CleanupStyleConflicts, Walk. unfold bind at 1. unfold sys at 1.
      rewrite Hl. unfold bind, cleanupFn. by destruct (IsNotExist e).
    + intros rec root dir name rest acc v e v1 Hl.
      cbn [walkNames]. unfold bind at 1. unfold sys at 1. by rewrite Hl.
    + intros f root p info acc v e v1 Hd Hr.
      cbn [walk]. rewrite Hd. cbn [negb]. unfold bind at 1. unfold sys at 1.
      by rewrite Hr.
    + intros n root v e v1 Hl.
      unfold ValidateNoStyleConflicts, Walk. unfold bind at 1. unfold sys at 1.
      by rewrite Hl.
Qed.

Lemma traversal_error_handling_witness :
  let run := CleanupStyleConflicts 5 ["proj"] "go_zero" (vanishing 11) in
  ∃ tr, trace run.2 = tr
    ∧ (∀ e, run.1 = Returned (Some e) → IsNotExist e = false)
    ∧ (∀ pre ev post e, tr = pre ++ ev :: post → failure ev = Some e →
         IsNotExist e = false → post = [] ∧ run.1 = Returned (Some e))
    ∧ (∀ pre ev e, tr = pre ++ [ev] → failure ev = Some e →
         IsNotExist e = true → run.1 = Returned None)
    ∧ (∀ pre ev e post, tr = pre ++ ev :: post → failure ev = Some e →
         IsNotExist e = true →
         post = [] ∨ ∃ q r post', post = EvLstat q r :: post')
    ∧ (run.1 = Returned None →
       ∀ dir names n, EvReadDir dir (inr names) ∈ tr → n ∈ names →
         ∃ r, EvLstat (Join dir n) r ∈ tr).
Proof.
  intros run.
  destruct (traversal_error_handling 5 ["proj"] "go_zero" (vanishing 11)) as [H _].
  destruct (H run.1 run.2 (surjective_pairing run)) as (tr & Htr & Hrest).
  exists tr. split; [exact Htr|exact Hrest].
Defined.

(** C4, the claim as stated fails for the validator: when [proj/cmd]
    vanishes between the listing of [proj] and the visit, the validator
    stops at the failed [Lstat] and returns its not-found error; the
    conflict in [proj/internal/svc] is never looked at. *)
Lemma validate_aborts_on_vanished_directory :
  let run := ValidateNoStyleConflicts 5 ["proj"] (vanishing 9) in
  run.1 = Returned (Some cmdNotFound)
  ∧ IsNotExist cmdNotFound = true
  ∧ last (trace run.2) = Some (EvLstat ["proj"; "cmd"] (inl cmdNotFound)).
Proof. repeat split; evaluate. Qed.

(* ===================================================================== *)
(** * Without interference the racy file system is the quiet one *)
(* ===================================================================== *)

(** [w] holds the tree [fs] and no external change is pending. *)
Definition calm (w : World) (fs : FS) : Prop := files w = fs ∧ pending w = [].

(** The computation [mr] on a calm world does what [mq] does on its tree. *)
Definition mirrors {C A : Type} (mr : M (C * World) A) (mq : M (C * FS) A) : Prop :=
  ∀ c w fs, calm w fs →
    ∃ w', mr (c, w) = ((mq (c, fs)).1, ((mq (c, fs)).2.1, w')) ∧ calm w' (mq (c, fs)).2.2.

Definition mirrors0 {A : Type} (mr : M World A) (mq : M FS A) : Prop :=
  ∀ w fs, calm w fs → ∃ w', mr w = ((mq fs).1, w') ∧ calm w' (mq fs).2.

Lemma intrude_calm (w : World) (fs : FS) : calm w fs → intrude w = (fs, []).
Proof. intros [<- Hp]. unfold intrude. by rewrite Hp. Qed.

Lemma Lstat_calm (p : path) : mirrors0 (Lstat p) (Lstat p).
Proof.
  intros w fs Hc. simpl. unfold racy_lstat. rewrite (intrude_calm _ _ Hc).
  eexists. split; [done|]. by split.
Qed.

Lemma Stat_calm (p : path) : mirrors0 (Stat p) (Stat p).
Proof.
  intros w fs Hc. simpl. unfold racy_stat. rewrite (intrude_calm _ _ Hc).
  eexists. split; [done|]. by split.
Qed.

Lemma readDirNames_calm (p : path) : mirrors0 (readDirNames p) (readDirNames p).
Proof.
  intros w fs Hc. simpl. unfold racy_readDirNames. rewrite (intrude_calm _ _ Hc).
  eexists. split; [done|]. by split.
Qed.

Lemma Remove_calm (p : path) : mirrors0 (Remove p) (Remove p).
Proof.
  intros w fs Hc. simpl. unfold racy_remove. rewrite (intrude_calm _ _ Hc).
  destruct (fs_remove p fs) as [r fs']. eexists. split; [done|]. by split.
Qed.

Lemma mirrors0_ret {A : Type} (a : A) : mirrors0 (ret a) (ret a).
Proof. intros w fs Hc. by exists w. Qed.

Lemma mirrors0_bind {A B : Type} (mr : M World A) (mq : M FS A)
    (kr : A → M World B) (kq : A → M FS B) :
  mirrors0 mr mq → (∀ a, mirrors0 (kr a) (kq a)) →
  mirrors0 (bind mr kr) (bind mq kq).
Proof.
  intros Hm Hk w fs Hc. unfold bind.
  destruct (Hm w fs Hc) as (w1 & -> & Hc1).
  destruct (mq fs) as [a fs1]. simpl in *. by apply Hk.
Qed.

Lemma mirrors_ret {C A : Type} (a : A) : mirrors (C := C) (ret a) (ret a).
Proof. intros c w fs Hc. by exists w. Qed.

Lemma mirrors_bind {C A B : Type} (mr : M (C * World) A) (mq : M (C * FS) A)
    (kr : A → M (C * World) B) (kq : A → M (C * FS) B) :
  mirrors mr mq → (∀ a, mirrors (kr a) (kq a)) →
  mirrors (bind mr kr) (bind mq kq).
Proof.
  intros Hm Hk c w fs Hc. unfold bind.
  destruct (Hm c w fs Hc) as (w1 & -> & Hc1).
  destruct (mq (c, fs)) as [a [c1 fs1]]. simpl in *. by apply Hk.
Qed.

Lemma mirrors_sys {C A : Type} (mr : M World A) (mq : M FS A) :
  mirrors0 mr mq → mirrors (C := C) (sys mr) (sys mq).
Proof.
  intros Hm c w fs Hc. unfold sys.
  destruct (Hm w fs Hc) as (w1 & -> & Hc1).
  destruct (mq fs) as [a fs1]. simpl in *. by exists w1.
Qed.

Lemma fileExists_calm (p : path) : mirrors0 (fileExists p) (fileExists p).
Proof.
  unfold fileExists. apply mirrors0_bind; [apply Stat_calm|].
  intros [e|i]; apply mirrors0_ret.
Qed.

Lemma cleanupConflicts_calm (keep : bool) (d : path) :
  ∀ conflicts,
    mirrors0 (cleanupConflicts keep d conflicts) (cleanupConflicts keep d conflicts).
Proof.
  induction conflicts as [|c rest IH]; [apply mirrors0_ret|].
  cbn [cleanupConflicts].
  apply mirrors0_bind; [apply fileExists_calm|]. intros b1.
  apply mirrors0_bind; [apply fileExists_calm|]. intros b2.
  destruct (b1 && b2); [|done].
  apply mirrors0_bind; [apply fileExists_calm|]. intros [|]; [|done].
  apply mirrors0_bind; [apply Remove_calm|]. intros [e|]; [apply mirrors0_ret|done].
Qed.

Lemma cleanupFn_calm (keep : bool) (p : path) (info : option FileInfo)
    (err : option error) :
  mirrors (cleanupFn keep p info err) (cleanupFn keep p info err).
Proof.
  unfold cleanupFn. destruct err as [e|].
  { destruct (IsNotExist e); apply mirrors_ret. }
  destruct info as [i|]; [|apply mirrors_ret].
  destruct (negb (IsDir i)); [apply mirrors_ret|].
  apply mirrors_sys, cleanupConflicts_calm.
Qed.

Lemma validateConflicts_calm (root d : path) :
  ∀ table,
    mirrors (validateConflicts root d table) (validateConflicts root d table).
Proof.
  induction table as [|c rest IH]; [apply mirrors_ret|].
  cbn [validateConflicts].
  apply mirrors_bind; [apply mirrors_sys, fileExists_calm|]. intros a.
  apply mirrors_bind.
  { destruct a; [apply mirrors_sys, fileExists_calm|apply mirrors_ret]. }
  intros b. apply mirrors_bind; [|done].
  destruct b; [|apply mirrors_ret].
  intros acc w fs Hc. by exists w.
Qed.

Lemma validateFn_calm (root p : path) (info : option FileInfo) (err : option error) :
  mirrors (validateFn root p info err) (validateFn root p info err).
Proof.
  unfold validateFn. destruct err as [e|]; [apply mirrors_ret|].
  destruct info as [i|]; [|apply mirrors_ret].
  destruct (negb (IsDir i)); [apply mirrors_ret|].
  apply mirrors_bind; [apply validateConflicts_calm|]. intros _. apply mirrors_ret.
Qed.

Section CalmWalk.
Context {C : Type}.
Variable fnR : WalkFunc (W := World) (C := C).
Variable fnQ : WalkFunc (W := FS) (C := C).

Hypothesis fn_calm : ∀ p info err, mirrors (fnR p info err) (fnQ p info err).

Lemma walkNames_calm (recR : path → FileInfo → M (C * World) walkres)
    (recQ : path → FileInfo → M (C * FS) walkres) (dir : path) :
  (∀ p i, mirrors (recR p i) (recQ p i)) →
  ∀ names, mirrors (walkNames recR fnR dir names) (walkNames recQ fnQ dir names).
Proof.
  intros Hrec. induction names as [|n rest IH]; [apply mirrors_ret|].
  cbn [walkNames].
  apply mirrors_bind; [apply mirrors_sys, Lstat_calm|]. intros [e|i].
  - apply mirrors_bind; [apply fn_calm|]. intros [e'|]; [apply mirrors_ret|done].
  - apply mirrors_bind; [apply Hrec|]. intros [|[e'|]]; [apply mirrors_ret..|done].
Qed.

Lemma walk_calm (f : nat) : ∀ p i, mirrors (walk f fnR p i) (walk f fnQ p i).
Proof.
  induction f as [|f IHf]; intros p i; [apply mirrors_ret|].
  cbn [walk]. destruct (negb (IsDir i)).
  { apply mirrors_bind; [apply fn_calm|]. intros r. apply mirrors_ret. }
  apply mirrors_bind; [apply mirrors_sys, readDirNames_calm|]. intros [e|names].
  - apply mirrors_bind; [apply fn_calm|]. intros r. apply mirrors_ret.
  - apply mirrors_bind; [apply fn_calm|]. intros [e|]; [apply mirrors_ret|].
    by apply walkNames_calm.
Qed.

Lemma Walk_calm (fuel : nat) (root : path) :
  mirrors (Walk fuel root fnR) (Walk fuel root fnQ).
Proof.
  unfold Walk. apply mirrors_bind; [apply mirrors_sys, Lstat_calm|]. intros [e|i].
  - apply mirrors_bind; [apply fn_calm|]. intros r. apply mirrors_ret.
  - apply walk_calm.
Qed.
End CalmWalk.

(** While no external process interferes, cleanup and validation on the
    racy file system return what they return on the quiet one and leave
    the same tree. *)
Lemma CleanupStyleConflicts_calm (fuel : nat) (root : path) (style : string) :
  mirrors0 (CleanupStyleConflicts fuel root style) (CleanupStyleConflicts fuel root style).
Proof.
  intros w fs Hc. unfold CleanupStyleConflicts.
  destruct (Walk_calm _ _ (cleanupFn_calm (String.eqb style "go_zero"))
              fuel root tt w fs Hc) as (w' & -> & Hc').
  destruct (Walk fuel root _ (tt, fs)) as [res [[] fs']]. by exists w'.
Qed.

Lemma ValidateNoStyleConflicts_calm (fuel : nat) (root : path) :
  mirrors0 (ValidateNoStyleConflicts fuel root) (ValidateNoStyleConflicts fuel root).
Proof.
  intros w fs Hc. unfold ValidateNoStyleConflicts.
  destruct (Walk_calm _ _ (validateFn_calm root) fuel root [] w fs Hc) as (w' & -> & Hc').
  destruct (Walk fuel root _ ([], fs)) as [res [acc fs']]. simpl in *.
  destruct res as [|[e|]]; [by exists w'..|]. case_decide; by exists w'.
Qed.

(* ===================================================================== *)
(** * Cleanup on a quiet file system, whatever the outcome *)
(* ===================================================================== *)

(** The error the callback makes of a failed [os.Remove]:
    [fmt.Errorf("failed to remove conflicting file %s: %w", fileToRemove, err)]. *)
Definition removeFailed (k : path) (cause : error) : error :=
  wrapError ("failed to remove conflicting file " +:+ pathString k +:+ ": " +:+ Error cause)
            cause.

(** A directory at or below [p] stopped the walk with [e]: it may not be
    listed, or it may not be searched, so that [Lstat] of an entry of it
    failed. *)
Definition traversalBlocked (fs : FS) (p : path) (e : error) : Prop :=
  ∃ q j, p `prefix_of` q ∧ namei fs q = inr j ∧ IsDir j = true ∧
    ((Readable j = false ∧ e = PathError "open" q EACCES)
     ∨ (∃ n, Searchable j = false ∧ is_Some (fs !! (q ++ [n]))
             ∧ e = PathError "lstat" (q ++ [n]) EACCES)).

Section CleanupOutcome.
Variable keep : bool.

Local Abbreviation T := knownStyleConflicts.
Local Abbreviation fn := (cleanupFn (W := FS) keep).

(** [os.Remove] was refused in a directory at or below [p] that holds
    both halves of a pair and may not be written; [e] is the error made
    of the refusal. *)
Definition removalRefused (fs : FS) (p : path) (e : error) : Prop :=
  ∃ d c j, p `prefix_of` d ∧ c ∈ T ∧ conflictAt fs d c = true
    ∧ fs !! d = Some j ∧ Writable j = false
    ∧ e = removeFailed (d ++ [loser keep c])
            (PathError "remove" (d ++ [loser keep c]) EACCES).

Definition cleanup_outcome (fs' : FS) (p : path) (res : walkres) : Prop :=
  match res with
  | Returned (Some e) => traversalBlocked fs' p e ∨ removalRefused fs' p e
  | _ => True
  end.

Lemma traversalBlocked_prefix (fs : FS) (p p' : path) (e : error) :
  p `prefix_of` p' → traversalBlocked fs p' e → traversalBlocked fs p e.
Proof.
  intros Hp (q & j & Hq & H). exists q, j. split; [by etrans|done].
Qed.

Lemma removalRefused_prefix (fs : FS) (p p' : path) (e : error) :
  p `prefix_of` p' → removalRefused fs p' e → removalRefused fs p e.
Proof.
  intros Hp (d & c & j & Hd & H). exists d, c, j. split; [by etrans|done].
Qed.

Lemma cleanup_outcome_prefix (fs : FS) (p p' : path) (res : walkres) :
  p `prefix_of` p' → cleanup_outcome fs p' res → cleanup_outcome fs p res.
Proof.
  intros Hp. destruct res as [|[e|]]; simpl; [done| |done].
  intros [H|H]; [left; by eapply traversalBlocked_prefix
                |right; by eapply removalRefused_prefix].
Qed.

(** The loop over the table fails only on a refused removal. *)
Lemma cleanupConflicts_failed (d : path) (conflicts : list StyleConflictPair) :
  (∀ c, c ∈ conflicts → c ∈ T) →
  ∀ (fs fs' : FS) (e : error),
    cleanupConflicts keep d conflicts fs = (Some e, fs') →
    removalRefused fs' d e.
Proof.
  induction conflicts as [|c rest IH]; intros HT fs fs' e; [done|].
  assert (HT' : ∀ c', c' ∈ rest → c' ∈ T).
  { intros c' Hc'. apply HT. by right. }
  simpl. unfold bind. rewrite !fileExists_quiet.
  fold (conflictAt fs d c).
  destruct (conflictAt fs d c) eqn:Hc; [|by apply IH].
  replace (if keep then Join d (GoZeroFlat c) else Join d (GoZeroStyle c))
    with (d ++ [loser keep c]) by (by destruct keep).
  rewrite fileExists_quiet.
  pose proof (conflictAt_loser _ _ _ keep Hc) as Hl. rewrite Hl.
  destruct (fs_remove_file _ _ _ Hl) as (j & Hj & ->).
  destruct (Writable j) eqn:Hw; [by apply IH|].
  unfold ret. intros [= <- <-].
  exists d, c, j. repeat split; try done. apply HT. by left.
Qed.

Definition cleanup_any_spec (f : nat) : Prop :=
  ∀ (p : path) (i : FileInfo) (fs : FS) (res : walkres) (fs' : FS),
    walk f fn p i (tt, fs) = (res, (tt, fs')) →
    namei fs p = inr i →
    Cleaned T keep p fs fs' ∧ cleanup_outcome fs' p res.

Lemma walkNames_cleanup_any (f : nat) (p : path) (i : FileInfo) :
  cleanup_any_spec f → IsDir i = true →
  ∀ (names : list string) (fs : FS) (res : walkres) (fs' : FS),
    walkNames (walk f fn) fn p names (tt, fs) = (res, (tt, fs')) →
    namei fs p = inr i →
    (Searchable i = false → ∀ n, n ∈ names → is_Some (fs !! (p ++ [n]))) →
    Cleaned T keep p fs fs' ∧ cleanup_outcome fs' p res.
Proof.
  intros IHf Hd. induction names as [|n rest IH]; intros fs res fs'.
  - simpl. unfold ret. intros [= <- <-] _ _. split; [apply Cleaned_refl|done].
  - simpl. unfold bind at 1. simpl. unfold fs_lstat, Join.
    intros Hw Hp Hin. revert Hw.
    pose proof (namei_snoc fs p n) as Hsn. rewrite Hp, Hd in Hsn. simpl in Hsn.
    destruct (namei fs (p ++ [n])) as [errno|j] eqn:Hn.
    + unfold bind. rewrite cleanupFn_error.
      destruct (Searchable i) eqn:Hs; simpl in Hsn.
      * destruct (IsNotExist _) eqn:Hne; [intros Hrest; by apply IH|].
        destruct (fs !! (p ++ [n])); [done|]. injection Hsn as ->. done.
      * injection Hsn as ->. simpl.
        unfold ret. intros [= <- <-]. split; [apply Cleaned_refl|].
        left. exists p, i. repeat split; try done. right. exists n.
        repeat split; try done. apply Hin; [done|by left].
    + assert (Hs : Searchable i = true).
      { destruct (Searchable i); [done|]. simpl in Hsn. done. }
      unfold bind.
      destruct (walk f fn (p ++ [n]) j (tt, fs)) as [r1 [[] fs2]] eqn:Hw1.
      destruct (IHf _ _ _ _ _ Hw1 Hn) as [Hcl1 Hout1].
      assert (Hpre : p `prefix_of` p ++ [n]) by (by exists [n]).
      apply (Cleaned_prefix _ _ _ _ _ _ Hpre) in Hcl1.
      apply (cleanup_outcome_prefix _ _ _ _ Hpre) in Hout1.
      destruct r1 as [|[e|]].
      * unfold ret. by intros [= <- <-].
      * unfold ret. by intros [= <- <-].
      * intros Hrest.
        assert (Hs1 : shrink fs fs2) by (by eapply Cleaned_shrink).
        destruct (IH _ _ _ Hrest (shrink_namei_dir _ _ _ _ Hs1 Hp Hd)) as [Hcl2 Hout2];
          [congruence|].
        split; [by eapply Cleaned_trans|done].
Qed.

Lemma walk_cleanup_any : ∀ f, cleanup_any_spec f.
Proof.
  induction f as [|f IHf]; intros p i fs res fs'.
  { simpl. unfold ret. intros [= <- <-] _. split; [apply Cleaned_refl|done]. }
  simpl. destruct (IsDir i) eqn:Hd; simpl.
  - unfold bind at 1. simpl. unfold fs_readDirNames. intros Hw Hp.
    rewrite Hp, Hd in Hw. simpl in Hw.
    destruct (Readable i) eqn:Hr; simpl in Hw.
    2: { unfold bind in Hw. rewrite cleanupFn_error in Hw. simpl in Hw.
         unfold ret in Hw. injection Hw as <- <-. split; [apply Cleaned_refl|].
         left. exists p, i. repeat split; try done. by left. }
    unfold bind in Hw. unfold cleanupFn at 1 in Hw. rewrite Hd in Hw.
    cbn [negb] in Hw. unfold sys in Hw.
    destruct (cleanupConflicts keep p T fs) as [r fs1] eqn:Hv.
    destruct (cleanupConflicts_quiet T keep p T (λ c H, H) _ _ _ Hv) as [Hcl1 _].
    destruct r as [e|].
    + unfold ret in Hw. injection Hw as <- <-. split; [done|]. right.
      by eapply cleanupConflicts_failed.
    + assert (Hs1 : shrink fs fs1) by (by eapply Cleaned_shrink).
      destruct (walkNames_cleanup_any f p i IHf Hd _ _ _ _ Hw
                  (shrink_namei_dir _ _ _ _ Hs1 Hp Hd)) as [Hcl2 Hout].
      { intros Hs n Hn%elem_of_entries.
        assert (fs1 = fs) as ->; [|done].
        rewrite cleanupConflicts_noop in Hv; [by injection Hv|].
        intros c _. unfold conflictAt, existsFile, Join.
        by rewrite namei_snoc, Hp, Hd, Hs. }
      split; [by eapply Cleaned_trans|done].
  - unfold bind, cleanupFn. rewrite Hd. simpl. unfold ret.
    intros [= <- <-] Hp. split; [apply Cleaned_refl|done].
Qed.

Lemma Walk_cleanup_any (fuel : nat) (root : path) (fs : FS) (res : walkres) (fs' : FS) :
  Walk fuel root fn (tt, fs) = (res, (tt, fs')) →
  Cleaned T keep root fs fs'
  ∧ match namei fs root with
    | inl errno =>
        fs' = fs
        ∧ res = Returned (if IsNotExist (PathError "lstat" root errno) then None
                          else Some (PathError "lstat" root errno))
    | inr _ => cleanup_outcome fs' root res
    end.
Proof.
  unfold Walk. unfold bind at 1. simpl. unfold fs_lstat.
  destruct (namei fs root) as [e|i] eqn:Hn.
  - unfold bind. rewrite cleanupFn_error. unfold ret.
    intros [= <- <-]. split; [apply Cleaned_refl|done].
  - intros Hw. by eapply walk_cleanup_any.
Qed.
End CleanupOutcome.

(** Summary for [CleanupStyleConflicts] on a quiet file system, for every
    outcome of the run. *)
Lemma Cleanup_quiet_any (fuel : nat) (root : path) (style : string)
    (fs : FS) (res : walkres) (fs' : FS) :
  CleanupStyleConflicts fuel root style fs = (res, fs') →
  let keep := String.eqb style "go_zero" in
  Cleaned knownStyleConflicts keep root fs fs'
  ∧ match namei fs root with
    | inl errno =>
        fs' = fs
        ∧ res = Returned (if IsNotExist (PathError "lstat" root errno) then None
                          else Some (PathError "lstat" root errno))
    | inr _ => cleanup_outcome keep fs' root res
    end.
Proof.
  unfold CleanupStyleConflicts.
  destruct (Walk fuel root _ (tt, fs)) as [r [[] fs1]] eqn:Hw.
  intros [= -> ->]. by eapply Walk_cleanup_any.
Qed.

(** A directory that may be read and searched, not written. *)
Definition readonlyDir : FileInfo := mkInfo Directory true false true.

(** A project with a conflict in [api] and one in [internal/svc], where
    [internal/svc] may not be written. *)
Definition readonlyTree : FS :=
  list_to_map [
    ([], dirEntry);
    (["proj"], dirEntry);
    (["proj"; "api"], dirEntry);
    (["proj"; "api"; "service_context.go"], fileEntry);
    (["proj"; "api"; "servicecontext.go"], fileEntry);
    (["proj"; "internal"], dirEntry);
    (["proj"; "internal"; "svc"], readonlyDir);
    (["proj"; "internal"; "svc"; "service_context.go"], fileEntry);
    (["proj"; "internal"; "svc"; "servicecontext.go"], fileEntry) ].

(** [readonlyTree] after a cleanup for style [go_zero] that got as far as
    [internal/svc]. *)
Definition readonlyTreeHalfway : FS :=
  list_to_map [
    ([], dirEntry);
    (["proj"], dirEntry);
    (["proj"; "api"], dirEntry);
    (["proj"; "api"; "service_context.go"], fileEntry);
    (["proj"; "internal"], dirEntry);
    (["proj"; "internal"; "svc"], readonlyDir);
    (["proj"; "internal"; "svc"; "service_context.go"], fileEntry);
    (["proj"; "internal"; "svc"; "servicecontext.go"], fileEntry) ].

Definition svcRefusal : error :=
  removeFailed ["proj"; "internal"; "svc"; "servicecontext.go"]
    (PathError "remove" ["proj"; "internal"; "svc"; "servicecontext.go"] EACCES).

Example readonlyTree_cleanup :
  CleanupStyleConflicts 5 ["proj"] "go_zero" readonlyTree
  = (Returned (Some svcRefusal), readonlyTreeHalfway).
Proof. evaluate. Qed.

Example svcRefusal_message :
  Error svcRefusal
  = "failed to remove conflicting file proj/internal/svc/servicecontext.go: remove proj/internal/svc/servicecontext.go: permission denied".
Proof. evaluate. Qed.






(** X1.  Whatever the outcome of a run of [CleanupStyleConflicts] (success,
    an error part-way, or the model's fuel running out), every entry of
    the tree is either exactly as it was or has been deleted, and a
    deleted entry is the file of the unselected style in a directory at
    or below [projectPath] that held both halves of a known pair.  So
    the run creates and changes nothing, deletes no directory, no file of
    the selected style and no file outside [projectPath]. *)
Theorem cleanup_deletes_only_unselected_files (fuel : nat) (projectPath : path)
    (style : string) (fs : FS) (res : walkres) (fs' : FS) :
  CleanupStyleConflicts fuel projectPath style fs = (res, fs') →
  ∀ k, fs' !! k = fs !! k
     ∨ (fs' !! k = None
        ∧ ∃ d c, c ∈ knownStyleConflicts ∧ projectPath `prefix_of` d
            ∧ conflictAt fs d c = true
            ∧ k = Join d (if String.eqb style "go_zero" then GoZeroFlat c
                          else GoZeroStyle c)).
Proof.
  intros Hc k. destruct (Cleanup_quiet_any _ _ _ _ _ _ Hc) as [Hcl _].
  destruct (Hcl k) as [E|[E (d & c & Hk & -> & Hpre & Hcf)]]; [by left|right].
  split; [done|]. by exists d, c.
Qed.

Lemma cleanup_deletes_only_unselected_files_witness :
  (readonlyTreeHalfway !! ["proj"; "internal"; "svc"; "servicecontext.go"]
   = readonlyTree !! ["proj"; "internal"; "svc"; "servicecontext.go"])
  ∨ (readonlyTreeHalfway !! ["proj"; "internal"; "svc"; "servicecontext.go"] = None
     ∧ ∃ d c, c ∈ knownStyleConflicts ∧ ["proj"] `prefix_of` d
         ∧ conflictAt readonlyTree d c = true
         ∧ ["proj"; "internal"; "svc"; "servicecontext.go"]
           = Join d (if String.eqb "go_zero" "go_zero" then GoZeroFlat c
                     else GoZeroStyle c)).
Proof.
  exact (cleanup_deletes_only_unselected_files 5 ["proj"] "go_zero" readonlyTree
           (Returned (Some svcRefusal)) readonlyTreeHalfway ltac:(evaluate)
           ["proj"; "internal"; "svc"; "servicecontext.go"]).
Defined.

(** X2.  On a quiet file system [CleanupStyleConflicts] fails for one of
    three reasons only, and in each the tree at the end of the run shows
    the cause:
    - [Lstat] of [projectPath] itself failed with an error other than
      not-found, and nothing was changed;
    - a directory at or below [projectPath] may not be listed, or may not
      be searched: the error is the permission error of that call;
    - a directory at or below [projectPath] holds both halves of a pair
      and may not be written: the error wraps the permission error of
      [os.Remove] with the message
      [failed to remove conflicting file <path>: <cause>], and both
      halves are still there. *)
Theorem cleanup_failure_causes (fuel : nat) (projectPath : path) (style : string)
    (fs : FS) (e : error) (fs' : FS) :
  CleanupStyleConflicts fuel projectPath style fs = (Returned (Some e), fs') →
  (Lstat projectPath fs = (inl e, fs) ∧ IsNotExist e = false ∧ fs' = fs)
  ∨ traversalBlocked fs' projectPath e
  ∨ removalRefused (String.eqb style "go_zero") fs' projectPath e.
Proof.
  intros Hc. destruct (Cleanup_quiet_any _ _ _ _ _ _ Hc) as [_ Hout].
  simpl. unfold fs_lstat.
  destruct (namei fs projectPath) as [errno|i].
  - left. destruct Hout as [-> Hres].
    destruct (IsNotExist _) eqn:Hne; [done|]. by injection Hres as ->.
  - right. exact Hout.
Qed.

Lemma cleanup_failure_causes_witness :
  (Lstat ["proj"] readonlyTree = (inl svcRefusal, readonlyTree)
   ∧ IsNotExist svcRefusal = false ∧ readonlyTreeHalfway = readonlyTree)
  ∨ traversalBlocked readonlyTreeHalfway ["proj"] svcRefusal
  ∨ removalRefused (String.eqb "go_zero" "go_zero") readonlyTreeHalfway ["proj"] svcRefusal.
Proof.
  exact (cleanup_failure_causes 5 ["proj"] "go_zero" readonlyTree svcRefusal
           readonlyTreeHalfway ltac:(evaluate)).
Defined.

Definition conflictDirsWritable (fs : FS) : bool :=
  forallb (λ kv : path * FileInfo, implb (IsDir kv.2) (Writable kv.2))
          (map_to_list fs).

Lemma conflictDirsWritable_ok (fs : FS) (p : path) :
  conflictDirsWritable fs = true →
  ∀ d c j, p `prefix_of` d → c ∈ knownStyleConflicts → conflictAt fs d c = true →
           fs !! d = Some j → Writable j = true.
Proof.
  unfold conflictDirsWritable. rewrite forallb_forall.
  intros Hall d c j _ _ Hcf Hj.
  destruct (conflictAt_isDirAt _ _ _ Hcf) as (j' & Hj' & Hd).
  apply namei_lookup in Hj'. rewrite Hj in Hj'. injection Hj' as <-.
  apply elem_of_map_to_list, list_elem_of_In, Hall in Hj.
  simpl in Hj. by rewrite Hd in Hj.
Qed.

(** X3.  When [projectPath] exists, every directory at or below it can
    be listed and searched, and every directory that holds both halves of
    a pair can be written, [CleanupStyleConflicts] returns [nil]. *)
Theorem cleanup_succeeds_where_permitted (fuel : nat) (projectPath : path)
    (style : string) (fs : FS) :
  depth fs < fuel →
  (∃ info, Lstat projectPath fs = (inr info, fs)) →
  walkable fs projectPath →
  (∀ d c j, projectPath `prefix_of` d → c ∈ knownStyleConflicts →
            conflictAt fs d c = true → fs !! d = Some j → Writable j = true) →
  ∃ fs', CleanupStyleConflicts fuel projectPath style fs = (Returned None, fs').
Proof.
  intros HD [info Hl] Hwk Hwr.
  assert (Hn : namei fs projectPath = inr info).
  { revert Hl. simpl. unfold fs_lstat.
    destruct (namei fs projectPath) as [|i]; [done|]. by intros [= ->]. }
  destruct (Cleanup_returns fuel projectPath style fs HD) as (err & fs' & Hc).
  exists fs'. destruct err as [e|]; [exfalso|done].
  destruct (Cleanup_quiet_any _ _ _ _ _ _ Hc) as [Hs%Cleaned_shrink Hout].
  rewrite Hn in Hout. destruct Hout as [(q & j & Hq & Hj & Hd & Hb)|Href].
  - apply (shrink_namei_back _ _ _ _ Hs) in Hj.
    destruct (Hwk q j Hq Hj Hd) as [Hr Hx].
    destruct Hb as [[Hr' _]|(n & Hx' & _)]; congruence.
  - destruct Href as (d & c & j & Hpre & Hk & Hcf & Hj & Hw & _).
    apply (shrink_conflictAt _ _ _ _ Hs) in Hcf.
    apply (shrink_lookup_Some _ _ _ _ Hs) in Hj.
    rewrite (Hwr d c j Hpre Hk Hcf Hj) in Hw. done.
Qed.

Lemma cleanup_succeeds_where_permitted_witness :
  ∃ fs', CleanupStyleConflicts 5 ["proj"] "gozero" sampleTree = (Returned None, fs').
Proof.
  apply (cleanup_succeeds_where_permitted 5 ["proj"] "gozero" sampleTree).
  - vm_compute. lia.
  - exists dirEntry. evaluate.
  - apply allDirsOpen_walkable. evaluate.
  - apply conflictDirsWritable_ok. evaluate.
Defined.

(* ===================================================================== *)
(** * How the operations compose on a quiet file system *)
(* ===================================================================== *)

Lemma elem_of_detectCandidates (projectPath k : path) (tag : string) :
  (k, tag) ∈ detectCandidates projectPath ↔
  ∃ c dir, c ∈ knownStyleConflicts ∧ dir ∈ conventionDirs projectPath
    ∧ ((k = dir ++ [GoZeroStyle c] ∧ tag = "go_zero")
       ∨ (k = dir ++ [GoZeroFlat c] ∧ tag = "gozero")).
Proof.
  unfold detectCandidates. rewrite list_elem_of_In, in_flat_map. split.
  - intros (c & Hc%list_elem_of_In & (dir & Hdir%list_elem_of_In & Hin)%in_flat_map).
    exists c, dir. split; [done|]. split; [done|].
    destruct Hin as [[= <- <-]|[[= <- <-]|[]]]; auto.
  - intros (c & dir & Hc & Hdir & Hk). exists c. split; [by apply list_elem_of_In|].
    apply in_flat_map. exists dir. split; [by apply list_elem_of_In|].
    destruct Hk as [[-> ->]|[-> ->]]; simpl; auto.
Qed.

Lemma detect_none_iff (projectPath : path) (fs : FS) :
  (DetectExistingStyle projectPath fs).1 = "" ↔
  ∀ cand, cand ∈ detectCandidates projectPath → existsFile fs cand.1 = false.
Proof.
  unfold DetectExistingStyle. rewrite detectInTable_quiet. cbn [fst].
  fold (detectCandidates projectPath).
  destruct (List.find _ (detectCandidates projectPath)) as [cand|] eqn:Hf.
  - apply find_some in Hf as [Hin Hex]. split.
    + intros Htag. by destruct (detectCandidates_tag _ _ Hin) as [E|E];
        rewrite E in Htag.
    + intros Hnone. rewrite Hnone in Hex; [done|]. by apply list_elem_of_In.
  - split; [|done]. intros _ cand Hin%list_elem_of_In.
    by apply (find_none _ _ Hf).
Qed.

Definition candidatesRegular (fs : FS) (project : path) : bool :=
  forallb (λ cand : path * string,
             match fs_lstat cand.1 fs with
             | inr info => IsRegular info
             | inl _ => true
             end)
          (detectCandidates project).

Lemma candidatesRegular_ok (fs : FS) (project : path) :
  candidatesRegular fs project = true →
  ∀ cand info, cand ∈ detectCandidates project →
    Lstat cand.1 fs = (inr info, fs) → IsRegular info = true.
Proof.
  unfold candidatesRegular. rewrite forallb_forall.
  intros Hall cand info Hin%list_elem_of_In [= Hl]. apply Hall in Hin.
  by rewrite Hl in Hin.
Qed.

(** X4.  In a project whose candidate files, where they are present,
    are regular files for [Lstat] (so none is a symbolic link), a run of
    [CleanupStyleConflicts], whatever its outcome and whatever its
    [projectPath], does not change whether [DetectExistingStyle] finds a
    style: it finds none afterwards exactly when it found none before.
    (Cleanup deletes a candidate file only where the other file of the
    pair stays.) *)
Theorem cleanup_preserves_detectability (fuel : nat) (projectPath : path)
    (style : string) (fs : FS) (res : walkres) (fs' : FS) :
  CleanupStyleConflicts fuel projectPath style fs = (res, fs') →
  ∀ project,
    (∀ cand info, cand ∈ detectCandidates project →
       Lstat cand.1 fs = (inr info, fs) → IsRegular info = true) →
    (DetectExistingStyle project fs').1 = "" ↔ (DetectExistingStyle project fs).1 = "".
Proof.
  intros Hc project _. destruct (Cleanup_quiet_any _ _ _ _ _ _ Hc) as [Hcl _].
  simpl in Hcl. pose proof (Cleaned_shrink _ _ _ _ _ Hcl) as Hs.
  rewrite !detect_none_iff. split.
  - intros Hnone [k tag] Hin. simpl.
    destruct (existsFile fs k) eqn:Hex; [|done].
    pose proof Hin as (c & dir & Hk & Hdir & Hname)%elem_of_detectCandidates.
    assert (∃ name, k = dir ++ [name]) as [name ->].
    { destruct Hname as [[-> _]|[-> _]]; eauto. }
    destruct (Hcl (dir ++ [name])) as [E|[_ (d' & c' & Hk' & Heq & _ & Hcf)]].
    + rewrite <- (shrink_existsFile_kept _ _ _ _ Hs E) in Hex.
      pose proof (Hnone (dir ++ [name], tag) Hin) as Hn. simpl in Hn. congruence.
    + apply app_inj_tail in Heq as [<- _].
      pose proof (conflictAt_kept _ _ _ (String.eqb style "go_zero") Hcf) as Hkept.
      rewrite <- (shrink_existsFile_kept _ _ _ _ Hs
                    (Cleaned_kept _ _ _ _ Hcl dir c' Hk')) in Hkept.
      assert (∃ tag', (dir ++ [kept (String.eqb style "go_zero") c'], tag')
                        ∈ detectCandidates project) as [tag' Hin'].
      { destruct (String.eqb style "go_zero"); simpl; eexists;
          apply elem_of_detectCandidates; exists c', dir; eauto. }
      pose proof (Hnone _ Hin') as Hn. simpl in Hn. congruence.
  - intros Hnone cand Hin. specialize (Hnone cand Hin).
    destruct (existsFile fs' cand.1) eqn:Hex; [|done].
    by rewrite (shrink_existsFile _ _ _ Hs Hex) in Hnone.
Qed.

Lemma cleanup_preserves_detectability_witness :
  (DetectExistingStyle ["proj"] readonlyTreeHalfway).1 = ""
  ↔ (DetectExistingStyle ["proj"] readonlyTree).1 = "".
Proof.
  apply (cleanup_preserves_detectability 5 ["proj"] "go_zero" readonlyTree
           (Returned (Some svcRefusal)) readonlyTreeHalfway ltac:(evaluate) ["proj"]).
  apply candidatesRegular_ok. evaluate.
Defined.

(** X5.  Let [projectPath] be a non-empty path such that [Lstat] reports
    [projectPath], its [internal] and its [internal/svc] as directories
    and both files of a known pair in [internal/svc] as regular files (so
    none of these is a symbolic link).  After
    [CleanupStyleConflicts projectPath style] has returned [nil],
    [DetectExistingStyle projectPath] reports the style that was kept:
    [go_zero] for style [go_zero], and [gozero] for every other style
    string. *)
Theorem cleanup_then_detect (fuel : nat) (projectPath : path) (style : string)
    (fs fs' : FS) (c : StyleConflictPair) :
  CleanupStyleConflicts fuel projectPath style fs = (Returned None, fs') →
  projectPath ≠ [] →
  (∀ q, q ∈ [projectPath; projectPath ++ ["internal"];
             projectPath ++ ["internal"; "svc"]] →
        ∃ info, Lstat q fs = (inr info, fs) ∧ IsDir info = true) →
  c ∈ knownStyleConflicts →
  (∀ name, name ∈ [GoZeroStyle c; GoZeroFlat c] →
        ∃ info, Lstat (projectPath ++ ["internal"; "svc"; name]) fs = (inr info, fs)
                ∧ IsRegular info = true) →
  DetectExistingStyle projectPath fs'
  = (if String.eqb style "go_zero" then "go_zero" else "gozero", fs').
Proof.
  intros Hc _ _ Hk Hfiles. destruct (Cleanup_quiet _ _ _ _ _ Hc) as [Hcl Hno].
  assert (Hex : ∀ name, name ∈ [GoZeroStyle c; GoZeroFlat c] →
    existsFile fs ((projectPath ++ ["internal"; "svc"]) ++ [name]) = true).
  { intros name Hn. destruct (Hfiles name Hn) as (info & [= Hl] & Hreg).
    rewrite <- (assoc_L (++)). unfold existsFile. unfold fs_lstat in Hl.
    destruct (namei fs _) as [|i]; [done|]. injection Hl as ->.
    unfold IsRegular in Hreg. unfold IsDir. by destruct (Mode info). }
  assert (Hcf : conflictAt fs (projectPath ++ ["internal"; "svc"]) c = true).
  { unfold conflictAt, Join. rewrite !Hex; [done|by right; left|by left]. }
  destruct (Cleaned_pair _ _ _ _ Hcl Hno (projectPath ++ ["internal"; "svc"]) c)
    as (_ & Hlose & _ & Hkeep); [by eexists|done|done|].
  apply list_elem_of_singleton in Hk as ->.
  unfold DetectExistingStyle. cbn [knownStyleConflicts detectInTable commonDirs detectInDirs].
  unfold bind. rewrite !fileExists_quiet. unfold Join. cbn [GoZeroStyle GoZeroFlat].
  destruct (String.eqb style "go_zero"); simpl in Hlose, Hkeep.
  - by rewrite Hkeep.
  - rewrite Hlose. rewrite fileExists_quiet. by rewrite Hkeep.
Qed.

Lemma cleanup_then_detect_witness :
  DetectExistingStyle ["proj"] sampleTreeFlat
  = (if String.eqb "gozero" "go_zero" then "go_zero" else "gozero", sampleTreeFlat).
Proof.
  apply (cleanup_then_detect 5 ["proj"] "gozero" sampleTree sampleTreeFlat thePair).
  - evaluate.
  - done.
  - intros q Hq. exists dirEntry. split; [|done].
    repeat (apply elem_of_cons in Hq as [->|Hq]; [evaluate|]).
    by apply elem_of_nil in Hq.
  - apply thePair_known.
  - intros name Hn. exists fileEntry. split; [|done].
    repeat (apply elem_of_cons in Hn as [->|Hn]; [evaluate|]).
    by apply elem_of_nil in Hn.
Defined.

(** X6.  Once a run of [CleanupStyleConflicts] has returned [nil], a
    further run with any style, the opposite one included, returns [nil]
    and deletes nothing: a file of the unselected style that stands
    alone is never removed. *)
Theorem cleanup_settles_for_every_style (fuel : nat) (projectPath : path)
    (style : string) (fs fs' : FS) :
  CleanupStyleConflicts fuel projectPath style fs = (Returned None, fs') →
  ∀ style', CleanupStyleConflicts fuel projectPath style' fs' = (Returned None, fs').
Proof.
  intros Hc style'. revert Hc. unfold CleanupStyleConflicts.
  destruct (Walk fuel projectPath (cleanupFn _) (tt, fs)) as [res [[] fs1]] eqn:Hw.
  intros [= -> ->].
  destruct (namei fs projectPath) as [e|info] eqn:Hn.
  - revert Hw. unfold Walk. unfold bind at 1 3. simpl. unfold fs_lstat. rewrite Hn.
    unfold bind. rewrite !cleanupFn_error. unfold ret. intros [= Hne <-].
    rewrite Hn. unfold bind. rewrite cleanupFn_error. unfold ret.
    simpl. by rewrite Hne.
  - by rewrite (Walk_again _ (cleanupFn _) (cleanupFn_file _) (cleanupFn_clean_dir _)
                  fuel projectPath info fs fs' tt Hw Hn).
Qed.

Lemma cleanup_settles_for_every_style_witness :
  CleanupStyleConflicts 5 ["proj"] "gozero" sampleTreeSnake
  = (Returned None, sampleTreeSnake).
Proof.
  exact (cleanup_settles_for_every_style 5 ["proj"] "go_zero" sampleTree
           sampleTreeSnake ltac:(evaluate) "gozero").
Defined.

(** ** A tree that validates needs no cleanup *)

Section ValidatedWalk.
Variable keep : bool.
Variable root : path.

Local Abbreviation vfn := (validateFn (W := FS) root).
Local Abbreviation cfn := (cleanupFn (W := FS) keep).

Definition validated_spec (f : nat) : Prop :=
  ∀ (p : path) (i : FileInfo) (acc : list string) (fs : FS)
    (acc' : list string) (fs' : FS),
    walk f vfn p i (acc, fs) = (Returned None, (acc', fs')) →
    namei fs p = inr i → noConflictUnder fs p →
    walk f cfn p i (tt, fs) = (Returned None, (tt, fs)).

Lemma walkNames_validated (f : nat) (p : path) (fs : FS) :
  validated_spec f → noConflictUnder fs p →
  ∀ (names : list string) (acc acc' : list string) (fs' : FS),
    walkNames (walk f vfn) vfn p names (acc, fs) = (Returned None, (acc', fs')) →
    walkNames (walk f cfn) cfn p names (tt, fs) = (Returned None, (tt, fs)).
Proof.
  intros IHf Hno. induction names as [|n rest IH]; intros acc acc' fs'; [done|].
  simpl. intros Hw. unfold bind at 1. simpl. unfold fs_lstat, Join.
  revert Hw. unfold bind at 1. simpl. unfold fs_lstat, Join.
  destruct (namei fs (p ++ [n])) as [errno|j] eqn:Hn.
  - unfold bind at 1. by rewrite validateFn_error.
  - unfold bind.
    destruct (walk f vfn (p ++ [n]) j (acc, fs)) as [r1 [acc1 fs1]] eqn:Hw1.
    destruct (walk_validate root f _ _ _ _ _ _ _ Hw1 Hn) as [-> _].
    destruct r1 as [|[e|]]; [done|done|].
    rewrite (IHf _ _ _ _ _ _ Hw1 Hn).
    + apply IH.
    + eapply noConflictUnder_prefix; [|done]. by exists [n].
Qed.

Lemma walk_validated : ∀ f, validated_spec f.
Proof.
  induction f as [|f IHf]; intros p i acc fs acc' fs'; [done|].
  simpl. destruct (IsDir i) eqn:Hd; simpl.
  - intros Hw Hp Hno. unfold bind at 1. simpl. unfold fs_readDirNames.
    revert Hw. unfold bind at 1. simpl. unfold fs_readDirNames.
    rewrite Hp, Hd. simpl.
    destruct (Readable i) eqn:Hr; simpl.
    2: { unfold bind at 1. by rewrite validateFn_error. }
    unfold bind. rewrite validateFn_dir by done.
    rewrite cleanupFn_clean_dir; [|done|intros t Ht; by apply Hno].
    by apply walkNames_validated.
  - unfold bind. rewrite validateFn_file, cleanupFn_file by done. done.
Qed.
End ValidatedWalk.

(** X7.  A tree on which [ValidateNoStyleConflicts] returns [nil] is one
    on which [CleanupStyleConflicts], with any style, returns [nil] and
    deletes nothing. *)
Theorem validated_tree_needs_no_cleanup (fuel : nat) (projectPath : path) (fs : FS) :
  (ValidateNoStyleConflicts fuel projectPath fs).1 = Returned None →
  ∀ style, CleanupStyleConflicts fuel projectPath style fs = (Returned None, fs).
Proof.
  intros Hv style.
  destruct (ValidateNoStyleConflicts fuel projectPath fs) as [res fs'] eqn:Hval.
  simpl in Hv. subst res.
  destruct (Validate_quiet _ _ _ _ _ Hval) as [-> Hq].
  destruct (namei fs projectPath) as [errno|info] eqn:Hn; [done|].
  destruct Hq as (L & _ & -> & Hall).
  assert (Hno : noConflictUnder fs projectPath).
  { intros d c Hpre Hk. destruct (conflictAt fs d c) eqn:Hcf; [|done].
    by apply (Hall d c Hpre Hk), elem_of_nil in Hcf. }
  revert Hval. unfold ValidateNoStyleConflicts, Walk.
  unfold bind at 1. simpl. unfold fs_lstat. rewrite Hn.
  destruct (walk fuel (validateFn projectPath) projectPath info ([], fs))
    as [r [acc fs1]] eqn:Hw.
  intros Hres. assert (r = Returned None) as ->.
  { destruct r as [|[e|]]; [done|done|done]. }
  unfold CleanupStyleConflicts, Walk. unfold bind at 1. simpl. unfold fs_lstat.
  rewrite Hn.
  by rewrite (walk_validated _ projectPath fuel _ _ _ _ _ _ Hw Hn Hno).
Qed.

Lemma validated_tree_needs_no_cleanup_witness :
  CleanupStyleConflicts 5 ["proj"] "gozero" sampleTreeSnake
  = (Returned None, sampleTreeSnake).
Proof.
  exact (validated_tree_needs_no_cleanup 5 ["proj"] sampleTreeSnake
           ltac:(evaluate) "gozero").
Defined.

(* ===================================================================== *)
(** * A project path that is not a directory *)
(* ===================================================================== *)

Lemma candidate_needs_project (projectPath : path) (fs : FS) (cand : path * string) :
  cand ∈ detectCandidates projectPath → existsFile fs cand.1 = true →
  isDirAt fs projectPath.
Proof.
  destruct cand as [k tag].
  intros (c & dir & _ & Hdir & Hk)%elem_of_detectCandidates Hex. simpl in Hex.
  assert (isDirAt fs dir) as Hd.
  { destruct Hk as [[-> _]|[-> _]]; by eapply existsFile_parent. }
  eapply isDirAt_prefix; [|done].
  unfold conventionDirs in Hdir.
  repeat (apply elem_of_cons in Hdir as [->|Hdir]; [by eexists|]).
  by apply elem_of_nil in Hdir.
Qed.

(** A file system in which [proj] is a regular file. *)
Definition fileTree : FS := {[ [] := dirEntry; ["proj"] := fileEntry ]}.

(** X8.  When a non-empty [projectPath] does not name a directory for
    [Stat] (it is missing, cannot be reached, or is a file), nothing is
    changed and:
    - [DetectExistingStyle] returns the empty string and
      [SuggestStyleBasedOnExisting] the caller's default;
    - [CleanupStyleConflicts] returns [nil] when the path is missing or
      is not a directory, and the error of [Lstat] when that is any
      other error;
    - [ValidateNoStyleConflicts] returns [nil] only when the path exists
      (as a non-directory), and the error of [Lstat] otherwise, the
      not-found error included. *)
Theorem project_path_not_a_directory (fuel : nat) (projectPath : path)
    (style defaultStyle : string) (fs : FS) :
  0 < fuel →
  projectPath ≠ [] →
  (∀ info, Stat projectPath fs = (inr info, fs) → IsDir info = false) →
  DetectExistingStyle projectPath fs = ("", fs)
  ∧ SuggestStyleBasedOnExisting projectPath defaultStyle fs = (defaultStyle, fs)
  ∧ CleanupStyleConflicts fuel projectPath style fs
    = (Returned match fs_lstat projectPath fs with
                | inl e => if IsNotExist e then None else Some e
                | inr _ => None
                end, fs)
  ∧ ValidateNoStyleConflicts fuel projectPath fs
    = (Returned match fs_lstat projectPath fs with
                | inl e => Some e
                | inr _ => None
                end, fs).
Proof.
  intros Hfuel _ Hnd.
  assert (Hno : ¬ isDirAt fs projectPath).
  { intros (i & Hi & Hd). rewrite (Hnd i) in Hd; [done|].
    simpl. unfold fs_stat. by rewrite Hi. }
  assert (Hdet : DetectExistingStyle projectPath fs = ("", fs)).
  { pose proof (detect_none_iff projectPath fs) as [_ H].
    destruct (DetectExistingStyle projectPath fs) as [s fs1] eqn:E.
    assert (fs1 = fs) as ->.
    { revert E. unfold DetectExistingStyle. rewrite detectInTable_quiet.
      by intros [= _ <-]. }
    simpl in H. rewrite H; [done|].
    intros cand Hin. destruct (existsFile fs cand.1) eqn:Hex; [|done].
    destruct Hno. by eapply candidate_needs_project. }
  split; [done|]. split.
  { unfold SuggestStyleBasedOnExisting, bind. by rewrite Hdet. }
  destruct fuel as [|f]; [lia|].
  unfold CleanupStyleConflicts, ValidateNoStyleConflicts, Walk.
  unfold bind at 1 3. simpl. unfold fs_lstat.
  destruct (namei fs projectPath) as [errno|i] eqn:Hn.
  - unfold bind. rewrite cleanupFn_error. by rewrite validateFn_error.
  - assert (Hd : IsDir i = false).
    { apply Hnd. simpl. unfold fs_stat. by rewrite Hn. }
    rewrite Hd. simpl. unfold bind.
    by rewrite cleanupFn_file, validateFn_file.
Qed.

Lemma project_path_not_a_directory_witness :
  DetectExistingStyle ["proj"] fileTree = ("", fileTree)
  ∧ SuggestStyleBasedOnExisting ["proj"] "gozero" fileTree = ("gozero", fileTree)
  ∧ CleanupStyleConflicts 1 ["proj"] "go_zero" fileTree
    = (Returned match fs_lstat ["proj"] fileTree with
                | inl e => if IsNotExist e then None else Some e
                | inr _ => None
                end, fileTree)
  ∧ ValidateNoStyleConflicts 1 ["proj"] fileTree
    = (Returned match fs_lstat ["proj"] fileTree with
                | inl e => Some e
                | inr _ => None
                end, fileTree).
Proof.
  apply (project_path_not_a_directory 1 ["proj"] "go_zero" "gozero" fileTree).
  - lia.
  - done.
  - intros info H. assert (info = fileEntry) as ->; [|done].
    assert (E : Stat ["proj"] fileTree = (inr fileEntry, fileTree)) by evaluate.
    rewrite E in H. by injection H.
Defined.

(* ===================================================================== *)
(** * Both walks return *)
(* ===================================================================== *)

(** X9.  Whatever an external process does to the tree meanwhile, as
    long as the paths that exist or that it creates are of bounded
    length, [CleanupStyleConflicts] and [ValidateNoStyleConflicts] come
    to an end: with more fuel than the longest such path has components
    the model of either returns a Go result, never [OutOfFuel]. *)
Theorem walks_return_under_interference (fuel : nat) (projectPath : path)
    (style : string) (w : World) :
  worldDepth w < fuel →
  (∃ err w', CleanupStyleConflicts fuel projectPath style w = (Returned err, w'))
  ∧ (∃ err w', ValidateNoStyleConflicts fuel projectPath w = (Returned err, w')).
Proof.
  intros HD. split.
  - apply (Cleanup_returns_if (worldDepth w) (worldBounded (worldDepth w))
             (racy_Lstat_inv _) (racy_Stat_inv _) (racy_readDirNames_inv _)
             (racy_Remove_inv _)); [|done].
    apply worldBounded_worldDepth.
  - apply (Validate_returns_if (worldDepth w) (worldBounded (worldDepth w))
             (racy_Lstat_inv _) (racy_Stat_inv _) (racy_readDirNames_inv _));
      [|done].
    apply worldBounded_worldDepth.
Qed.

Lemma walks_return_under_interference_witness :
  (∃ err w', CleanupStyleConflicts 5 ["proj"] "go_zero" racingWorld = (Returned err, w'))
  ∧ (∃ err w', ValidateNoStyleConflicts 5 ["proj"] racingWorld = (Returned err, w')).
Proof.
  apply (walks_return_under_interference 5 ["proj"] "go_zero" racingWorld).
  vm_compute. lia.
Defined.

(* ===================================================================== *)
(** * Where an error of cleanup comes from, under interference *)
(* ===================================================================== *)

(** The error the run returns for a failed [os.Remove]. *)
Definition failedRemove (ev : Event) : option error :=
  match ev with
  | EvRemove k (Some e) => Some (removeFailed k e)
  | _ => None
  end.

(** A failed [os.Remove] is the last call, and decides the result. *)
Definition stopsAtRemove (tr : list Event) (res : walkres) : Prop :=
  ∀ pre ev post e, tr = pre ++ ev :: post → failedRemove ev = Some e →
    post = [] ∧ res = Returned (Some e).

(** An error result is due to the last call: a failed [Lstat] or
    directory listing (returned as it is) or a failed [os.Remove]
    (wrapped). *)
Definition fromLastCall (tr : list Event) (res : walkres) : Prop :=
  ∀ e, res = Returned (Some e) →
    ∃ pre ev, tr = pre ++ [ev] ∧ (failure ev = Some e ∨ failedRemove ev = Some e).

Lemma stopsAtRemove_nil (res : walkres) : stopsAtRemove [] res.
Proof. intros pre ev post e Heq. by destruct pre. Qed.

Lemma stopsAtRemove_cons (ev : Event) (tr : list Event) (res : walkres) :
  failedRemove ev = None → stopsAtRemove tr res → stopsAtRemove (ev :: tr) res.
Proof.
  intros Hev Htr pre ev' post e Heq Hf. destruct pre as [|x pre].
  - injection Heq as <- <-. congruence.
  - injection Heq as <- ->. by apply (Htr pre ev' post e).
Qed.

Lemma stopsAtRemove_app (t1 t2 : list Event) (res : walkres) :
  stopsAtRemove t1 (Returned None) → stopsAtRemove t2 res →
  stopsAtRemove (t1 ++ t2) res.
Proof.
  intros H1 H2 pre ev post e Heq Hf.
  apply app_eq_inv in Heq as [(l & -> & Hl)|(l & -> & ->)].
  - destruct l as [|x l].
    + simpl in Hl. subst t2. by apply (H2 [] ev post e).
    + injection Hl as <- ->. by destruct (H1 pre ev l e eq_refl Hf).
  - by apply (H2 l ev post e).
Qed.

Lemma stopsAtRemove_last (ev : Event) (e : error) :
  failedRemove ev = Some e → stopsAtRemove [ev] (Returned (Some e)).
Proof.
  intros Hev pre ev' post e' Heq Hf.
  destruct pre as [|x pre]; [|by destruct pre].
  injection Heq as <- <-. split; [done|]. congruence.
Qed.

Lemma fromLastCall_ok (tr : list Event) : fromLastCall tr (Returned None).
Proof. by intros e. Qed.

Lemma fromLastCall_app (t1 t2 : list Event) (res : walkres) :
  fromLastCall t2 res → fromLastCall (t1 ++ t2) res.
Proof.
  intros H2 e He. destruct (H2 e He) as (pre & ev & -> & Hev).
  exists (t1 ++ pre), ev. by rewrite (assoc_L (++)).
Qed.

Lemma fromLastCall_cons (ev : Event) (tr : list Event) (res : walkres) :
  fromLastCall tr res → fromLastCall (ev :: tr) res.
Proof. apply (fromLastCall_app [ev]). Qed.

(** What the cleanup callback does, seen from the trace. *)
Definition cleanupStops (keep : bool) (p : path) (err : option error)
    (tv : list Event) (r : option error) : Prop :=
  match err with
  | Some e => tv = [] ∧ r = (if IsNotExist e then None else Some e)
  | None => stopsAtRemove tv (Returned r) ∧ fromLastCall tv (Returned r)
  end.

Lemma cleanupConflicts_stops (keep : bool) (d : path) :
  ∀ (conflicts : list StyleConflictPair) (w w' : World) (r : option error),
    cleanupConflicts keep d conflicts w = (r, w') →
    ∃ tr, extends w w' tr
      ∧ stopsAtRemove tr (Returned r) ∧ fromLastCall tr (Returned r).
Proof.
  induction conflicts as [|c rest IH]; intros w w' r.
  { simpl. unfold ret. intros [= <- <-]. exists []. split; [apply extends_refl|].
    split; [apply stopsAtRemove_nil|apply fromLastCall_ok]. }
  simpl. unfold bind at 1.
  destruct (fileExists (Join d (GoZeroStyle c)) w) as [b1 w1] eqn:H1.
  destruct (fileExists_racy _ _ _ _ H1) as (r1 & He1 & ->).
  unfold bind at 1.
  destruct (fileExists (Join d (GoZeroFlat c)) w1) as [b2 w2] eqn:H2.
  destruct (fileExists_racy _ _ _ _ H2) as (r2 & He2 & ->).
  pose proof (extends_trans _ _ _ _ _ He1 He2) as He12. simpl in He12.
  assert (Hfin : ∀ (pre : list Event) (wm : World),
    extends w wm pre → (∀ ev, ev ∈ pre → failedRemove ev = None) →
    cleanupConflicts keep d rest wm = (r, w') →
    ∃ tr, extends w w' tr
      ∧ stopsAtRemove tr (Returned r) ∧ fromLastCall tr (Returned r)).
  { intros pre wm Hpre Hnone Hrest.
    destruct (IH _ _ _ Hrest) as (tr & Het & Hst & Hfl).
    exists (pre ++ tr). split; [by eapply extends_trans|].
    split; [|by apply fromLastCall_app].
    clear Hpre. induction pre as [|ev pre IHpre]; [done|]. simpl.
    apply stopsAtRemove_cons; [apply Hnone; by left|].
    apply IHpre. intros ev' Hev'. apply Hnone. by right. }
  destruct (statSaysFile r1 && statSaysFile r2).
  2: { intros Hrest. eapply Hfin; [done| |done].
       intros ev [->| ->%list_elem_of_singleton]%elem_of_cons; done. }
  unfold bind at 1.
  destruct (fileExists _ w2) as [b3 w3] eqn:H3.
  destruct (fileExists_racy _ _ _ _ H3) as (r3 & He3 & ->).
  pose proof (extends_trans _ _ _ _ _ He12 He3) as He123. simpl in He123.
  destruct (statSaysFile r3).
  2: { intros Hrest. eapply Hfin; [done| |done].
       intros ev [->|[->| ->%list_elem_of_singleton]%elem_of_cons]%elem_of_cons; done. }
  unfold bind at 1. simpl.
  destruct (racy_remove _ w3) as [err w4] eqn:H4.
  apply racy_remove_extends in H4.
  pose proof (extends_trans _ _ _ _ _ He123 H4) as He1234. simpl in He1234.
  destruct err as [e|].
  - unfold ret. intros [= <- <-]. eexists. split; [done|]. split.
    + do 3 (apply stopsAtRemove_cons; [done|]). by apply stopsAtRemove_last.
    + intros e' [= <-]. eexists [_; _; _], _. split; [done|]. by right.
  - intros Hrest. eapply Hfin; [done| |done].
    intros ev Hev. repeat (apply elem_of_cons in Hev as [->|Hev]; [done|]).
    by apply elem_of_nil in Hev.
Qed.

Lemma cleanupFn_cleanupStops (keep : bool) (p : path) (info : option FileInfo)
    (err : option error) (c : unit) (w : World) (r : option error)
    (c' : unit) (w' : World) :
  cleanupFn keep p info err (c, w) = (r, (c', w')) →
  ∃ tv, extends w w' tv ∧ cleanupStops keep p err tv r.
Proof.
  destruct c, c'. unfold cleanupFn, cleanupStops. destruct err as [e|].
  { intros H. exists [].
    destruct (IsNotExist e); unfold ret in H; injection H as <- <-;
      (split; [apply extends_refl|done]). }
  assert (Hnop : (None, (tt, w)) = (r, (tt, w')) →
    ∃ tv, extends w w' tv
      ∧ stopsAtRemove tv (Returned r) ∧ fromLastCall tv (Returned r)).
  { intros [= <- <-]. exists []. split; [apply extends_refl|].
    split; [apply stopsAtRemove_nil|apply fromLastCall_ok]. }
  destruct info as [i|]; [|by apply Hnop].
  destruct (IsDir i); cbn [negb]; [|by apply Hnop].
  unfold sys. destruct (cleanupConflicts keep p knownStyleConflicts w) as [r1 w1] eqn:Hv.
  intros [= <- <-]. by eapply cleanupConflicts_stops.
Qed.

Section StopsWalk.
Variable keep : bool.

Lemma walkT_stops (p : path) (tr : list Event) (res : walkres) :
  walkT (cleanupStops keep) p tr res → stopsAtRemove tr res ∧ fromLastCall tr res.
Proof.
  revert p tr res.
  apply (walkT_mut (cleanupStops keep)
           (λ _ tr res, stopsAtRemove tr res ∧ fromLastCall tr res)
           (λ _ _ tr res, stopsAtRemove tr res ∧ fromLastCall tr res)).
  - intros p. split; [apply stopsAtRemove_nil|done].
  - by intros p tv r H.
  - intros p e tv r [-> ->]. split.
    + apply stopsAtRemove_cons; [done|apply stopsAtRemove_nil].
    + intros e'. destruct (IsNotExist e); [done|]. intros [= <-].
      exists [], (EvReadDir p (inl e)). split; [done|by left].
  - intros p names tv e [Hs Hf]. split.
    + by apply stopsAtRemove_cons.
    + by apply fromLastCall_cons.
  - intros p names tv tl res _ [Hs _] _ [IHs IHf]. split.
    + apply stopsAtRemove_cons; [done|]. by apply stopsAtRemove_app.
    + apply fromLastCall_cons. by apply fromLastCall_app.
  - intros dir. split; [apply stopsAtRemove_nil|done].
  - intros dir n rest e tv e' [-> Hr]. split.
    + apply stopsAtRemove_cons; [done|apply stopsAtRemove_nil].
    + intros e0 [= <-]. destruct (IsNotExist e); [done|]. injection Hr as ->.
      exists [], (EvLstat (Join dir n) (inl e)). split; [done|by left].
  - intros dir n rest e tv tl res [-> _] _ [IHs IHf]. split.
    + by apply stopsAtRemove_cons.
    + by apply fromLastCall_cons.
  - intros dir n rest i tc res _ [IHs IHf] _. split.
    + by apply stopsAtRemove_cons.
    + by apply fromLastCall_cons.
  - intros dir n rest i tc tl res _ [IHcs _] _ [IHs IHf]. split.
    + apply stopsAtRemove_cons; [done|]. by apply stopsAtRemove_app.
    + apply fromLastCall_cons. by apply fromLastCall_app.
Qed.

Lemma WalkT_stops (root : path) (tr : list Event) (res : walkres) :
  WalkT (cleanupStops keep) root tr res → stopsAtRemove tr res ∧ fromLastCall tr res.
Proof.
  intros [e tv r [-> ->]|i tc res' Hw].
  - split.
    + apply stopsAtRemove_cons; [done|apply stopsAtRemove_nil].
    + intros e'. destruct (IsNotExist e); [done|]. intros [= <-].
      exists [], (EvLstat root (inl e)). split; [done|by left].
  - apply walkT_stops in Hw as [Hs Hf]. split.
    + by apply stopsAtRemove_cons.
    + by apply fromLastCall_cons.
Qed.
End StopsWalk.

(** [readonlyTree], with an external process that does nothing. *)
Definition readonlyWorld : World := mkWorld readonlyTree [] [].

(** X10.  Whatever an external process does to the tree meanwhile, in a
    run of [CleanupStyleConflicts]:
    - a failed [os.Remove] is the last system call of the run, and the
      run returns its error wrapped with the message
      [failed to remove conflicting file <path>: <cause>];
    - an error the run returns is always due to its last system call:
      it is the error of a failed [Lstat] or directory listing, or it
      wraps the error of a failed [os.Remove]. *)
Theorem cleanup_error_is_of_last_call (fuel : nat) (projectPath : path)
    (style : string) (w : World) (res : walkres) (w' : World) :
  CleanupStyleConflicts fuel projectPath style w = (res, w') →
  ∃ tr, trace w' = trace w ++ tr
    ∧ (∀ pre k cause post, tr = pre ++ EvRemove k (Some cause) :: post →
         post = []
         ∧ res = Returned (Some (wrapError
                   ("failed to remove conflicting file " +:+ pathString k
                      +:+ ": " +:+ Error cause) cause)))
    ∧ (∀ e, res = Returned (Some e) →
         ∃ pre ev, tr = pre ++ [ev]
           ∧ ((∃ q, ev = EvLstat q (inl e)) ∨ (∃ q, ev = EvReadDir q (inl e))
              ∨ (∃ k cause, ev = EvRemove k (Some cause)
                   ∧ e = wrapError
                           ("failed to remove conflicting file " +:+ pathString k
                              +:+ ": " +:+ Error cause) cause))).
Proof.
  unfold CleanupStyleConflicts.
  destruct (Walk fuel projectPath _ (tt, w)) as [r [[] w1]] eqn:Hw.
  intros [= -> ->].
  destruct (Walk_WalkT _ _ (cleanupFn_cleanupStops _) _ _ _ _ _ _ _ Hw)
    as (tr & Hext & HT).
  apply WalkT_stops in HT as [Hs Hf].
  exists tr. split; [done|]. split.
  - intros pre k cause post Heq. by apply (Hs pre _ post _ Heq).
  - intros e He. destruct (Hf e He) as (pre & ev & -> & Hev).
    exists pre, ev. split; [done|].
    destruct Hev as [Hev|Hev].
    + destruct ev as [q [e'|]|?|q [e'|]|?]; simpl in Hev; try done;
        injection Hev as ->; eauto.
    + destruct ev as [| | |k [cause|]]; simpl in Hev; try done.
      injection Hev as <-. right; right. by exists k, cause.
Qed.

Lemma cleanup_error_is_of_last_call_witness :
  let run := CleanupStyleConflicts 5 ["proj"] "go_zero" readonlyWorld in
  ∃ tr, trace run.2 = tr
    ∧ (∀ pre k cause post, tr = pre ++ EvRemove k (Some cause) :: post →
         post = []
         ∧ run.1 = Returned (Some (wrapError
                     ("failed to remove conflicting file " +:+ pathString k
                        +:+ ": " +:+ Error cause) cause)))
    ∧ (∀ e, run.1 = Returned (Some e) →
         ∃ pre ev, tr = pre ++ [ev]
           ∧ ((∃ q, ev = EvLstat q (inl e)) ∨ (∃ q, ev = EvReadDir q (inl e))
              ∨ (∃ k cause, ev = EvRemove k (Some cause)
                   ∧ e = wrapError
                           ("failed to remove conflicting file " +:+ pathString k
                              +:+ ": " +:+ Error cause) cause))).
Proof.
  intros run.
  destruct (cleanup_error_is_of_last_call 5 ["proj"] "go_zero" readonlyWorld
              run.1 run.2 (surjective_pairing run)) as (tr & Htr & Hrest).
  exists tr. split; [exact Htr|exact Hrest].
Defined.

Example readonlyWorld_cleanup :
  let run := CleanupStyleConflicts 5 ["proj"] "go_zero" readonlyWorld in
  run.1 = Returned (Some svcRefusal)
  ∧ last (trace run.2)
    = Some (EvRemove ["proj"; "internal"; "svc"; "servicecontext.go"]
              (Some (PathError "remove" ["proj"; "internal"; "svc"; "servicecontext.go"]
                       EACCES))).
Proof. split; evaluate. Qed.

(* ===================================================================== *)
(** * The operations that only read, under interference *)
(* ===================================================================== *)

Lemma validateConflicts_reads (root d : path) :
  ∀ (table : list StyleConflictPair) (acc : list string) (w : World) acc' w',
    validateConflicts root d table (acc, w) = (tt, (acc', w')) →
    ∃ tv, extends w w' tv ∧ removeTargets tv = [].
Proof.
  induction table as [|c table IH]; intros acc w acc' w'.
  { simpl. unfold ret. intros [= <- <-]. exists []. split; [apply extends_refl|done]. }
  simpl. unfold bind at 1. unfold sys at 1.
  destruct (fileExists (Join d (GoZeroStyle c)) w) as [a w1] eqn:H1.
  destruct (fileExists_racy _ _ _ _ H1) as (r1 & He1 & ->).
  unfold bind at 1.
  destruct (statSaysFile r1).
  - unfold sys at 1.
    destruct (fileExists (Join d (GoZeroFlat c)) w1) as [b w2] eqn:H2.
    destruct (fileExists_racy _ _ _ _ H2) as (r2 & He2 & ->).
    unfold bind at 1.
    destruct (statSaysFile r2); simpl; intros Hrest;
      destruct (IH _ _ _ _ Hrest) as (tv & Hev & Hnr);
      (eexists; split;
        [eapply extends_trans; [done|]; by eapply extends_trans|]);
      by rewrite !removeTargets_app, Hnr.
  - unfold ret at 1. unfold bind at 1. simpl. intros Hrest.
    destruct (IH _ _ _ _ Hrest) as (tv & Hev & Hnr).
    eexists. split; [by eapply extends_trans|]. by rewrite removeTargets_app, Hnr.
Qed.

(** What the validator callback does, seen from the trace. *)
Definition validateReads (p : path) (err : option error)
    (tv : list Event) (r : option error) : Prop :=
  removeTargets tv = [].

Lemma validateFn_validateReads (root p : path) (info : option FileInfo)
    (err : option error) (c : list string) (w : World) (r : option error)
    (c' : list string) (w' : World) :
  validateFn root p info err (c, w) = (r, (c', w')) →
  ∃ tv, extends w w' tv ∧ validateReads p err tv r.
Proof.
  unfold validateFn, validateReads. destruct err as [e|].
  { unfold ret. intros [= <- <- <-]. exists []. split; [apply extends_refl|done]. }
  destruct info as [i|].
  2: { unfold ret. intros [= <- <- <-]. exists []. split; [apply extends_refl|done]. }
  destruct (IsDir i); cbn [negb].
  2: { unfold ret. intros [= <- <- <-]. exists []. split; [apply extends_refl|done]. }
  unfold bind.
  destruct (validateConflicts root p knownStyleConflicts (c, w)) as [[] [acc1 w1]] eqn:Hv.
  unfold ret. intros [= <- <- <-]. by eapply validateConflicts_reads.
Qed.

Lemma walkT_reads (p : path) (tr : list Event) (res : walkres) :
  walkT validateReads p tr res → removeTargets tr = [].
Proof.
  revert p tr res.
  apply (walkT_mut validateReads
           (λ _ tr _, removeTargets tr = [])
           (λ _ _ tr _, removeTargets tr = [])); unfold validateReads; try done.
  - intros p names tv tl res _ Hv _ IH. simpl. by rewrite removeTargets_app, Hv, IH.
  - intros dir n rest e tv tl res Hv _ IH. simpl. by rewrite removeTargets_app, Hv, IH.
  - intros dir n rest i tc tl res _ IHc _ IH. simpl. by rewrite removeTargets_app, IHc, IH.
Qed.

(** X11.  [ValidateNoStyleConflicts] never writes: on a quiet file system
    the tree after the run is the tree before it, whatever the outcome;
    and whatever an external process does meanwhile, no system call of
    the run is an [os.Remove]. *)
Theorem validate_never_writes (fuel : nat) (projectPath : path) :
  (∀ (fs : FS) (res : walkres) (fs' : FS),
     ValidateNoStyleConflicts fuel projectPath fs = (res, fs') → fs' = fs)
  ∧ (∀ (w : World) (res : walkres) (w' : World),
       ValidateNoStyleConflicts fuel projectPath w = (res, w') →
       ∃ tr, trace w' = trace w ++ tr ∧ ∀ k r, EvRemove k r ∉ tr).
Proof.
  split.
  - intros fs res fs' Hv. by destruct (Validate_quiet _ _ _ _ _ Hv) as [-> _].
  - intros w res w'. unfold ValidateNoStyleConflicts.
    destruct (Walk fuel projectPath _ ([], w)) as [r [acc w1]] eqn:Hw.
    destruct (Walk_WalkT _ _ (validateFn_validateReads projectPath) _ _ _ _ _ _ _ Hw)
      as (tr & Hext & HT).
    intros Hres. exists tr.
    assert (w' = w1) as ->.
    { destruct r as [|[e|]]; [by injection Hres..|].
      by case_decide; injection Hres. }
    split; [done|]. intros k r0 Hin.
    assert (Hnone : removeTargets tr = []).
    { destruct HT as [e tv r' Hv|i tc res' Hwt]; simpl; [done|].
      by apply walkT_reads in Hwt. }
    assert (k ∈ removeTargets tr); [|by rewrite Hnone in *; eapply elem_of_nil].
    unfold removeTargets. apply list_elem_of_omap. by exists (EvRemove k r0).
Qed.

(** ** Detection as a sequence of [Stat] calls *)

Section Probe.
Context {W : Type} `{OSW : OS W}.

(** A linear search through candidate files: the tag of the first one
    that [fileExists] accepts, or the empty string. *)
Fixpoint probe (cands : list (path * string)) : M W string :=
  match cands with
  | [] => ret ""
  | cand :: rest =>
      let! b := fileExists cand.1 in
      if b then ret cand.2 else probe rest
  end.

Lemma detectInDirs_probe (c : StyleConflictPair) (later : list (path * string))
    (k : M W string) :
  (∀ w, k w = probe later w) →
  ∀ (dirs : list path) (w : W),
    (let! found := detectInDirs c dirs in
     match found with Some style => ret style | None => k end) w
    = probe (flat_map (dirCandidates c) dirs ++ later) w.
Proof.
  intros Hk. induction dirs as [|dir rest IH]; intros w; [apply Hk|].
  specialize (IH). revert IH. simpl. unfold bind, Join.
  intros IH.
  destruct (fileExists (dir ++ [GoZeroStyle c]) w) as [a w1]. destruct a; [done|].
  destruct (fileExists (dir ++ [GoZeroFlat c]) w1) as [b w2]. destruct b; [done|].
  apply IH.
Qed.

Lemma detectInTable_probe (projectPath : path) :
  ∀ (table : list StyleConflictPair) (w : W),
    detectInTable projectPath table w
    = probe (flat_map (λ c, flat_map (dirCandidates c) (conventionDirs projectPath))
                      table) w.
Proof.
  induction table as [|c rest IH]; intros w; [done|].
  cbn [detectInTable flat_map].
  apply (detectInDirs_probe c _ (detectInTable projectPath rest) IH).
Qed.
End Probe.

Lemma probe_racy (cands : list (path * string)) :
  ∀ (w : World) (s : string) (w' : World),
    probe cands w = (s, w') →
    ∃ answers : list (error + FileInfo),
      extends w w' (zip_with EvStat cands.*1 answers)
      ∧ length answers ≤ length cands
      ∧ ((∃ pre r q, answers = pre ++ [r]
            ∧ Forall (λ x, statSaysFile x = false) pre
            ∧ statSaysFile r = true ∧ cands !! length pre = Some (q, s))
         ∨ (Forall (λ x, statSaysFile x = false) answers
            ∧ length answers = length cands ∧ s = "")).
Proof.
  induction cands as [|[q tag] rest IH]; intros w s w'.
  { simpl. unfold ret. intros [= <- <-]. exists []. split; [apply extends_refl|].
    split; [done|]. right. by split. }
  simpl. unfold bind.
  destruct (fileExists q w) as [b w1] eqn:H1.
  destruct (fileExists_racy _ _ _ _ H1) as (r & He & ->).
  destruct (statSaysFile r) eqn:Hr.
  - unfold ret. intros [= <- <-]. exists [r]. split; [by destruct rest|].
    split; [simpl; lia|]. left. exists [], r, q. by repeat split.
  - intros Hrest. destruct (IH _ _ _ Hrest) as (answers & Hext & Hlen & Hcase).
    exists (r :: answers). split; [by apply (extends_trans _ _ _ _ _ He Hext)|].
    split; [simpl; lia|].
    destruct Hcase as [(pre & r' & q' & -> & Hpre & Hr' & Hlook)|(Hall & Hl & ->)].
    + left. exists (r :: pre), r', q'. repeat split; try done. by constructor.
    + right. repeat split; [by constructor|simpl; lia].
Qed.

(** [sampleTree], with an external process that deletes both candidate
    files of [internal/svc] before the detector's first call. *)
Definition emptiedWorld : World :=
  mkWorld sampleTree
    [[ExtDel ["proj"; "internal"; "svc"; "service_context.go"];
      ExtDel ["proj"; "internal"; "svc"; "servicecontext.go"]]] [].

(** X12.  Whatever an external process does to the tree meanwhile,
    [DetectExistingStyle] makes [Stat] calls only, at most six of them,
    on the candidate files in their order; it stops at the first call
    that reports an entry that is not a directory and returns the tag of
    that candidate; it returns the empty string only after all six calls
    reported none.  Its result is [go_zero], [gozero] or the empty
    string.  On every implementation of the system calls it is this
    linear search. *)
Theorem detect_under_interference (projectPath : path) :
  (∀ (W : Type) (OSW : OS W) (w : W),
     DetectExistingStyle projectPath w = probe (detectCandidates projectPath) w)
  ∧ (∀ (w : World) (s : string) (w' : World),
       DetectExistingStyle projectPath w = (s, w') →
       (s = "go_zero" ∨ s = "gozero" ∨ s = "")
       ∧ ∃ answers : list (error + FileInfo),
           trace w' = trace w
                      ++ zip_with EvStat (detectCandidates projectPath).*1 answers
           ∧ length answers ≤ 6
           ∧ ((∃ pre r q, answers = pre ++ [r]
                 ∧ Forall (λ x, statSaysFile x = false) pre
                 ∧ statSaysFile r = true
                 ∧ detectCandidates projectPath !! length pre = Some (q, s))
              ∨ (Forall (λ x, statSaysFile x = false) answers
                 ∧ length answers = 6 ∧ s = ""))).
Proof.
  split.
  - intros W OSW w. unfold DetectExistingStyle. apply detectInTable_probe.
  - intros w s w' Hd. unfold DetectExistingStyle in Hd.
    rewrite detectInTable_probe in Hd. fold (detectCandidates projectPath) in Hd.
    destruct (probe_racy _ _ _ _ Hd) as (answers & Hext & Hlen & Hcase).
    split.
    + destruct Hcase as [(pre & r & q & _ & _ & _ & Hlook)|(_ & _ & ->)]; [|auto].
      apply list_elem_of_lookup_2, list_elem_of_In, detectCandidates_tag in Hlook.
      simpl in Hlook. tauto.
    + by exists answers.
Qed.

Example detect_emptiedWorld :
  let run := DetectExistingStyle ["proj"] emptiedWorld in
  run.1 = "" ∧ length (trace run.2) = 6 ∧ removeTargets (trace run.2) = [].
Proof. repeat split; evaluate. Qed.

(* ===================================================================== *)
(** * The order of the validator's diagnostics *)
(* ===================================================================== *)

(** Lexical order of paths, component by component, each component by
    its bytes: a directory comes before what is below it, and the entries
    of a directory come in the order of their names. *)
Fixpoint pathLe (a b : path) : Prop :=
  match a, b with
  | [], _ => True
  | _ :: _, [] => False
  | x :: a', y :: b' => (x ≠ y ∧ String.le x y) ∨ (x = y ∧ pathLe a' b')
  end.

Global Instance pathLe_dec : RelDecision pathLe.
Proof.
  intros a. induction a as [|x a IH]; intros [|y b]; simpl; apply _.
Defined.

Lemma pathLe_refl (a : path) : pathLe a a.
Proof. induction a as [|x a IH]; simpl; auto. Qed.

Lemma pathLe_app (p a b : path) : pathLe a b → pathLe (p ++ a) (p ++ b).
Proof. intros H. induction p as [|x p IH]; simpl; auto. Qed.

Lemma pathLe_prefix (p d : path) : p `prefix_of` d → pathLe p d.
Proof.
  intros [s ->]. rewrite <- (right_id_L [] (++) p) at 1. by apply pathLe_app.
Qed.

Lemma pathLe_diverge (p d1 d2 : path) (n1 n2 : string) :
  n1 ≠ n2 → String.le n1 n2 →
  p ++ [n1] `prefix_of` d1 → p ++ [n2] `prefix_of` d2 → pathLe d1 d2.
Proof.
  intros Hne Hle [s1 ->] [s2 ->]. rewrite <- !(assoc_L (++)).
  apply pathLe_app. simpl. auto.
Qed.

Lemma StronglySorted_entries (fs : FS) (dir : path) :
  StronglySorted String.le (entries fs dir).
Proof. unfold entries. apply StronglySorted_merge_sort; apply _. Qed.

Section ValidateOrder.
Variable root : path.

Local Abbreviation T := knownStyleConflicts.
Local Abbreviation vfn := (validateFn (W := FS) root).

Definition ordered_spec (f : nat) : Prop :=
  ∀ (p : path) (i : FileInfo) (acc : list string) (fs : FS)
    (acc' : list string) (fs' : FS),
    walk f vfn p i (acc, fs) = (Returned None, (acc', fs')) →
    namei fs p = inr i →
    ∃ L, acc' = acc ++ (lineOf root <$> L)
         ∧ conflictsIn fs (λ d, p `prefix_of` d) L
         ∧ allConflictsIn fs (λ d, p `prefix_of` d) L
         ∧ StronglySorted pathLe L.*1.

Lemma walkNames_ordered (f : nat) (p : path) (i : FileInfo) :
  ordered_spec f → IsDir i = true →
  ∀ (names : list string) (acc : list string) (fs : FS)
    (acc' : list string) (fs' : FS),
    walkNames (walk f vfn) vfn p names (acc, fs) = (Returned None, (acc', fs')) →
    namei fs p = inr i → NoDup names → StronglySorted String.le names →
    ∃ L, acc' = acc ++ (lineOf root <$> L)
         ∧ conflictsIn fs (belowNames p names) L
         ∧ allConflictsIn fs (belowNames p names) L
         ∧ StronglySorted pathLe L.*1.
Proof.
  intros IHf Hd.
  induction names as [|n rest IH]; intros acc fs acc' fs' Hw Hp Hnd Hso.
  - revert Hw. simpl. unfold ret. intros [= <- <-].
    exists []. simpl. rewrite (right_id_L [] (++)). split; [done|]. split.
    + split; [constructor|]. intros d c Hx. by apply elem_of_nil in Hx.
    + split; [|constructor]. intros d c (n & Hn & _). by apply elem_of_nil in Hn.
  - apply NoDup_cons in Hnd as [Hn_rest Hnd].
    apply StronglySorted_cons in Hso as [Hle Hso].
    revert Hw. simpl. unfold bind at 1. simpl. unfold fs_lstat, Join.
    destruct (namei fs (p ++ [n])) as [e|j] eqn:Hn.
    { unfold bind. by rewrite validateFn_error. }
    unfold bind.
    destruct (walk f vfn (p ++ [n]) j (acc, fs)) as [r1 [acc1 fs1]] eqn:Hw1.
    destruct (walk_validate root f _ _ _ _ _ _ _ Hw1 Hn) as [-> _].
    destruct r1 as [|[e|]]; [done|done|]. intros Hrest.
    destruct (IHf _ _ _ _ _ _ Hw1 Hn) as (L1 & -> & [Hnd1 Hsd1] & Hall1 & Hso1).
    destruct (IH _ _ _ _ Hrest Hp Hnd Hso) as (L2 & -> & [Hnd2 Hsd2] & Hall2 & Hso2).
    exists (L1 ++ L2). split; [by rewrite fmap_app, (assoc_L (++))|]. split.
    { split.
      - apply NoDup_app. split; [done|]. split; [|done].
        intros [d c] Hx1 Hx2.
        destruct (Hsd2 d c Hx2) as [(n' & Hn' & Hpre') _].
        destruct (Hsd1 d c Hx1) as [Hpre _].
        by rewrite (prefix_snoc_inj _ _ _ _ Hpre Hpre') in Hn_rest.
      - intros d c [Hx|Hx]%elem_of_app.
        + destruct (Hsd1 d c Hx) as [Hpre ?]. split; [|done].
          exists n. split; [by left|done].
        + destruct (Hsd2 d c Hx) as [(n' & Hn' & Hpre') ?].
          split; [|done]. exists n'. split; [by right|done]. }
    split.
    { intros d c (n' & [->|Hn']%elem_of_cons & Hpre) Hc Hcf.
      - apply elem_of_app. left. by apply Hall1.
      - apply elem_of_app. right. apply Hall2; [|done..]. by exists n'. }
    rewrite fmap_app. apply StronglySorted_app_2; [|done..].
    intros d1 d2 ([d1' c1] & -> & Hx1)%list_elem_of_fmap
                 ([d2' c2] & -> & Hx2)%list_elem_of_fmap. simpl.
    destruct (Hsd1 _ _ Hx1) as [Hpre1 _].
    destruct (Hsd2 _ _ Hx2) as [(n' & Hn' & Hpre2) _].
    eapply (pathLe_diverge p _ _ n n'); [|by eapply Forall_forall in Hle|done..].
    by intros ->.
Qed.

Lemma walk_ordered : ∀ f, ordered_spec f.
Proof.
  induction f as [|f IHf]; intros p i acc fs acc' fs'; [done|].
  simpl. destruct (IsDir i) eqn:Hd; simpl.
  - unfold bind at 1. simpl. unfold fs_readDirNames. intros Hw Hp.
    rewrite Hp, Hd in Hw. simpl in Hw.
    destruct (Readable i) eqn:Hr; simpl in Hw.
    2: { revert Hw. unfold bind. by rewrite validateFn_error. }
    revert Hw. unfold bind. rewrite validateFn_dir by done.
    set (Lp := (λ c, (p, c)) <$> filter (λ c, conflictAt fs p c = true) T).
    intros Hw.
    destruct (walkNames_ordered f p i IHf Hd _ _ _ _ _ Hw Hp (NoDup_entries fs p)
                (StronglySorted_entries fs p))
      as (L2 & -> & [Hnd2 Hsd2] & Hall2 & Hso2).
    exists (Lp ++ L2).
    split; [by rewrite fmap_app, (assoc_L (++))|].
    assert (HLp : ∀ d c, (d, c) ∈ Lp ↔ d = p ∧ c ∈ T ∧ conflictAt fs p c = true).
    { intros d c. unfold Lp. rewrite list_elem_of_fmap. split.
      - intros (c' & [= -> ->] & [??]%list_elem_of_filter). done.
      - intros (-> & ? & ?). exists c. split; [done|]. by apply list_elem_of_filter. }
    split; [split|split].
    + apply NoDup_app. split.
      { apply NoDup_fmap_2; [by intros ?? [=]|].
        apply NoDup_filter, NoDup_knownStyleConflicts. }
      split; [|done]. intros [d c] [-> _]%HLp Hx2.
      destruct (Hsd2 _ _ Hx2) as [(n & _ & Hpre) _].
      by apply prefix_snoc_ne in Hpre.
    + intros d c [Hx|Hx]%elem_of_app.
      { apply HLp in Hx as (-> & ? & ?). done. }
      destruct (Hsd2 _ _ Hx) as [(n & _ & Hpre) ?]. split; [|done].
      etrans; [|done]. by exists [n].
    + intros d c [->|[n Hn]]%prefix_cases Hc Hcf.
      * apply elem_of_app. left. by apply HLp.
      * apply elem_of_app. right. apply Hall2; [|done..].
        exists n. split; [|done]. apply elem_of_entries.
        assert (isDirAt fs (p ++ [n])) as (j & Hj & _).
        { eapply isDirAt_prefix; [done|]. by eapply conflictAt_isDirAt. }
        apply namei_lookup in Hj. by rewrite Hj.
    + rewrite fmap_app. apply StronglySorted_app_2; [| |done].
      * intros d1 d2 ([d1' c1] & -> & Hx1)%list_elem_of_fmap
                     ([d2' c2] & -> & Hx2)%list_elem_of_fmap. simpl.
        apply HLp in Hx1 as (-> & _).
        destruct (Hsd2 _ _ Hx2) as [(n & _ & Hpre) _].
        apply pathLe_prefix. etrans; [|done]. by exists [n].
      * unfold Lp. rewrite <- list_fmap_compose.
        generalize (filter (λ c, conflictAt fs p c = true) T).
        intros l. induction l as [|c l IHl]; simpl; constructor; [done|].
        apply Forall_fmap, Forall_forall. intros c' _. apply pathLe_refl.
  - unfold bind. rewrite validateFn_file by done. unfold ret.
    intros [= <- <-] Hp. exists []. simpl.
    rewrite (right_id_L [] (++)). split; [done|]. split; [|split].
    + split; [constructor|]. intros d c Hx. by apply elem_of_nil in Hx.
    + intros d c Hpre Hc Hcf.
      rewrite (noConflictUnder_unresolved fs p) in Hcf; [done| |done..].
      intros (j & Hj & Hdj). congruence.
    + constructor.
Qed.
End ValidateOrder.

(** X13.  Whenever [ValidateNoStyleConflicts] returns something other
    than a traversal error, it has found every directory/pair at or
    below [projectPath] in which both halves exist, each once, and its
    diagnostics come in lexical order of the directory paths (component
    by component: a directory before what is below it, the entries of a
    directory in the order of their names).  With no such directory it
    returns [nil]; otherwise the one error whose message lists them, one
    per line, in that order. *)
Theorem validate_reports_in_walk_order (fuel : nat) (projectPath : path) (fs : FS)
    (r : option error) (fs' : FS) :
  ValidateNoStyleConflicts fuel projectPath fs = (Returned r, fs') →
  (∀ op q errno, r ≠ Some (PathError op q errno)) →
  ∃ L : list (path * StyleConflictPair),
    NoDup L
    ∧ (∀ d c, (d, c) ∈ L ↔
         projectPath `prefix_of` d ∧ c ∈ knownStyleConflicts ∧ conflictAt fs d c = true)
    ∧ StronglySorted pathLe L.*1
    ∧ r = match L with
          | [] => None
          | _ :: _ =>
              Some (errorString
                ("style conflicts detected:" +:+ newline
                   +:+ String.concat newline (lineOf projectPath <$> L)))
          end.
Proof.
  unfold ValidateNoStyleConflicts, Walk. unfold bind at 1. simpl. unfold fs_lstat.
  destruct (namei fs projectPath) as [errno|i] eqn:Hn.
  { unfold bind. rewrite validateFn_error. unfold ret. intros [= <- _] Hne.
    by destruct (Hne "lstat" projectPath errno). }
  destruct (walk fuel _ projectPath i ([], fs)) as [r0 [acc fs1]] eqn:Hw.
  destruct r0 as [|[e|]]; [done| |].
  - intros [= <- _] Hne.
    destruct (walk_validate projectPath fuel _ _ _ _ _ _ _ Hw Hn)
      as (_ & L & _ & _ & [(op & q & errno & ->) _]).
    by destruct (Hne op q errno).
  - destruct (walk_ordered projectPath fuel _ _ _ _ _ _ Hw Hn)
      as (L & -> & [Hnd Hsound] & Hall & Hso).
    intros Hres _. exists L. split; [done|]. split.
    { intros d c. split; [apply Hsound|]. intros (? & ? & ?). by apply Hall. }
    split; [done|]. simpl in Hres. rewrite length_fmap in Hres.
    destruct L as [|x L]; simpl in Hres.
    + by injection Hres as <-.
    + by injection Hres as <-.
Qed.

Lemma validate_reports_in_walk_order_witness :
  ∃ L : list (path * StyleConflictPair),
    NoDup L
    ∧ (∀ d c, (d, c) ∈ L ↔
         ["proj"] `prefix_of` d ∧ c ∈ knownStyleConflicts
         ∧ conflictAt sampleTree d c = true)
    ∧ StronglySorted pathLe L.*1
    ∧ Some (errorString
        ("style conflicts detected:" +:+ newline
         +:+ "api: both service_context.go and servicecontext.go exist" +:+ newline
         +:+ "internal/svc: both service_context.go and servicecontext.go exist"))
      = match L with
        | [] => None
        | _ :: _ =>
            Some (errorString
              ("style conflicts detected:" +:+ newline
                 +:+ String.concat newline (lineOf ["proj"] <$> L)))
        end.
Proof.
  apply (validate_reports_in_walk_order 5 ["proj"] sampleTree _ sampleTree).
  - evaluate.
  - done.
Defined.

(* ===================================================================== *)
(** * What the validator reports, under interference *)
(* ===================================================================== *)

(** ** An invariant of the captured state and the file system *)

Section WalkInvariant.
Context {W : Type} `{OSW : OS W} {C : Type}.
Variable root : path.
Variable I : C → W → Prop.
Variable fn : WalkFunc (W := W) (C := C).

Hypothesis Lstat_I : ∀ (p : path) (c : C) (w : W) r (w' : W),
  Lstat p w = (r, w') → I c w → I c w'.
Hypothesis readDirNames_I : ∀ (p : path) (c : C) (w : W) r (w' : W),
  readDirNames p w = (r, w') → I c w → I c w'.
Hypothesis fn_I : ∀ p info err (c : C) (w : W) r (c' : C) (w' : W),
  root `prefix_of` p → fn p info err (c, w) = (r, (c', w')) → I c w → I c' w'.

Lemma walkNames_I (rec : path → FileInfo → M (C * W) walkres) (dir : path) :
  root `prefix_of` dir →
  (∀ (n : string) (i : FileInfo) (c : C) (w : W) res (c' : C) (w' : W),
     rec (Join dir n) i (c, w) = (res, (c', w')) → I c w → I c' w') →
  ∀ (names : list string) (c : C) (w : W) res (c' : C) (w' : W),
    walkNames rec fn dir names (c, w) = (res, (c', w')) → I c w → I c' w'.
Proof.
  intros Hdir Hrec. induction names as [|n rest IH]; intros c w res c' w'.
  { simpl. unfold ret. by intros [= _ <- <-]. }
  assert (Hpre : root `prefix_of` Join dir n).
  { etrans; [done|]. by exists [n]. }
  cbn [walkNames]. unfold bind at 1. unfold sys at 1.
  destruct (Lstat (Join dir n) w) as [r w1] eqn:Hl.
  intros Hw Hi. apply (Lstat_I _ _ _ _ _ Hl) in Hi. revert Hw.
  destruct r as [e|j]; unfold bind.
  - destruct (fn (Join dir n) None (Some e) (c, w1)) as [r [c2 w2]] eqn:Hfn.
    apply (fn_I _ _ _ _ _ _ _ _ Hpre Hfn) in Hi. destruct r as [e1|].
    + unfold ret. by intros [= _ <- <-].
    + intros Hrest. by eapply IH.
  - destruct (rec (Join dir n) j (c, w1)) as [r [c2 w2]] eqn:Hr.
    apply (Hrec _ _ _ _ _ _ _ Hr) in Hi.
    destruct r as [|[e1|]]; [unfold ret; by intros [= _ <- <-]..|].
    intros Hrest. by eapply IH.
Qed.

Lemma walk_I (f : nat) :
  ∀ (p : path) (i : FileInfo) (c : C) (w : W) res (c' : C) (w' : W),
    root `prefix_of` p →
    walk f fn p i (c, w) = (res, (c', w')) → I c w → I c' w'.
Proof.
  induction f as [|f IHf]; intros p i c w res c' w' Hp.
  { simpl. unfold ret. by intros [= _ <- <-]. }
  cbn [walk]. destruct (negb (IsDir i)).
  { unfold bind.
    destruct (fn p (Some i) None (c, w)) as [r [c1 w1]] eqn:Hfn.
    unfold ret. intros [= _ <- <-] Hi. by eapply fn_I. }
  unfold bind at 1. unfold sys at 1.
  destruct (readDirNames p w) as [r w1] eqn:Hr.
  intros Hw Hi. apply (readDirNames_I _ _ _ _ _ Hr) in Hi. revert Hw.
  destruct r as [e|names]; unfold bind.
  - destruct (fn p (Some i) (Some e) (c, w1)) as [r [c2 w2]] eqn:Hfn.
    unfold ret. intros [= _ <- <-]. by eapply fn_I.
  - destruct (fn p (Some i) None (c, w1)) as [r [c2 w2]] eqn:Hfn.
    apply (fn_I _ _ _ _ _ _ _ _ Hp Hfn) in Hi. destruct r as [e1|].
    + unfold ret. by intros [= _ <- <-].
    + intros Hw. eapply (walkNames_I _ p Hp); [|done..].
      intros n j c0 w0 res0 c0' w0'. apply IHf.
      etrans; [done|]. by exists [n].
Qed.

Lemma Walk_I (fuel : nat) (c : C) (w : W) res (c' : C) (w' : W) :
  Walk fuel root fn (c, w) = (res, (c', w')) → I c w → I c' w'.
Proof.
  unfold Walk. unfold bind at 1. unfold sys at 1.
  destruct (Lstat root w) as [r w1] eqn:Hl.
  intros Hw Hi. apply (Lstat_I _ _ _ _ _ Hl) in Hi. revert Hw.
  destruct r as [e|i].
  - unfold bind.
    destruct (fn root None (Some e) (c, w1)) as [r [c2 w2]] eqn:Hfn.
    unfold ret. intros [= _ <- <-]. by eapply fn_I.
  - intros Hw. by eapply walk_I.
Qed.
End WalkInvariant.

(** ** Sightings of a conflict in a trace *)

(** The calls [tr] hold a sighting of the pair [c] in [d]: a [Stat] of
    the snake_case file that found an entry other than a directory,
    followed at once by a [Stat] of the flat-named file that did so too. *)
Definition observedBoth (d : path) (c : StyleConflictPair) (tr : list Event) : Prop :=
  ∃ pre i1 i2 post,
    tr = pre ++ EvStat (Join d (GoZeroStyle c)) (inr i1)
               :: EvStat (Join d (GoZeroFlat c)) (inr i2) :: post
    ∧ IsDir i1 = false ∧ IsDir i2 = false.

Lemma observedBoth_app_r (d : path) (c : StyleConflictPair) (tr t2 : list Event) :
  observedBoth d c tr → observedBoth d c (tr ++ t2).
Proof.
  intros (pre & i1 & i2 & post & -> & ?). exists pre, i1, i2, (post ++ t2).
  by rewrite <- (assoc_L (++)).
Qed.

Lemma observedBoth_snoc (d : path) (c : StyleConflictPair) (tr : list Event) (ev : Event) :
  observedBoth d c (tr ++ [ev]) →
  observedBoth d c tr
  ∨ ∃ tr' i1 i2, tr = tr' ++ [EvStat (Join d (GoZeroStyle c)) (inr i1)]
      ∧ ev = EvStat (Join d (GoZeroFlat c)) (inr i2)
      ∧ IsDir i1 = false ∧ IsDir i2 = false.
Proof.
  intros (pre & i1 & i2 & post & Heq & H1 & H2).
  destruct post as [|x post _] using rev_ind.
  - right. exists pre, i1, i2.
    change (pre ++ [?a; ?b]) with (pre ++ [a] ++ [b]) in Heq.
    rewrite (assoc_L (++)) in Heq. apply app_inj_tail in Heq as [-> ->]. done.
  - left. exists pre, i1, i2, post.
    change (pre ++ ?a :: ?b :: post ++ [x]) with (pre ++ (a :: b :: post) ++ [x]) in Heq.
    rewrite (assoc_L (++)) in Heq. apply app_inj_tail in Heq as [-> _]. done.
Qed.

Lemma snake_not_flat (c c' : StyleConflictPair) :
  c ∈ knownStyleConflicts → c' ∈ knownStyleConflicts → GoZeroStyle c ≠ GoZeroFlat c'.
Proof. apply (kept_not_loser true). Qed.

Section Faithful.
Variable root : path.
Variable w0 : World.

Local Abbreviation T := knownStyleConflicts.

(** The lines [lines] are the sightings of [tr]: each line is of a
    sighting, and each sighting has its line. *)
Definition faithful (lines : list string) (tr : list Event) : Prop :=
  (∀ line, line ∈ lines →
     ∃ d c, root `prefix_of` d ∧ c ∈ T ∧ line = conflictLine root d c
            ∧ observedBoth d c tr)
  ∧ (∀ d c, c ∈ T → observedBoth d c tr → conflictLine root d c ∈ lines).

Definition faithfulSince (lines : list string) (w : World) : Prop :=
  ∃ tr, extends w0 w tr ∧ faithful lines tr.

Lemma faithful_snoc (lines : list string) (tr : list Event) (ev : Event) :
  faithful lines tr →
  (∀ d c tr' i1 i2, c ∈ T →
     tr = tr' ++ [EvStat (Join d (GoZeroStyle c)) (inr i1)] →
     ev = EvStat (Join d (GoZeroFlat c)) (inr i2) →
     IsDir i1 = false → IsDir i2 = false → conflictLine root d c ∈ lines) →
  faithful lines (tr ++ [ev]).
Proof.
  intros [Hs Hc] Hnew. split.
  - intros line Hl. destruct (Hs line Hl) as (d & c & ? & ? & ? & Ho).
    exists d, c. repeat split; try done. by apply observedBoth_app_r.
  - intros d c Hk [Ho|(tr' & i1 & i2 & -> & -> & H1 & H2)]%observedBoth_snoc.
    + by apply Hc.
    + by eapply Hnew.
Qed.

Lemma faithful_sighting (lines : list string) (tr : list Event) (d : path)
    (c : StyleConflictPair) (i1 i2 : FileInfo) :
  faithful lines (tr ++ [EvStat (Join d (GoZeroStyle c)) (inr i1)]) →
  root `prefix_of` d → c ∈ T → IsDir i1 = false → IsDir i2 = false →
  faithful (lines ++ [conflictLine root d c])
    ((tr ++ [EvStat (Join d (GoZeroStyle c)) (inr i1)])
       ++ [EvStat (Join d (GoZeroFlat c)) (inr i2)]).
Proof.
  intros [Hs Hc] Hd Hk H1 H2. split.
  - intros line [Hl| ->%list_elem_of_singleton]%elem_of_app.
    + destruct (Hs line Hl) as (d' & c' & ? & ? & ? & Ho).
      exists d', c'. repeat split; try done. by apply observedBoth_app_r.
    + exists d, c. repeat split; try done.
      exists tr, i1, i2, []. by rewrite <- (assoc_L (++)).
  - intros d' c' Hk' [Ho|(tr' & i1' & i2' & Heq1 & [= Heq2] & _)]%observedBoth_snoc.
    + apply elem_of_app. left. by apply Hc.
    + apply elem_of_app. right. apply list_elem_of_singleton.
      apply app_inj_tail in Heq1 as [_ [= Heq1]].
      apply app_inj_tail in Heq2 as [<- Hflat].
      apply app_inj_tail in Heq1 as [_ Hsnake].
      unfold conflictLine. by rewrite Hsnake, Hflat.
Qed.

Lemma faithfulSince_call (lines : list string) (w w' : World) (ev : Event) :
  extends w w' [ev] →
  (∀ q i, ev ≠ EvStat q (inr i)) →
  faithfulSince lines w → faithfulSince lines w'.
Proof.
  intros Hext Hev (tr & Htr & Hf). exists (tr ++ [ev]).
  split; [by eapply extends_trans|]. apply faithful_snoc; [done|].
  intros d c tr' i1 i2 _ _ ->. by destruct (Hev (Join d (GoZeroFlat c)) i2).
Qed.

Lemma validateConflicts_faithful (d : path) :
  root `prefix_of` d →
  ∀ (table : list StyleConflictPair) (acc : list string) (w : World) acc' w',
    (∀ c, c ∈ table → c ∈ T) →
    validateConflicts root d table (acc, w) = (tt, (acc', w')) →
    faithfulSince acc w → faithfulSince acc' w'.
Proof.
  intros Hd. induction table as [|c table IH]; intros acc w acc' w' HT.
  { simpl. unfold ret. by intros [= <- <-]. }
  assert (Hc : c ∈ T) by (apply HT; by left).
  assert (HT' : ∀ c', c' ∈ table → c' ∈ T) by (intros c' Hc'; apply HT; by right).
  simpl. unfold bind at 1. unfold sys at 1.
  destruct (fileExists (Join d (GoZeroStyle c)) w) as [a w1] eqn:H1.
  destruct (fileExists_racy _ _ _ _ H1) as (r1 & He1 & ->).
  intros Hrest (tr & Htr & Hf). revert Hrest.
  assert (Hf1 : faithful acc (tr ++ [EvStat (Join d (GoZeroStyle c)) r1])).
  { apply faithful_snoc; [done|]. intros d' c' tr' i1 i2 Hc' _ [= Heq _].
    apply app_inj_tail in Heq as [_ Heq]. by apply snake_not_flat in Heq. }
  pose proof (extends_trans _ _ _ _ _ Htr He1) as Htr1.
  unfold bind at 1.
  destruct (statSaysFile r1) eqn:Hs1.
  - apply statSaysFile_true in Hs1 as (i1 & -> & Hd1).
    unfold sys at 1.
    destruct (fileExists (Join d (GoZeroFlat c)) w1) as [b w2] eqn:H2.
    destruct (fileExists_racy _ _ _ _ H2) as (r2 & He2 & ->).
    pose proof (extends_trans _ _ _ _ _ Htr1 He2) as Htr2.
    unfold bind at 1.
    destruct (statSaysFile r2) eqn:Hs2; simpl; intros Hrest;
      apply (IH _ _ _ _ HT' Hrest); eexists; (split; [exact Htr2|]).
    + apply statSaysFile_true in Hs2 as (i2 & -> & Hd2).
      by apply faithful_sighting.
    + apply faithful_snoc; [done|].
      intros d' c' tr' i1' i2' _ _ [= _ ->] _ Hd2. simpl in Hs2.
      by rewrite Hd2 in Hs2.
  - unfold ret at 1. unfold bind at 1. simpl. intros Hrest.
    apply (IH _ _ _ _ HT' Hrest). by eexists.
Qed.
End Faithful.

Lemma validateFn_faithful (root : path) (w0 : World) (p : path)
    (info : option FileInfo) (err : option error) (acc : list string) (w : World)
    (r : option error) (acc' : list string) (w' : World) :
  root `prefix_of` p →
  validateFn root p info err (acc, w) = (r, (acc', w')) →
  faithfulSince root w0 acc w → faithfulSince root w0 acc' w'.
Proof.
  intros Hp. unfold validateFn. destruct err as [e|].
  { unfold ret. by intros [= _ <- <-]. }
  destruct info as [i|]; [|unfold ret; by intros [= _ <- <-]].
  destruct (IsDir i); cbn [negb]; [|unfold ret; by intros [= _ <- <-]].
  unfold bind.
  destruct (validateConflicts root p knownStyleConflicts (acc, w)) as [[] [acc1 w1]] eqn:Hv.
  unfold ret. intros [= _ <- <-].
  by apply (validateConflicts_faithful root w0 p Hp _ _ _ _ _ (λ c H, H) Hv).
Qed.

Lemma Walk_faithful (fuel : nat) (root : path) (w : World) (res : walkres)
    (acc : list string) (w' : World) :
  Walk fuel root (validateFn root) ([], w) = (res, (acc, w')) →
  ∃ tr, extends w w' tr ∧ faithful root acc tr.
Proof.
  intros Hw.
  apply (Walk_I root (faithfulSince root w) (validateFn root)) in Hw; [done|..].
  - intros p c v r v' Hl. simpl in Hl. apply racy_lstat_extends in Hl.
    by apply (faithfulSince_call root w c v v' _ Hl).
  - intros p c v r v' Hl. simpl in Hl. apply racy_readDirNames_extends in Hl.
    by apply (faithfulSince_call root w c v v' _ Hl).
  - intros p info err c v r c' v' Hp. by apply validateFn_faithful.
  - exists []. split; [apply extends_refl|]. split.
    + intros line Hl. by apply elem_of_nil in Hl.
    + intros d c _ (pre & i1 & i2 & post & Heq & _). by destruct pre.
Qed.

(** An error of a validation walk is the error of its last call. *)
Lemma walkT_validate_error (p : path) (tr : list Event) (res : walkres) :
  walkT validateV p tr res →
  ∀ e, res = Returned (Some e) → ∃ pre ev, tr = pre ++ [ev] ∧ failure ev = Some e.
Proof.
  revert p tr res.
  assert (Hcons : ∀ (x : Event) (tr : list Event) (e : error),
    (∃ pre ev, tr = pre ++ [ev] ∧ failure ev = Some e) →
    ∃ pre ev, x :: tr = pre ++ [ev] ∧ failure ev = Some e).
  { intros x tr e (pre & ev & -> & Hev). by exists (x :: pre), ev. }
  assert (Happ : ∀ (t1 tr : list Event) (e : error),
    (∃ pre ev, tr = pre ++ [ev] ∧ failure ev = Some e) →
    ∃ pre ev, t1 ++ tr = pre ++ [ev] ∧ failure ev = Some e).
  { intros t1 tr e (pre & ev & -> & Hev). exists (t1 ++ pre), ev.
    by rewrite (assoc_L (++)). }
  apply (walkT_mut validateV
           (λ _ tr res, ∀ e, res = Returned (Some e) →
              ∃ pre ev, tr = pre ++ [ev] ∧ failure ev = Some e)
           (λ _ _ tr res, ∀ e, res = Returned (Some e) →
              ∃ pre ev, tr = pre ++ [ev] ∧ failure ev = Some e)).
  - done.
  - by intros p tv r [_ ->].
  - intros p e tv r [-> ->] e' [= <-]. by exists [], (EvReadDir p (inl e)).
  - by intros p names tv e [_ ?].
  - intros p names tv tl res _ _ _ IH e He. apply Hcons, Happ. by apply IH.
  - done.
  - intros dir n rest e tv e' [-> [= ->]] e0 [= <-].
    by exists [], (EvLstat (Join dir n) (inl e)).
  - by intros dir n rest e tv tl res [_ ?].
  - intros dir n rest i tc res _ IH _ e He. apply Hcons. by apply IH.
  - intros dir n rest i tc tl res _ _ _ IH e He. apply Hcons, Happ. by apply IH.
Qed.

(** [sampleTree], with an external process that removes the conflict of
    [proj/api] before the validator gets there, and makes one in
    [proj/cmd] just before the validator looks. *)
Definition shiftingWorld : World :=
  mkWorld sampleTree
    [ [ExtDel ["proj"; "api"; "servicecontext.go"];
       ExtPut ["proj"; "cmd"; "service_context.go"] fileEntry] ] [].

(** X14.  Whatever an external process does to the tree meanwhile, the
    diagnostics of [ValidateNoStyleConflicts] are exactly what the run
    itself has seen: every line is for a directory at or below
    [projectPath] and a known pair for which a [Stat] of the snake_case
    file and the [Stat] of the flat-named file right after it both found
    an entry that is not a directory; and every such sighting in the run
    has its line.  The run ends in one of three ways: the model's fuel
    runs out; its last call is a failed [Lstat] or directory listing,
    whose error it returns (dropping the diagnostics); or it returns
    [nil] when there is no line and the one error listing the lines
    otherwise. *)
Theorem validate_reports_what_it_saw (fuel : nat) (projectPath : path)
    (w : World) (res : walkres) (w' : World) :
  ValidateNoStyleConflicts fuel projectPath w = (res, w') →
  ∃ (tr : list Event) (lines : list string),
    trace w' = trace w ++ tr
    ∧ (∀ line, line ∈ lines →
         ∃ d c, projectPath `prefix_of` d ∧ c ∈ knownStyleConflicts
                ∧ line = conflictLine projectPath d c ∧ observedBoth d c tr)
    ∧ (∀ d c, c ∈ knownStyleConflicts → observedBoth d c tr →
              conflictLine projectPath d c ∈ lines)
    ∧ (res = OutOfFuel
       ∨ (∃ e pre ev, res = Returned (Some e) ∧ tr = pre ++ [ev]
                      ∧ failure ev = Some e)
       ∨ res = Returned match lines with
                        | [] => None
                        | _ :: _ => Some (conflictsError lines)
                        end).
Proof.
  unfold ValidateNoStyleConflicts.
  destruct (Walk fuel projectPath _ ([], w)) as [r [acc w1]] eqn:Hw.
  destruct (Walk_faithful _ _ _ _ _ _ Hw) as (tr & Hext & [Hsound Hcomp]).
  destruct (Walk_WalkT _ _ (validateFn_validateV projectPath) _ _ _ _ _ _ _ Hw)
    as (tr' & Hext' & HT).
  pose proof (extends_inj _ _ _ _ Hext' Hext) as ->.
  intros Hres. exists tr, acc.
  assert (w' = w1) as ->.
  { destruct r as [|[e|]]; [by injection Hres..|].
    by case_decide; injection Hres. }
  split; [done|]. split; [done|]. split; [done|].
  destruct r as [|[e|]].
  - left. by injection Hres.
  - right; left. injection Hres as <-.
    assert (∃ pre ev, tr = pre ++ [ev] ∧ failure ev = Some e)
      as (pre & ev & ? & ?); [|by exists e, pre, ev].
    clear Hw Hext Hext' Hsound Hcomp.
    remember (Returned (Some e)) as res0 eqn:Hres0.
    destruct HT as [e0 tv r' [-> ->]|i tc res' Hwt].
    + injection Hres0 as ->. by exists [], (EvLstat projectPath (inl e)).
    + destruct (walkT_validate_error _ _ _ Hwt e Hres0) as (pre & ev & -> & Hev).
      by exists (EvLstat projectPath (inr i) :: pre), ev.
  - right; right. destruct acc as [|l acc]; simpl in Hres; by injection Hres.
Qed.

Lemma validate_reports_what_it_saw_witness :
  let run := ValidateNoStyleConflicts 5 ["proj"] shiftingWorld in
  ∃ (tr : list Event) (lines : list string),
    trace run.2 = tr
    ∧ (∀ line, line ∈ lines →
         ∃ d c, ["proj"] `prefix_of` d ∧ c ∈ knownStyleConflicts
                ∧ line = conflictLine ["proj"] d c ∧ observedBoth d c tr)
    ∧ (∀ d c, c ∈ knownStyleConflicts → observedBoth d c tr →
              conflictLine ["proj"] d c ∈ lines)
    ∧ (run.1 = OutOfFuel
       ∨ (∃ e pre ev, run.1 = Returned (Some e) ∧ tr = pre ++ [ev]
                      ∧ failure ev = Some e)
       ∨ run.1 = Returned match lines with
                          | [] => None
                          | _ :: _ => Some (conflictsError lines)
                          end).
Proof.
  intros run.
  destruct (validate_reports_what_it_saw 5 ["proj"] shiftingWorld run.1 run.2
              (surjective_pairing run)) as (tr & lines & Htr & Hrest).
  exists tr, lines. split; [exact Htr|exact Hrest].
Defined.

Example shiftingWorld_validate :
  (ValidateNoStyleConflicts 5 ["proj"] shiftingWorld).1
  = Returned (Some (errorString
      ("style conflicts detected:" +:+ newline
       +:+ "cmd: both service_context.go and servicecontext.go exist" +:+ newline
       +:+ "internal/svc: both service_context.go and servicecontext.go exist"))).
Proof. evaluate. Qed.

(* ===================================================================== *)
(** * Validation as a test of what cleanup left *)
(* ===================================================================== *)

Section ValidateOpen.
Variable root : path.

Local Abbreviation vfn := (validateFn (W := FS) root).

(** Every directory at or below [p] can be listed, and can be searched
    if it has an entry. *)
Definition passable (fs : FS) (p : path) : Prop :=
  ∀ q j, p `prefix_of` q → namei fs q = inr j → IsDir j = true →
    Readable j = true ∧ ∀ n, is_Some (fs !! (q ++ [n])) → Searchable j = true.

Definition open_spec (f : nat) : Prop :=
  ∀ (p : path) (i : FileInfo) (acc : list string) (fs : FS)
    (acc' : list string) (fs' : FS),
    walk f vfn p i (acc, fs) = (Returned None, (acc', fs')) →
    namei fs p = inr i → passable fs p.

Lemma walkNames_open (f : nat) (p : path) (i : FileInfo) (fs : FS) :
  open_spec f → namei fs p = inr i → IsDir i = true →
  ∀ (names : list string) (acc acc' : list string) (fs' : FS),
    walkNames (walk f vfn) vfn p names (acc, fs) = (Returned None, (acc', fs')) →
    ∀ n, n ∈ names → Searchable i = true ∧ passable fs (p ++ [n]).
Proof.
  intros IHf Hp Hd. induction names as [|n0 rest IH]; intros acc acc' fs' Hw n Hn.
  { by apply elem_of_nil in Hn. }
  revert Hw. simpl. unfold bind at 1. simpl. unfold fs_lstat, Join.
  pose proof (namei_snoc fs p n0) as Hsn. rewrite Hp, Hd in Hsn. simpl in Hsn.
  destruct (namei fs (p ++ [n0])) as [e|j] eqn:Hn0.
  { unfold bind. by rewrite validateFn_error. }
  unfold bind.
  destruct (walk f vfn (p ++ [n0]) j (acc, fs)) as [r1 [acc1 fs1]] eqn:Hw1.
  destruct (walk_validate root f _ _ _ _ _ _ _ Hw1 Hn0) as [-> _].
  destruct r1 as [|[e|]]; [done|done|]. intros Hrest.
  apply elem_of_cons in Hn as [->|Hn]; [|by eapply IH].
  split; [|by eapply IHf].
  destruct (Searchable i); [done|]. simpl in Hsn. done.
Qed.

Lemma walk_open : ∀ f, open_spec f.
Proof.
  induction f as [|f IHf]; intros p i acc fs acc' fs'; [done|].
  simpl. destruct (IsDir i) eqn:Hd; simpl.
  - unfold bind at 1. simpl. unfold fs_readDirNames. intros Hw Hp.
    rewrite Hp, Hd in Hw. simpl in Hw.
    destruct (Readable i) eqn:Hr; simpl in Hw.
    2: { revert Hw. unfold bind. by rewrite validateFn_error. }
    revert Hw. unfold bind. rewrite validateFn_dir by done. intros Hw.
    pose proof (walkNames_open f p i fs IHf Hp Hd _ _ _ _ Hw) as Hnames.
    intros q j [->|[n Hpre]]%prefix_cases Hq Hdq.
    + rewrite Hp in Hq. injection Hq as <-. split; [done|].
      intros n Hn%elem_of_entries. by apply (Hnames n).
    + assert (n ∈ entries fs p) as Hn.
      { apply elem_of_entries.
        assert (isDirAt fs (p ++ [n])) as (j' & Hj' & _).
        { eapply isDirAt_prefix; [done|]. by exists j. }
        apply namei_lookup in Hj'. by rewrite Hj'. }
      destruct (Hnames n Hn) as [_ Hsub]. by apply Hsub.
  - intros _ Hp q j Hpre Hq Hdq. exfalso.
    assert (isDirAt fs p) as (i' & Hi' & Hdi').
    { eapply isDirAt_prefix; [done|]. by exists j. }
    congruence.
Qed.
End ValidateOpen.

(** X15.  [ValidateNoStyleConflicts] tests exactly whether a cleanup of
    an existing project went through: run on the tree that
    [CleanupStyleConflicts] left, it returns [nil] if and only if the
    cleanup had returned [nil].  In particular, after a cleanup that
    returned an error the tree never validates. *)
Theorem validate_tells_whether_cleanup_succeeded (fuel : nat) (projectPath : path)
    (style : string) (fs : FS) (r : option error) (fs' : FS) :
  CleanupStyleConflicts fuel projectPath style fs = (Returned r, fs') →
  (∃ info, Lstat projectPath fs = (inr info, fs)) →
  (ValidateNoStyleConflicts fuel projectPath fs').1 = Returned None ↔ r = None.
Proof.
  intros Hc [info Hl].
  assert (Hn : namei fs projectPath = inr info).
  { revert Hl. simpl. unfold fs_lstat.
    destruct (namei fs projectPath) as [|i]; [done|]. by intros [= ->]. }
  split.
  - intros Hv. destruct r as [e|]; [exfalso|done].
    destruct (Cleanup_quiet_any _ _ _ _ _ _ Hc) as [_ Hout]. rewrite Hn in Hout.
    destruct (ValidateNoStyleConflicts fuel projectPath fs') as [res fs2] eqn:Hval.
    simpl in Hv. subst res.
    destruct (Validate_quiet _ _ _ _ _ Hval) as [-> Hq].
    destruct (namei fs' projectPath) as [errno|info'] eqn:Hn'; [done|].
    destruct Hq as (L & _ & -> & Hall).
    destruct Hout as [(q & j & Hq & Hj & Hd & Hb)|(d & c & j & Hpre & Hk & Hcf & _)].
    2: { by apply (Hall d c Hpre Hk), elem_of_nil in Hcf. }
    revert Hval. unfold ValidateNoStyleConflicts, Walk.
    unfold bind at 1. simpl. unfold fs_lstat. rewrite Hn'.
    destruct (walk fuel (validateFn projectPath) projectPath info' ([], fs'))
      as [r0 [acc fs1]] eqn:Hw.
    intros Hres. assert (r0 = Returned None) as ->.
    { destruct r0 as [|[e0|]]; [done|done|done]. }
    destruct (walk_open projectPath fuel _ _ _ _ _ _ Hw Hn' q j Hq Hj Hd) as [Hr Hs].
    destruct Hb as [[Hr' _]|(n & Hs' & Hn0 & _)]; [congruence|].
    rewrite (Hs n Hn0) in Hs'. done.
  - intros ->. revert Hc. unfold CleanupStyleConflicts, ValidateNoStyleConflicts.
    destruct (Walk fuel projectPath (cleanupFn _) (tt, fs)) as [res [[] fs1]] eqn:Hw.
    intros [= -> ->].
    by rewrite (Walk_again _ (validateFn projectPath)
                  (λ p i c fs0, validateFn_file projectPath p i (c, fs0))
                  (validateFn_clean_dir projectPath) fuel projectPath info fs fs' []
                  Hw Hn).
Qed.

Lemma validate_tells_whether_cleanup_succeeded_witness :
  (ValidateNoStyleConflicts 5 ["proj"] readonlyTreeHalfway).1 = Returned None
  ↔ Some svcRefusal = None.
Proof.
  apply (validate_tells_whether_cleanup_succeeded 5 ["proj"] "go_zero" readonlyTree).
  - evaluate.
  - exists dirEntry. evaluate.
Defined.
